(** * Broker: value model, topic filters, routing, peering, subscriber queue

    A shallow embedding of the parts of Broker that its specification makes
    claims about, and the proofs of those claims.  The definitions come
    first:

    - [Std]: the algorithms of the C++ standard library that the code calls;
    - [Value]: the view representation [variant_data] of
      [libbroker/broker/variant_data.cc], the owning representation [data],
      the conversion [to_data], the cross-representation equality, the order
      on views, the handlers of the shallow decoder and [parse_shallow];
    - [Filter]: topics and canonical filters;
    - [Routing]: the routing table of an endpoint and message dispatch;
    - [Peering]: peer records, status events, unpeering and connection retry;
    - [SubscriberQueue]: the [subscriber_queue] of [src/subscriber.cc] with
      its producer and its consumer;
    - [Subscriber]: the calls of [subscriber] on that queue;
    - [ZeekBinding]: the [Event] accessors of [bindings/python/zeek.cpp];
    - [EventLog], [TestClock] and [BackendTest]: the helpers of the tests in
      [libbroker/broker/integration.test.cc] and [tests/cpp/backend.cc].

    The properties follow, one module of facts for each of them. *)

From Stdlib Require Import ZArith List String Ascii Bool Lia Arith.
From Stdlib Require Import Floats.SpecFloat Strings.Byte.
From stdpp Require Import gmap strings list fin_maps.

Import ListNotations.

#[local] Set Warnings "-register-all".

(** ** Generic algorithms of the C++ standard library used by the code *)

Module Std.

(** [std::equal(first1, last1, first2, last2, pred)]: both ranges have the
    same length and [pred] holds pairwise. *)
Definition equal {A B : Type} (pred : A -> B -> bool) : list A -> list B -> bool :=
  fix go (xs : list A) (ys : list B) {struct xs} : bool :=
    match xs, ys with
    | [], [] => true
    | x :: xs', y :: ys' => pred x y && go xs' ys'
    | _, _ => false
    end.

(** [std::lexicographical_compare(first1, last1, first2, last2)] written
    over the two directions of the element comparison: [lt x y] is [x < y]
    and [gt x y] is [y < x].  The loop returns at the first position where
    the elements differ; otherwise the shorter range is the smaller one. *)
Definition lex_lt {A B : Type} (lt gt : A -> B -> bool) : list A -> list B -> bool :=
  fix go (xs : list A) (ys : list B) {struct xs} : bool :=
    match xs, ys with
    | x :: xs', y :: ys' =>
        if lt x y then true else if gt x y then false else go xs' ys'
    | [], _ :: _ => true
    | _, _ => false
    end.

(** The same loop run on the swapped ranges (is [ys] before [xs]?), still
    by recursion on [xs]. *)
Definition lex_gt {A B : Type} (lt gt : A -> B -> bool) : list A -> list B -> bool :=
  fix go (xs : list A) (ys : list B) {struct xs} : bool :=
    match xs, ys with
    | x :: xs', y :: ys' =>
        if gt x y then true else if lt x y then false else go xs' ys'
    | _ :: _, [] => true
    | _, _ => false
    end.

(** [std::lexicographical_compare] with the single comparison [<] of the
    element type, as the library states it. *)
Definition lexicographical_compare {A : Type} (less : A -> A -> bool)
    (xs ys : list A) : bool :=
  lex_lt less (fun x y => less y x) xs ys.

(** [operator<] of [std::pair]. *)
Definition pair_less {A B : Type} (lessA : A -> A -> bool) (lessB : B -> B -> bool)
    (p q : A * B) : bool :=
  lessA (fst p) (fst q) || (negb (lessA (fst q) (fst p)) && lessB (snd p) (snd q)).

(** Every element of [xs] is before every later one: the iteration order of
    a [std::set] or of the keys of a [std::map]. *)
Fixpoint ascending {A : Type} (less : A -> A -> bool) (xs : list A) : bool :=
  match xs with
  | [] => true
  | x :: xs' => forallb (less x) xs' && ascending less xs'
  end.

(** [std::set::emplace]: the element goes to its place in the order, unless
    an equivalent element is there already.  The set is kept as the
    sequence of its iteration and the place is found from the front, where
    [std::set] descends a tree: the two agree when [less] is a strict weak
    ordering on the elements at hand, which C++ requires of the comparison
    of a [std::set] (for views it is one when they hold no NaN), and
    nothing is claimed outside of that. *)
Fixpoint set_emplace {A : Type} (less : A -> A -> bool) (x : A) (s : list A) : list A :=
  match s with
  | [] => [x]
  | y :: s' =>
      if less y x then y :: set_emplace less x s'
      else if less x y then x :: s
      else s
  end.

(** [std::map::emplace]: as for sets, by the key, and with the same
    requirement on [less]; the entry of an equivalent key is kept, value
    included. *)
Fixpoint map_emplace {K V : Type} (less : K -> K -> bool) (k : K) (v : V)
    (m : list (K * V)) : list (K * V) :=
  match m with
  | [] => [(k, v)]
  | (k', v') :: m' =>
      if less k' k then (k', v') :: map_emplace less k v m'
      else if less k k' then (k, v) :: m
      else m
  end.

(** [std::adjacent_find(first, last, pred)]: the position of the first
    element that [pred] relates to its successor; the length of the range
    ([last]) when there is none. *)
Fixpoint adjacent_find {A : Type} (pred : A -> A -> bool) (xs : list A) : nat :=
  match xs with
  | [] => 0
  | x :: rest =>
      match rest with
      | [] => 1
      | y :: _ => if pred x y then 0 else S (adjacent_find pred rest)
      end
  end.

(** [std::unique(first, last)] followed by [erase] of the tail: of every
    run of equal elements the first one stays.  The loop compares each
    element with the last one it has kept. *)
Fixpoint unique_after {A : Type} (eq : A -> A -> bool) (kept : A) (rest : list A)
    : list A :=
  match rest with
  | [] => []
  | x :: rest' =>
      if eq kept x then unique_after eq kept rest' else x :: unique_after eq x rest'
  end.

Definition unique {A : Type} (eq : A -> A -> bool) (xs : list A) : list A :=
  match xs with
  | [] => []
  | x :: rest => x :: unique_after eq x rest
  end.

(** [std::min_element(first, last)], dereferenced: the smallest element;
    nothing for an empty range. *)
Fixpoint min_element (xs : list Z) : option Z :=
  match xs with
  | [] => None
  | x :: rest =>
      match min_element rest with
      | Some m => Some (if (m <? x)%Z then m else x)
      | None => Some x
      end
  end.

End Std.

(** ** The value model ([libbroker/broker/variant_data.cc]) *)

Module Value.

(** *** Payload types *)

(** Modelled from the spec: the payload types of [broker/data.hh] and
    [broker/variant_data.hh] are not part of the sources at hand; they follow
    the table of variants of the data model.  [count] is an unsigned and
    [integer] a signed 64-bit number ([broker/fwd.hh]), [real] an IEEE-754
    binary64 number with the comparisons of the standard (a NaN is unordered
    and unequal to everything, itself included), an address is its 128-bit
    number, timestamps and timespans count nanoseconds. *)
Definition count := Z.
Definition integer := Z.
Definition real := spec_float.
Definition address := Z.
Definition timestamp := Z.
Definition timespan := Z.

Inductive protocol := proto_unknown | proto_tcp | proto_udp | proto_icmp.

Record subnet := { network : address; prefix_length : Z }.
Record port := { number : Z; proto : protocol }.

Definition protocol_index (p : protocol) : Z :=
  match p with
  | proto_unknown => 0
  | proto_tcp => 1
  | proto_udp => 2
  | proto_icmp => 3
  end.

(** The natural order of each payload: [false < true] on booleans, the
    numeric order, the IEEE order on reals, bytes as unsigned numbers in
    strings, and pairs by their first component first. *)
Definition boolean_less (x y : bool) : bool := negb x && y.
Definition real_eq (x y : real) : bool := SFeqb x y.
Definition real_less (x y : real) : bool := SFltb x y.
Definition byte_less (a b : ascii) : bool := (N_of_ascii a <? N_of_ascii b)%N.
Definition string_eq (s t : string) : bool :=
  Std.equal Ascii.eqb (list_ascii_of_string s) (list_ascii_of_string t).
Definition string_less (s t : string) : bool :=
  Std.lexicographical_compare byte_less (list_ascii_of_string s) (list_ascii_of_string t).
Definition protocol_eq (p q : protocol) : bool := (protocol_index p =? protocol_index q)%Z.
Definition subnet_eq (s t : subnet) : bool :=
  (network s =? network t)%Z && (prefix_length s =? prefix_length t)%Z.
Definition subnet_less (s t : subnet) : bool :=
  Std.pair_less Z.ltb Z.ltb (network s, prefix_length s) (network t, prefix_length t).
Definition port_eq (p q : port) : bool :=
  (number p =? number q)%Z && protocol_eq (proto p) (proto q).
Definition port_less (p q : port) : bool :=
  Std.pair_less Z.ltb Z.ltb (number p, protocol_index (proto p))
                            (number q, protocol_index (proto q)).

Definition is_nan (x : real) : bool :=
  match x with S754_nan => true | _ => false end.

(** *** The two representations *)

(** The tags, in the order of the alternatives of the variant: the number
    of a tag is the index of its alternative. *)
Inductive variant_tag :=
| tag_none | tag_boolean | tag_count | tag_integer | tag_real | tag_string
| tag_address | tag_subnet | tag_port | tag_timestamp | tag_timespan
| tag_enum_value | tag_set | tag_table | tag_vector.

Definition tag_index (t : variant_tag) : nat :=
  match t with
  | tag_none => 0 | tag_boolean => 1 | tag_count => 2 | tag_integer => 3
  | tag_real => 4 | tag_string => 5 | tag_address => 6 | tag_subnet => 7
  | tag_port => 8 | tag_timestamp => 9 | tag_timespan => 10
  | tag_enum_value => 11 | tag_set => 12 | tag_table => 13 | tag_vector => 14
  end.

Definition tag_eq (s t : variant_tag) : bool := tag_index s =? tag_index t.

(** The owning value [broker::data].  A set is the sequence of its elements
    and a table the sequence of its entries, in iteration order; a vector
    has its elements and the capacity of its buffer. *)
Inductive data :=
| d_none
| d_boolean (b : bool)
| d_count (c : count)
| d_integer (i : integer)
| d_real (r : real)
| d_string (s : string)
| d_address (a : address)
| d_subnet (s : subnet)
| d_port (p : port)
| d_timestamp (t : timestamp)
| d_timespan (t : timespan)
| d_enum_value (name : string)
| d_set (xs : list data)
| d_table (kvs : list (data * data))
| d_vector (xs : list data) (capacity : nat).

(** The view value [broker::variant_data]: strings are slices of the source
    buffer and containers live in the arena; read through their pointers
    they are the same sequences. *)
Inductive variant_data :=
| v_none
| v_boolean (b : bool)
| v_count (c : count)
| v_integer (i : integer)
| v_real (r : real)
| v_string (s : string)
| v_address (a : address)
| v_subnet (s : subnet)
| v_port (p : port)
| v_timestamp (t : timestamp)
| v_timespan (t : timespan)
| v_enum_value (name : string)
| v_set (xs : list variant_data)
| v_table (kvs : list (variant_data * variant_data))
| v_list (xs : list variant_data) (capacity : nat).

Definition data_tag (d : data) : variant_tag :=
  match d with
  | d_none => tag_none | d_boolean _ => tag_boolean | d_count _ => tag_count
  | d_integer _ => tag_integer | d_real _ => tag_real | d_string _ => tag_string
  | d_address _ => tag_address | d_subnet _ => tag_subnet | d_port _ => tag_port
  | d_timestamp _ => tag_timestamp | d_timespan _ => tag_timespan
  | d_enum_value _ => tag_enum_value | d_set _ => tag_set | d_table _ => tag_table
  | d_vector _ _ => tag_vector
  end.

(** [variant_data::get_tag]. *)
Definition get_tag (v : variant_data) : variant_tag :=
  match v with
  | v_none => tag_none | v_boolean _ => tag_boolean | v_count _ => tag_count
  | v_integer _ => tag_integer | v_real _ => tag_real | v_string _ => tag_string
  | v_address _ => tag_address | v_subnet _ => tag_subnet | v_port _ => tag_port
  | v_timestamp _ => tag_timestamp | v_timespan _ => tag_timespan
  | v_enum_value _ => tag_enum_value | v_set _ => tag_set | v_table _ => tag_table
  | v_list _ _ => tag_vector
  end.

(** [value.index()] of the underlying [std::variant]. *)
Definition data_index (d : data) : nat := tag_index (data_tag d).
Definition index (v : variant_data) : nat := tag_index (get_tag v).

(** *** Equality: [visit_if_same_type] with [eq_predicate] *)

(** [operator==(const data&, const variant_data&)].  With different tags
    the predicate is given the two tags and compares them; with the same tag
    it is given the two payloads: ranges go through [std::equal], pairs
    compare both components, everything else uses [==]. *)
Fixpoint data_eq_variant (lhs : data) (rhs : variant_data) {struct lhs} : bool :=
  if negb (tag_eq (data_tag lhs) (get_tag rhs)) then tag_eq (data_tag lhs) (get_tag rhs)
  else
    match lhs, rhs with
    | d_none, v_none => true
    | d_boolean x, v_boolean y => Bool.eqb x y
    | d_count x, v_count y => (x =? y)%Z
    | d_integer x, v_integer y => (x =? y)%Z
    | d_real x, v_real y => real_eq x y
    | d_string x, v_string y => string_eq x y
    | d_address x, v_address y => (x =? y)%Z
    | d_subnet x, v_subnet y => subnet_eq x y
    | d_port x, v_port y => port_eq x y
    | d_timestamp x, v_timestamp y => (x =? y)%Z
    | d_timespan x, v_timespan y => (x =? y)%Z
    | d_enum_value x, v_enum_value y => string_eq x y
    | d_set xs, v_set ys => Std.equal data_eq_variant xs ys
    | d_table xs, v_table ys =>
        Std.equal (fun p q => data_eq_variant (fst p) (fst q)
                              && data_eq_variant (snd p) (snd q)) xs ys
    | d_vector xs _, v_list ys _ => Std.equal data_eq_variant xs ys
    | _, _ => false
    end.

(** [operator==(const variant_data&, const variant_data&)]. *)
Fixpoint variant_eq (lhs rhs : variant_data) {struct lhs} : bool :=
  if negb (tag_eq (get_tag lhs) (get_tag rhs)) then tag_eq (get_tag lhs) (get_tag rhs)
  else
    match lhs, rhs with
    | v_none, v_none => true
    | v_boolean x, v_boolean y => Bool.eqb x y
    | v_count x, v_count y => (x =? y)%Z
    | v_integer x, v_integer y => (x =? y)%Z
    | v_real x, v_real y => real_eq x y
    | v_string x, v_string y => string_eq x y
    | v_address x, v_address y => (x =? y)%Z
    | v_subnet x, v_subnet y => subnet_eq x y
    | v_port x, v_port y => port_eq x y
    | v_timestamp x, v_timestamp y => (x =? y)%Z
    | v_timespan x, v_timespan y => (x =? y)%Z
    | v_enum_value x, v_enum_value y => string_eq x y
    | v_set xs, v_set ys => Std.equal variant_eq xs ys
    | v_table xs, v_table ys =>
        Std.equal (fun p q => variant_eq (fst p) (fst q)
                              && variant_eq (snd p) (snd q)) xs ys
    | v_list xs _, v_list ys _ => Std.equal variant_eq xs ys
    | _, _ => false
    end.

(** [operator==(const variant_data&, const data&)]: the same visit with the
    view on the left. *)
Fixpoint variant_eq_data (lhs : variant_data) (rhs : data) {struct lhs} : bool :=
  if negb (tag_eq (get_tag lhs) (data_tag rhs)) then tag_eq (get_tag lhs) (data_tag rhs)
  else
    match lhs, rhs with
    | v_none, d_none => true
    | v_boolean x, d_boolean y => Bool.eqb x y
    | v_count x, d_count y => (x =? y)%Z
    | v_integer x, d_integer y => (x =? y)%Z
    | v_real x, d_real y => real_eq x y
    | v_string x, d_string y => string_eq x y
    | v_address x, d_address y => (x =? y)%Z
    | v_subnet x, d_subnet y => subnet_eq x y
    | v_port x, d_port y => port_eq x y
    | v_timestamp x, d_timestamp y => (x =? y)%Z
    | v_timespan x, d_timespan y => (x =? y)%Z
    | v_enum_value x, d_enum_value y => string_eq x y
    | v_set xs, d_set ys => Std.equal variant_eq_data xs ys
    | v_table xs, d_table ys =>
        Std.equal (fun p q => variant_eq_data (fst p) (fst q)
                              && variant_eq_data (snd p) (snd q)) xs ys
    | v_list xs _, d_vector ys _ => Std.equal variant_eq_data xs ys
    | _, _ => false
    end.

(** *** Order *)

(** [operator<(const variant_data&, const variant_data&)].  Values with
    different indexes are ordered by the index.  With the same index the
    payloads are compared with their own [operator<]; a pointer to a
    container in the arena is dereferenced first, and [operator<] of a
    container is [std::lexicographical_compare] over its elements (of a
    table: over its entries, with [operator<] of [std::pair]).

    The loop of [std::lexicographical_compare] asks for both [x < y] and
    [y < x].  [variant_less lhs rhs] is [lhs < rhs] and [variant_greater lhs
    rhs] is [rhs < lhs]; both go by recursion on [lhs], and
    [variant_greater_flip] below shows that the second is the first with its
    arguments exchanged. *)
Fixpoint variant_less (lhs rhs : variant_data) {struct lhs} : bool :=
  if negb (index lhs =? index rhs) then index lhs <? index rhs
  else
    match lhs, rhs with
    | v_none, v_none => false
    | v_boolean x, v_boolean y => boolean_less x y
    | v_count x, v_count y => (x <? y)%Z
    | v_integer x, v_integer y => (x <? y)%Z
    | v_real x, v_real y => real_less x y
    | v_string x, v_string y => string_less x y
    | v_address x, v_address y => (x <? y)%Z
    | v_subnet x, v_subnet y => subnet_less x y
    | v_port x, v_port y => port_less x y
    | v_timestamp x, v_timestamp y => (x <? y)%Z
    | v_timespan x, v_timespan y => (x <? y)%Z
    | v_enum_value x, v_enum_value y => string_less x y
    | v_set xs, v_set ys => Std.lex_lt variant_less variant_greater xs ys
    | v_table xs, v_table ys =>
        Std.lex_lt
          (fun p q => variant_less (fst p) (fst q)
                      || (negb (variant_greater (fst p) (fst q))
                          && variant_less (snd p) (snd q)))
          (fun p q => variant_greater (fst p) (fst q)
                      || (negb (variant_less (fst p) (fst q))
                          && variant_greater (snd p) (snd q)))
          xs ys
    | v_list xs _, v_list ys _ => Std.lex_lt variant_less variant_greater xs ys
    | _, _ => false
    end
with variant_greater (lhs rhs : variant_data) {struct lhs} : bool :=
  if negb (index rhs =? index lhs) then index rhs <? index lhs
  else
    match lhs, rhs with
    | v_none, v_none => false
    | v_boolean x, v_boolean y => boolean_less y x
    | v_count x, v_count y => (y <? x)%Z
    | v_integer x, v_integer y => (y <? x)%Z
    | v_real x, v_real y => real_less y x
    | v_string x, v_string y => string_less y x
    | v_address x, v_address y => (y <? x)%Z
    | v_subnet x, v_subnet y => subnet_less y x
    | v_port x, v_port y => port_less y x
    | v_timestamp x, v_timestamp y => (y <? x)%Z
    | v_timespan x, v_timespan y => (y <? x)%Z
    | v_enum_value x, v_enum_value y => string_less y x
    | v_set xs, v_set ys => Std.lex_gt variant_less variant_greater xs ys
    | v_table xs, v_table ys =>
        Std.lex_gt
          (fun p q => variant_less (fst p) (fst q)
                      || (negb (variant_greater (fst p) (fst q))
                          && variant_less (snd p) (snd q)))
          (fun p q => variant_greater (fst p) (fst q)
                      || (negb (variant_less (fst p) (fst q))
                          && variant_greater (snd p) (snd q)))
          xs ys
    | v_list xs _, v_list ys _ => Std.lex_gt variant_less variant_greater xs ys
    | _, _ => false
    end.

(** Modelled from the spec: [operator<] of [broker::data] is declared in
    [broker/data.hh], which is not part of the sources at hand.  The value
    order is defined first by tag index, then by payload natural order; this
    is the order of the underlying [std::variant], the same as on views. *)
Fixpoint data_less (lhs rhs : data) {struct lhs} : bool :=
  if negb (data_index lhs =? data_index rhs) then data_index lhs <? data_index rhs
  else
    match lhs, rhs with
    | d_none, d_none => false
    | d_boolean x, d_boolean y => boolean_less x y
    | d_count x, d_count y => (x <? y)%Z
    | d_integer x, d_integer y => (x <? y)%Z
    | d_real x, d_real y => real_less x y
    | d_string x, d_string y => string_less x y
    | d_address x, d_address y => (x <? y)%Z
    | d_subnet x, d_subnet y => subnet_less x y
    | d_port x, d_port y => port_less x y
    | d_timestamp x, d_timestamp y => (x <? y)%Z
    | d_timespan x, d_timespan y => (x <? y)%Z
    | d_enum_value x, d_enum_value y => string_less x y
    | d_set xs, d_set ys => Std.lex_lt data_less data_greater xs ys
    | d_table xs, d_table ys =>
        Std.lex_lt
          (fun p q => data_less (fst p) (fst q)
                      || (negb (data_greater (fst p) (fst q))
                          && data_less (snd p) (snd q)))
          (fun p q => data_greater (fst p) (fst q)
                      || (negb (data_less (fst p) (fst q))
                          && data_greater (snd p) (snd q)))
          xs ys
    | d_vector xs _, d_vector ys _ => Std.lex_lt data_less data_greater xs ys
    | _, _ => false
    end
with data_greater (lhs rhs : data) {struct lhs} : bool :=
  if negb (data_index rhs =? data_index lhs) then data_index rhs <? data_index lhs
  else
    match lhs, rhs with
    | d_none, d_none => false
    | d_boolean x, d_boolean y => boolean_less y x
    | d_count x, d_count y => (y <? x)%Z
    | d_integer x, d_integer y => (y <? x)%Z
    | d_real x, d_real y => real_less y x
    | d_string x, d_string y => string_less y x
    | d_address x, d_address y => (y <? x)%Z
    | d_subnet x, d_subnet y => subnet_less y x
    | d_port x, d_port y => port_less y x
    | d_timestamp x, d_timestamp y => (y <? x)%Z
    | d_timespan x, d_timespan y => (y <? x)%Z
    | d_enum_value x, d_enum_value y => string_less y x
    | d_set xs, d_set ys => Std.lex_gt data_less data_greater xs ys
    | d_table xs, d_table ys =>
        Std.lex_gt
          (fun p q => data_less (fst p) (fst q)
                      || (negb (data_greater (fst p) (fst q))
                          && data_less (snd p) (snd q)))
          (fun p q => data_greater (fst p) (fst q)
                      || (negb (data_less (fst p) (fst q))
                          && data_greater (snd p) (snd q)))
          xs ys
    | d_vector xs _, d_vector ys _ => Std.lex_gt data_less data_greater xs ys
    | _, _ => false
    end.

(** *** Conversion *)

(** [variant_data::to_data]: scalars are copied, strings and enum names
    become owned strings, and a container is rebuilt element by element: a
    set and a table by [emplace] into an empty [broker::set] or
    [broker::table] (ordered by [operator<] of [data]), a list by
    [emplace_back] into a vector that reserved room for exactly its
    elements. *)
Fixpoint to_data (v : variant_data) : data :=
  match v with
  | v_none => d_none
  | v_boolean b => d_boolean b
  | v_count c => d_count c
  | v_integer i => d_integer i
  | v_real r => d_real r
  | v_string s => d_string s
  | v_address a => d_address a
  | v_subnet s => d_subnet s
  | v_port p => d_port p
  | v_timestamp t => d_timestamp t
  | v_timespan t => d_timespan t
  | v_enum_value name => d_enum_value name
  | v_set xs =>
      d_set (fold_left (fun result x => Std.set_emplace data_less x result)
                       (map to_data xs) [])
  | v_table kvs =>
      d_table (fold_left (fun result kv => Std.map_emplace data_less (fst kv) (snd kv) result)
                         (map (fun kv => (to_data (fst kv), to_data (snd kv))) kvs) [])
  | v_list xs _ => d_vector (map to_data xs) (length xs)
  end.

(** *** Well-formed views *)

(** The invariant of the containers of a view: a set iterates in strictly
    ascending order of [operator<], a table in strictly ascending order of
    its keys, and a list holds no more elements than its capacity. *)
Fixpoint well_formed (v : variant_data) : bool :=
  match v with
  | v_set xs => Std.ascending variant_less xs && forallb well_formed xs
  | v_table kvs =>
      Std.ascending variant_less (map fst kvs)
      && forallb (fun kv => well_formed (fst kv) && well_formed (snd kv)) kvs
  | v_list xs capacity => (length xs <=? capacity) && forallb well_formed xs
  | _ => true
  end.

(** No real number anywhere in the value is a NaN. *)
Fixpoint nan_free (v : variant_data) : bool :=
  match v with
  | v_real r => negb (is_nan r)
  | v_set xs => forallb nan_free xs
  | v_table kvs => forallb (fun kv => nan_free (fst kv) && nan_free (snd kv)) kvs
  | v_list xs _ => forallb nan_free xs
  | _ => true
  end.

(** What equality reads of a view: the value itself, less the capacity of
    its lists and the sign of its zero reals ([-0.0 == 0.0] on [double]). *)
Fixpoint normalize (v : variant_data) : variant_data :=
  match v with
  | v_real (S754_zero _) => v_real (S754_zero false)
  | v_set xs => v_set (map normalize xs)
  | v_table kvs => v_table (map (fun kv => (normalize (fst kv), normalize (snd kv))) kvs)
  | v_list xs _ => v_list (map normalize xs) 0
  | _ => v
  end.

(** The values without elements of their own. *)
Definition is_scalar (v : variant_data) : bool :=
  match v with
  | v_set _ | v_table _ | v_list _ _ => false
  | _ => true
  end.

(** How deep the containers of a view are nested, and the views of at most
    a given height that hold no NaN. *)
Fixpoint height (v : variant_data) : nat :=
  match v with
  | v_set xs => S (fold_right Nat.max 0 (map height xs))
  | v_table kvs =>
      S (fold_right Nat.max 0
           (map (fun kv => Nat.max (height (fst kv)) (height (snd kv))) kvs))
  | v_list xs _ => S (fold_right Nat.max 0 (map height xs))
  | _ => 0
  end.

Definition within (n : nat) (v : variant_data) : Prop :=
  height v <= n /\ nan_free v = true.

(** The owning value with the shape of a view: the same scalars and the
    same sequences of elements, a vector with room for exactly its
    elements.  [to_data] returns it for every well-formed view
    ([ValueFacts.to_data_mirror]). *)
Fixpoint mirror (v : variant_data) : data :=
  match v with
  | v_none => d_none
  | v_boolean b => d_boolean b
  | v_count c => d_count c
  | v_integer i => d_integer i
  | v_real r => d_real r
  | v_string s => d_string s
  | v_address a => d_address a
  | v_subnet s => d_subnet s
  | v_port p => d_port p
  | v_timestamp t => d_timestamp t
  | v_timespan t => d_timespan t
  | v_enum_value name => d_enum_value name
  | v_set xs => d_set (map mirror xs)
  | v_table kvs => d_table (map (fun kv => (mirror (fst kv), mirror (snd kv))) kvs)
  | v_list xs _ => d_vector (map mirror xs) (length xs)
  end.

(** The order of the data model in the words of its description: first by
    tag index, then by the natural order of the payload; strings compare as
    sequences of bytes, sets and lists as sequences of values, tables as
    sequences of entries. *)
Definition payload_order (x y : variant_data) : bool :=
  match x, y with
  | v_none, v_none => false
  | v_boolean a, v_boolean b => boolean_less a b
  | v_count a, v_count b => (a <? b)%Z
  | v_integer a, v_integer b => (a <? b)%Z
  | v_real a, v_real b => real_less a b
  | v_string a, v_string b =>
      Std.lexicographical_compare byte_less (list_ascii_of_string a) (list_ascii_of_string b)
  | v_address a, v_address b => (a <? b)%Z
  | v_subnet a, v_subnet b => subnet_less a b
  | v_port a, v_port b => port_less a b
  | v_timestamp a, v_timestamp b => (a <? b)%Z
  | v_timespan a, v_timespan b => (a <? b)%Z
  | v_enum_value a, v_enum_value b =>
      Std.lexicographical_compare byte_less (list_ascii_of_string a) (list_ascii_of_string b)
  | v_set xs, v_set ys => Std.lexicographical_compare variant_less xs ys
  | v_table xs, v_table ys =>
      Std.lexicographical_compare (Std.pair_less variant_less variant_less) xs ys
  | v_list xs _, v_list ys _ => Std.lexicographical_compare variant_less xs ys
  | _, _ => false
  end.

Definition value_order (x y : variant_data) : bool :=
  match Nat.compare (index x) (index y) with
  | Lt => true
  | Gt => false
  | Eq => payload_order x y
  end.

(** A view of the nested containers of the round-trip scenario: a table
    with a set of counts and a list of a port and a timestamp. *)
Definition sample_view : variant_data :=
  v_table
    [ (v_string "a", v_set [v_count 1%Z; v_count 2%Z; v_count 3%Z]);
      (v_string "b", v_list [v_port {| number := 53%Z; proto := proto_udp |};
                             v_timestamp 0%Z] 2) ].

(** The number 1.0, and three lists whose first elements are 1.0, a NaN and
    0.0: the NaN is unordered with both numbers. *)
Definition one : real := S754_finite false 4503599627370496 (-52).

Definition unordered_lists : variant_data * variant_data * variant_data :=
  (v_list [v_real one; v_count 5%Z] 2,
   v_list [v_real S754_nan; v_count 6%Z] 2,
   v_list [v_real (S754_zero false); v_count 7%Z] 2).

(** *** The handlers of the shallow decoder *)

(** [emplace_back] on a vector in the arena: a full buffer grows (here: it
    doubles, as the usual implementations do) before the element goes to
    the end. *)
Definition emplace_back (x : variant_data) (xs : list variant_data) (capacity : nat)
    : list variant_data * nat :=
  (xs ++ [x], if length xs <? capacity then capacity else Nat.max 1 (2 * capacity)).

(** The four handlers that consume the events of the decoder.  Each holds
    the object it fills: [decoder_handler_value] a single value,
    [decoder_handler_list] a list, [decoder_handler_set] a set and
    [decoder_handler_table] a table together with the key that waits for its
    value. *)
Inductive decoder_handler :=
| decoder_handler_value (result : variant_data)
| decoder_handler_list (result : list variant_data) (capacity : nat)
| decoder_handler_set (result : list variant_data)
| decoder_handler_table (result : list (variant_data * variant_data))
                        (key : option variant_data).

(** What every handler does with an item, whether it arrives as a scalar
    ([value]) or as a finished container ([end_list], [end_set],
    [end_table]): the value handler assigns it, the list handler appends it,
    the set handler inserts it, and the table handler ([add]) keeps it as
    the key or, when a key waits, emplaces the entry and resets the key. *)
Definition handler_put (h : decoder_handler) (item : variant_data) : decoder_handler :=
  match h with
  | decoder_handler_value _ => decoder_handler_value item
  | decoder_handler_list result capacity =>
      let '(result', capacity') := emplace_back item result capacity in
      decoder_handler_list result' capacity'
  | decoder_handler_set result =>
      decoder_handler_set (Std.set_emplace variant_less item result)
  | decoder_handler_table result None => decoder_handler_table result (Some item)
  | decoder_handler_table result (Some key) =>
      decoder_handler_table (Std.map_emplace variant_less key item result) None
  end.

Definition value (h : decoder_handler) (arg : variant_data) : decoder_handler :=
  handler_put h arg.

Definition begin_list (h : decoder_handler) : decoder_handler := decoder_handler_list [] 0.
Definition begin_set (h : decoder_handler) : decoder_handler := decoder_handler_set [].
Definition begin_table (h : decoder_handler) : decoder_handler := decoder_handler_table [] None.

(** The object a nested handler has filled, as the pointer the enclosing
    handler stores. *)
Definition handler_result (h : decoder_handler) : variant_data :=
  match h with
  | decoder_handler_value result => result
  | decoder_handler_list result capacity => v_list result capacity
  | decoder_handler_set result => v_set result
  | decoder_handler_table result _ => v_table result
  end.

Definition end_list (h other : decoder_handler) : decoder_handler :=
  handler_put h (handler_result other).
Definition end_set (h other : decoder_handler) : decoder_handler :=
  handler_put h (handler_result other).
Definition end_table (h other : decoder_handler) : decoder_handler :=
  handler_put h (handler_result other).

(** What a handler holds is well formed and without a NaN: the object it
    fills and, for the table handler, the key that waits for its value. *)
Definition handler_ok (h : decoder_handler) : bool :=
  well_formed (handler_result h) && nan_free (handler_result h)
  && match h with
     | decoder_handler_table _ (Some key) => well_formed key && nan_free key
     | _ => true
     end.

(** The calls a decoder makes on a handler for one value, whatever the
    format it reads: [value] for a scalar; for a container [begin_list]
    ([begin_set], [begin_table]), then the calls for the elements on the
    handler that call returned, then [end_list] ([end_set], [end_table])
    with that handler.  [begin_key_value_pair] and [end_key_value_pair] do
    nothing and are left out. *)
Inductive events :=
| on_value (arg : variant_data)
| on_list (nested : list events)
| on_set (nested : list events)
| on_table (nested : list events).

Fixpoint feed (h : decoder_handler) (e : events) {struct e} : decoder_handler :=
  match e with
  | on_value arg => value h arg
  | on_list nested => end_list h (fold_left feed nested (begin_list h))
  | on_set nested => end_set h (fold_left feed nested (begin_set h))
  | on_table nested => end_table h (fold_left feed nested (begin_table h))
  end.

(** The arguments of [value] are scalars, none of them a NaN. *)
Fixpoint plain (e : events) : bool :=
  match e with
  | on_value arg => is_scalar arg && nan_free arg
  | on_list nested | on_set nested | on_table nested => forallb plain nested
  end.

(** The view that [decoder_handler_value] (the handler of [parse_shallow])
    ends up with. *)
Definition view_of (e : events) : variant_data :=
  handler_result (feed (decoder_handler_value v_none) e).

(** *** [parse_shallow] *)

(** The memory holds the bytes; a pointer is an offset into it. *)
Definition memory := list byte.

Section ParseShallow.

(** [format::bin::v1::decode(begin, end, handler)] is declared in
    [broker/format/bin.hh], which is not part of the sources at hand: it
    is a parameter here.  It reads the bytes from [begin] up to [end],
    feeds the handler, and returns whether it succeeded and where it
    stopped; the third component is the handler after the call. *)
Variable decode : memory -> nat -> nat -> decoder_handler -> bool * nat * decoder_handler.

(** [variant_data::parse_shallow(buf, begin, end)] on the object [this]:
    the result of the call and the object afterwards. *)
Definition parse_shallow (mem : memory) (this : variant_data) (begin end_ : nat)
    : (bool * nat) * variant_data :=
  let handler := decoder_handler_value this in
  let '(ok, pos, handler') := decode mem begin end_ handler in
  if negb ok || negb (pos =? end_) then ((false, pos), handler_result handler')
  else ((true, pos), handler_result handler').

End ParseShallow.

(** *** The binary format *)

Module Bin.

(** Modelled from the spec: the decoder of [broker/format/bin.hh] is not
    part of the sources at hand.  Every value starts with a one-byte tag;
    the payloads are as the table of the binary encoding gives them.
    Lengths and counts are unsigned LEB128 numbers of at most ten bytes.
    Decoding fails on truncated input, on an unknown tag, on a duplicate
    set element, on a duplicate table key and on a number that does not end
    within ten bytes. *)

Definition decoding := (bool * (decoder_handler * list byte))%type.

Definition failed (h : decoder_handler) (bs : list byte) : decoding := (false, (h, bs)).
Definition succeeded (h : decoder_handler) (bs : list byte) : decoding := (true, (h, bs)).

Fixpoint read_varint (limit : nat) (shift acc : N) (bs : list byte) : option (N * list byte) :=
  match limit, bs with
  | S limit', b :: bs' =>
      let n := Byte.to_N b in
      let acc' := N.lor acc (N.shiftl (N.land n 127) shift) in
      if N.testbit n 7 then read_varint limit' (shift + 7) acc' bs'
      else Some (acc', bs')
  | _, _ => None
  end.

Definition varint (bs : list byte) : option (N * list byte) := read_varint 10 0 0 bs.

Fixpoint read_bytes (n : nat) (bs : list byte) : option (list byte * list byte) :=
  match n, bs with
  | O, _ => Some ([], bs)
  | S n', b :: bs' =>
      match read_bytes n' bs' with
      | Some (taken, rest) => Some (b :: taken, rest)
      | None => None
      end
  | S _, [] => None
  end.

(** [n] raw bytes, with [n] a number from the input: nothing is allocated
    for a length that the input cannot hold. *)
Definition read_counted (n : N) (bs : list byte) : option (list byte * list byte) :=
  if (N.of_nat (length bs) <? n)%N then None else read_bytes (N.to_nat n) bs.

Definition big_endian (bs : list byte) : Z :=
  fold_left (fun acc b => (acc * 256 + Z.of_N (Byte.to_N b))%Z) bs 0%Z.

Definition read_unsigned (width : nat) (bs : list byte) : option (Z * list byte) :=
  match read_bytes width bs with
  | Some (taken, rest) => Some (big_endian taken, rest)
  | None => None
  end.

Definition twos_complement (bits : Z) (u : Z) : Z :=
  (if u <? 2 ^ (bits - 1) then u else u - 2 ^ bits)%Z.

(** The binary64 number with the given 64 bits. *)
Definition real_of_bits (b : Z) : real :=
  let sign := Z.testbit b 63 in
  let e := Z.land (Z.shiftr b 52) 2047 in
  let m := Z.land b (2 ^ 52 - 1) in
  if (e =? 2047)%Z then (if (m =? 0)%Z then S754_infinity sign else S754_nan)
  else if (e =? 0)%Z then
    match m with
    | Zpos p => S754_finite sign p (-1074)
    | _ => S754_zero sign
    end
  else
    match (m + 2 ^ 52)%Z with
    | Zpos p => S754_finite sign p (e - 1075)
    | _ => S754_nan
    end.

Definition protocol_of_byte (b : byte) : protocol :=
  match Byte.to_N b with
  | 1%N => proto_tcp
  | 2%N => proto_udp
  | 3%N => proto_icmp
  | _ => proto_unknown
  end.

(** The payload of a scalar with tag [tag]; [None] for truncated input and
    for a tag that is not a scalar's. *)
Definition read_scalar (tag : byte) (bs : list byte) : option (variant_data * list byte) :=
  match tag with
  | x00 => Some (v_none, bs)
  | x01 => '(u, rest) ← read_unsigned 1 bs; Some (v_boolean (negb (u =? 0)%Z), rest)
  | x02 => '(u, rest) ← read_unsigned 8 bs; Some (v_count u, rest)
  | x03 => '(u, rest) ← read_unsigned 8 bs; Some (v_integer (twos_complement 64 u), rest)
  | x04 => '(u, rest) ← read_unsigned 8 bs; Some (v_real (real_of_bits u), rest)
  | x05 => '(n, bs1) ← varint bs; '(raw, rest) ← read_counted n bs1;
           Some (v_string (string_of_list_byte raw), rest)
  | x06 => '(_, bs1) ← read_unsigned 1 bs; '(a, rest) ← read_unsigned 16 bs1;
           Some (v_address a, rest)
  | x07 => '(_, bs1) ← read_unsigned 1 bs; '(a, bs2) ← read_unsigned 16 bs1;
           '(len, rest) ← read_unsigned 1 bs2;
           Some (v_subnet {| network := a; prefix_length := len |}, rest)
  | x08 => '(num, bs1) ← read_unsigned 2 bs; '(raw, rest) ← read_bytes 1 bs1;
           Some (v_port {| number := num;
                           proto := protocol_of_byte (List.hd x00 raw) |}, rest)
  | x09 => '(u, rest) ← read_unsigned 8 bs; Some (v_timestamp (twos_complement 64 u), rest)
  | x0a => '(u, rest) ← read_unsigned 8 bs; Some (v_timespan (twos_complement 64 u), rest)
  | x0b => '(n, bs1) ← varint bs; '(raw, rest) ← read_counted n bs1;
           Some (v_enum_value (string_of_list_byte raw), rest)
  | _ => None
  end.

(** Whether the container a nested handler has filled holds exactly the
    [n] elements (entries) that were announced: fewer mean a duplicate. *)
Definition complete (n : N) (h : decoder_handler) : bool :=
  match h with
  | decoder_handler_set result => (N.of_nat (length result) =? n)%N
  | decoder_handler_table result key =>
      (N.of_nat (length result) =? n)%N
      && match key with None => true | Some _ => false end
  | _ => true
  end.

(** One value ([decode_value]) and [n] values in a row ([decode_values])
    into the handler [h].  The fuel bounds the number of nested calls; every
    value takes at least one byte, so twice the length of the input is
    enough. *)
Fixpoint decode_value (fuel : nat) (h : decoder_handler) (bs : list byte) : decoding :=
  match fuel, bs with
  | S fuel', tag :: bs1 =>
      match tag with
      | x0c =>
          match varint bs1 with
          | Some (n, bs2) =>
              let '(ok, (h2, bs3)) := decode_values fuel' n (begin_set h) bs2 in
              if ok && complete n h2 then succeeded (end_set h h2) bs3 else failed h bs3
          | None => failed h bs1
          end
      | x0d =>
          match varint bs1 with
          | Some (n, bs2) =>
              let '(ok, (h2, bs3)) := decode_values fuel' (2 * n) (begin_table h) bs2 in
              if ok && complete n h2 then succeeded (end_table h h2) bs3 else failed h bs3
          | None => failed h bs1
          end
      | x0e =>
          match varint bs1 with
          | Some (n, bs2) =>
              let '(ok, (h2, bs3)) := decode_values fuel' n (begin_list h) bs2 in
              if ok then succeeded (end_list h h2) bs3 else failed h bs3
          | None => failed h bs1
          end
      | _ =>
          match read_scalar tag bs1 with
          | Some (item, rest) => succeeded (value h item) rest
          | None => failed h bs1
          end
      end
  | _, _ => failed h bs
  end
with decode_values (fuel : nat) (n : N) (h : decoder_handler) (bs : list byte) : decoding :=
  if (n =? 0)%N then succeeded h bs
  else
    match fuel with
    | S fuel' =>
        let '(ok, (h', bs')) := decode_value fuel' h bs in
        if ok then decode_values fuel' (N.pred n) h' bs' else failed h' bs'
    | O => failed h bs
    end.

(** The decoder on the bytes from [begin] up to [end_] of the memory. *)
Definition decode (mem : memory) (begin end_ : nat) (h : decoder_handler)
    : bool * nat * decoder_handler :=
  let input := firstn (end_ - begin) (skipn begin mem) in
  let '(ok, (h', rest)) := decode_value (2 * length input + 2) h input in
  (ok, end_ - length rest, h').

(** The encoding of a quiet NaN: the tag of [real] and the eight bytes of
    the number. *)
Definition nan_bytes : memory := [x04; x7f; xf8; x00; x00; x00; x00; x00; x00].

End Bin.

End Value.

(** ** Topics and filters *)

Module Filter.

(** Modelled from the spec: [broker/topic.hh] and [broker/filter_type.hh]
    are not part of the sources at hand.  A topic is a [/]-separated string
    and a filter a sequence of topics.  A topic [t] is covered by a filter
    iff some entry [p] is a prefix of [t] on a [/]-boundary: [t == p] or [t]
    begins with [p + "/"].  A canonical filter is sorted and none of its
    entries is a prefix of another.  Insertion leaves the filter unchanged
    when the new topic is covered by an entry; otherwise the topic is
    inserted and the entries it covers are removed.  Removal deletes the
    exact entry.  Merging is union with canonicalization. *)

Definition topic := string.
Definition filter_type := list topic.

(** [t] begins with [p]. *)
Fixpoint starts_with (p t : string) : bool :=
  match p, t with
  | EmptyString, _ => true
  | String a p', String b t' => Ascii.eqb a b && starts_with p' t'
  | String _ _, EmptyString => false
  end.

Definition prefix_of (p t : topic) : bool :=
  String.eqb t p || starts_with (String.append p "/") t.

Definition covers (F : filter_type) (t : topic) : bool :=
  existsb (fun p => prefix_of p t) F.

Fixpoint sorted_insert (t : topic) (F : filter_type) : filter_type :=
  match F with
  | [] => [t]
  | p :: F' => if Value.string_less p t then p :: sorted_insert t F' else t :: F
  end.

Definition filter_insert (t : topic) (F : filter_type) : filter_type :=
  if covers F t then F
  else sorted_insert t (List.filter (fun p => negb (prefix_of t p)) F).

Definition filter_remove (t : topic) (F : filter_type) : filter_type :=
  List.filter (fun p => negb (String.eqb p t)) F.

Definition filter_merge (F G : filter_type) : filter_type :=
  fold_left (fun acc t => filter_insert t acc) G F.

(** The canonical union of several filters. *)
Definition canonical_union (Fs : list filter_type) : filter_type :=
  fold_left filter_merge Fs [].

(** No entry occurs twice and no entry is covered by another one. *)
Definition subsumption_free (F : filter_type) : Prop :=
  List.NoDup F /\ forall p q, In p F -> In q F -> p <> q -> prefix_of p q = false.

End Filter.

(** ** The routing table and dispatch *)

Module Routing.

Import Filter.

(** Modelled from the spec: the endpoint and its core ([broker/endpoint.hh],
    [broker/internal/core_actor.hh]) are not part of the sources at hand;
    the integration test drives them.  An endpoint has its local
    subscribers, each a filter with its queue, and for every peer the filter
    last received from it.  Queues are taken without a bound: a full queue
    makes the producer wait and loses nothing.

    [dispatch] enqueues the message on every local subscriber whose filter
    covers the topic and forwards it to every peer whose filter covers the
    topic and that is not the source.

    Filters travel hop by hop: an endpoint announces to a peer the canonical
    union of its local filters and of the filters it holds for its other
    peers (in the integration test earth, whose only peer mercury has no
    subscriber, holds venus's topic for mercury). *)

Abbreviation endpoint_id := string.
Definition message : Type := topic * Value.data.

Inductive source := local | from_peer (p : endpoint_id).

Record endpoint := {
  local_subscribers : list (filter_type * list message);
  peers : gmap endpoint_id filter_type
}.

Definition fresh_endpoint : endpoint :=
  {| local_subscribers := []; peers := ∅ |}.

Definition aggregate_local_filter (ep : endpoint) : filter_type :=
  canonical_union (map fst (local_subscribers ep)).

(** [endpoint::peer_subscriptions]: the union of the inbound peer filters. *)
Definition peer_subscriptions (ep : endpoint) : filter_type :=
  canonical_union (map snd (map_to_list (peers ep))).

(** What the local subscribers of an endpoint have received, queue by
    queue. *)
Definition received (ep : endpoint) : list (list message) :=
  map snd (local_subscribers ep).

Definition add_local (F : filter_type) (ep : endpoint) : endpoint :=
  {| local_subscribers := local_subscribers ep ++ [(F, [])]; peers := peers ep |}.

Definition set_peer_filter (p : endpoint_id) (F : filter_type) (ep : endpoint) : endpoint :=
  {| local_subscribers := local_subscribers ep; peers := <[p := F]> (peers ep) |}.

Definition remove_peer (p : endpoint_id) (ep : endpoint) : endpoint :=
  {| local_subscribers := local_subscribers ep; peers := delete p (peers ep) |}.

Definition enqueue (msg : message) (sub : filter_type * list message)
    : filter_type * list message :=
  if covers (fst sub) (fst msg) then (fst sub, snd sub ++ [msg]) else sub.

Definition deliver_local (msg : message) (ep : endpoint) : endpoint :=
  {| local_subscribers := map (enqueue msg) (local_subscribers ep); peers := peers ep |}.

Definition is_source (src : source) (p : endpoint_id) : bool :=
  match src with
  | local => false
  | from_peer q => String.eqb p q
  end.

Definition forward_targets (msg : message) (src : source) (ep : endpoint)
    : list endpoint_id :=
  map fst (List.filter (fun entry => covers (snd entry) (fst msg)
                                     && negb (is_source src (fst entry)))
                       (map_to_list (peers ep))).

(** [dispatch(msg, source)] on one endpoint: the endpoint afterwards and the
    peers the message is forwarded to. *)
Definition dispatch (msg : message) (src : source) (ep : endpoint)
    : endpoint * list endpoint_id :=
  (deliver_local msg ep, forward_targets msg src ep).

(** The endpoints of a mesh, by their ids. *)
Abbreviation network := (gmap endpoint_id endpoint).

(** A message on its way through the mesh: it is dispatched at [at_] and
    then at every peer it is forwarded to.  Topologies are loop-free, so
    [hops] bounds the length of a path. *)
Fixpoint route (hops : nat) (net : network) (at_ : endpoint_id) (src : source)
    (msg : message) : network :=
  match hops with
  | O => net
  | S hops' =>
      match net !! at_ with
      | None => net
      | Some ep =>
          let '(ep', targets) := dispatch msg src ep in
          fold_left (fun acc p => route hops' acc p (from_peer at_) msg)
                    targets (<[at_ := ep']> net)
      end
  end.

(** [endpoint::publish] on endpoint [e]. *)
Definition publish (net : network) (e : endpoint_id) (msg : message) : network :=
  route (size net) net e local msg.

Definition publish_all (net : network) (e : endpoint_id) (msgs : list message) : network :=
  fold_left (fun acc msg => publish acc e msg) msgs net.

(** The filter that [ep] announces to its peer [p]. *)
Definition outbound_filter (ep : endpoint) (p : endpoint_id) : filter_type :=
  canonical_union
    (aggregate_local_filter ep
     :: map snd (List.filter (fun entry => negb (String.eqb (fst entry) p))
                             (map_to_list (peers ep)))).

(** [e] announces its filters to its peers except the one the change came
    from; each peer stores what it receives and announces in turn. *)
Fixpoint announce (hops : nat) (net : network) (e : endpoint_id) (src : source)
    : network :=
  match hops with
  | O => net
  | S hops' =>
      match net !! e with
      | None => net
      | Some ep =>
          fold_left
            (fun acc p =>
               match acc !! p with
               | None => acc
               | Some remote =>
                   announce hops'
                     (<[p := set_peer_filter e (outbound_filter ep p) remote]> acc)
                     p (from_peer e)
               end)
            (List.filter (fun p => negb (is_source src p))
                         (map fst (map_to_list (peers ep))))
            net
      end
  end.

(** [endpoint::subscribe] on endpoint [e]. *)
Definition subscribe (net : network) (e : endpoint_id) (F : filter_type) : network :=
  match net !! e with
  | None => net
  | Some ep => announce (size net) (<[e := add_local F ep]> net) e local
  end.

(** A session between [a] and [b] after the handshake: both hold a record
    of the other and exchange their filters. *)
Definition peer (net : network) (a b : endpoint_id) : network :=
  match net !! a, net !! b with
  | Some epa, Some epb =>
      let net' := <[b := set_peer_filter a [] epb]> (<[a := set_peer_filter b [] epa]> net) in
      announce (size net) (announce (size net) net' a local) b local
  | _, _ => net
  end.

(** Messages published one after the other, each at its own endpoint. *)
Definition publish_trace (net : network) (trace : list (endpoint_id * message))
    : network :=
  fold_left (fun acc sm => publish acc (fst sm) (snd sm)) trace net.

(** Local delivery of a sequence of messages. *)
Definition deliver_all (msgs : list message) (ep : endpoint) : endpoint :=
  fold_left (fun acc msg => deliver_local msg acc) msgs ep.

(** *** The triangle of the integration test *)

Definition mercury : endpoint_id := "mercury".
Definition venus : endpoint_id := "venus".
Definition earth : endpoint_id := "earth".

(** Venus and earth peer with mercury; venus subscribes to "zeek/events"
    and earth to "zeek/events/errors". *)
Definition triangle : network :=
  let net0 : network :=
    <[mercury := fresh_endpoint]> (<[venus := fresh_endpoint]>
      (<[earth := fresh_endpoint]> ∅)) in
  let net1 := peer net0 venus mercury in
  let net2 := peer net1 earth mercury in
  let net3 := subscribe net2 venus ["zeek/events"%string] in
  subscribe net3 earth ["zeek/events/errors"%string].

Definition published : list message :=
  [ ("zeek/events/errors"%string, Value.d_string "oops");
    ("zeek/events/errors"%string, Value.d_string "sorry!");
    ("zeek/events/data"%string, Value.d_integer 123%Z);
    ("zeek/events/data"%string, Value.d_integer 456%Z) ].

(** The record mercury holds in the triangle: venus's and earth's filters. *)
Definition two_peers (subs : list (filter_type * list message)) : endpoint :=
  {| local_subscribers := subs;
     peers := <[venus := ["zeek/events"%string]]>
                (<[earth := ["zeek/events/errors"%string]]> ∅) |}.

(** *** Commands, paths and what the spec expects *)

(** Modelled from the spec: [subscriber::add_topic] and
    [subscriber::remove_topic] of [src/subscriber.cc] hand the topic to the
    core through [update_filter], with [add] set or not; what the core does
    with it is not part of the sources at hand.  By the spec it changes the
    filter of that subscriber, the [i]-th of its endpoint, by insertion or
    removal, keeps its queue, and announces. *)
Definition update_local (i : nat) (what : topic) (add : bool) (ep : endpoint) : endpoint :=
  {| local_subscribers :=
       alter (fun sub => (if add then filter_insert what (fst sub)
                          else filter_remove what (fst sub), snd sub))
             i (local_subscribers ep);
     peers := peers ep |}.

Definition update_filter (net : network) (e : endpoint_id) (i : nat) (what : topic)
    (add : bool) : network :=
  match net !! e with
  | None => net
  | Some ep => announce (size net) (<[e := update_local i what add ep]> net) e local
  end.

Definition add_topic (net : network) (e : endpoint_id) (i : nat) (x : topic) : network :=
  update_filter net e i x true.

Definition remove_topic (net : network) (e : endpoint_id) (i : nat) (x : topic) : network :=
  update_filter net e i x false.

(** What the users of a mesh do, one call after the other. *)
Inductive command :=
| do_peer (a b : endpoint_id)
| do_subscribe (e : endpoint_id) (F : filter_type)
| do_add_topic (e : endpoint_id) (i : nat) (x : topic)
| do_remove_topic (e : endpoint_id) (i : nat) (x : topic)
| do_publish (e : endpoint_id) (msg : message).

Definition execute (net : network) (c : command) : network :=
  match c with
  | do_peer a b => peer net a b
  | do_subscribe e F => subscribe net e F
  | do_add_topic e i x => add_topic net e i x
  | do_remove_topic e i x => remove_topic net e i x
  | do_publish e msg => publish net e msg
  end.

Definition run (net : network) (cmds : list command) : network :=
  fold_left execute cmds net.

(** Endpoints that have just been created: no subscriber, no session. *)
Definition isolated (ids : list endpoint_id) : network :=
  fold_right (fun e net => <[e := fresh_endpoint]> net) ∅ ids.

(** The sessions of an endpoint other than the one to [src]: where
    [dispatch] may forward to, and where [announce] announces to. *)
Definition sessions (src : source) (ep : endpoint) : list endpoint_id :=
  List.filter (fun p => negb (is_source src p)) (map fst (map_to_list (peers ep))).

Definition join (R Rs : option (list endpoint_id)) : option (list endpoint_id) :=
  match R, Rs with
  | Some R, Some Rs => Some (R ++ Rs)
  | _, _ => None
  end.

(** The endpoints on the paths that start at [at_], do not begin with
    the session to [src] and never go back through the session they came
    by, every path followed to its end: [at_] itself, then for each session
    what is reached through it.  These are the paths of a message that is
    dispatched at [at_] and forwarded everywhere, and of an announcement.
    An endpoint that two paths lead to occurs twice.  [None] when a path is
    longer than [hops] or a session leads to no endpoint. *)
Fixpoint reach (hops : nat) (net : network) (at_ : endpoint_id) (src : source)
    : option (list endpoint_id) :=
  match hops with
  | O => None
  | S hops' =>
      match net !! at_ with
      | None => None
      | Some ep =>
          join (Some [at_])
               (fold_right (fun p Rs => join (reach hops' net p (from_peer at_)) Rs)
                           (Some []) (sessions src ep))
      end
  end.

Fixpoint distinct (l : list endpoint_id) : bool :=
  match l with
  | [] => true
  | x :: l' => negb (existsb (String.eqb x) l') && distinct l'
  end.

(** The topology is loop-free: from no endpoint do two paths lead to the
    same endpoint (back to the endpoint itself included).  A path that
    passes no endpoint twice has no more endpoints than the mesh, so that
    [size net] hops lose nothing ([RoutingFacts.reach_size]). *)
Definition loop_free (net : network) : bool :=
  forallb (fun e => match reach (size net) net e local with
                    | Some R => distinct R
                    | None => false
                    end)
          (map fst (map_to_list net)).

(** Every state that the commands lead through is loop-free. *)
Fixpoint admissible (net : network) (cmds : list command) : bool :=
  loop_free net
  && match cmds with
     | [] => true
     | c :: cmds' => admissible (execute net c) cmds'
     end.

(** From every endpoint the sessions lead to every endpoint. *)
Definition connected (net : network) : bool :=
  forallb (fun e => match reach (size net) net e local with
                    | Some R => forallb (fun z => existsb (String.eqb z) R)
                                        (map fst (map_to_list net))
                    | None => false
                    end)
          (map fst (map_to_list net)).

(** Who has a session with whom, the filters left out. *)
Definition topology (net : network) : gmap endpoint_id (gmap endpoint_id unit) :=
  (fun ep => (fun _ => tt) <$> peers ep) <$> net.

Definition linked (net : network) (x y : endpoint_id) : Prop :=
  exists ep, net !! x = Some ep /\ is_Some (peers ep !! y).

(** A session has two ends. *)
Definition symmetric (net : network) : Prop :=
  forall x y, linked net x y -> linked net y x.

(** What [y] holds for its peer [x] covers the topics that [x] would
    announce to [y] now. *)
Definition agree (net : network) (x y : endpoint_id) : Prop :=
  forall ep_x ep_y F,
    net !! x = Some ep_x -> net !! y = Some ep_y -> peers ep_y !! x = Some F ->
    forall t, covers F t = true <-> covers (outbound_filter ep_x y) t = true.

(** All announcements have arrived. *)
Definition settled (net : network) : Prop := forall x y, agree net x y.

(** The endpoints without their queues. *)
Definition routing_table (ep : endpoint) : list filter_type * gmap endpoint_id filter_type :=
  (map fst (local_subscribers ep), peers ep).

(** The subscribers of every endpoint, each with its filter and its queue. *)
Definition mailboxes (net : network) : gmap endpoint_id (list (filter_type * list message)) :=
  local_subscribers <$> net.

(** Modelled from the spec: a subscriber with filter [F] receives exactly
    the published messages whose topic [F] covers at publish time, in
    publish order.  Told by the subscribers alone, for a mesh that sessions
    connect, the sessions and the routing left out: a new subscriber has
    received nothing; a change of a filter leaves the queues as they are; a
    message published at an endpoint goes to the end of every queue, on
    every endpoint, whose filter covers its topic when it is published. *)
Definition expected (boxes : gmap endpoint_id (list (filter_type * list message)))
    (c : command) : gmap endpoint_id (list (filter_type * list message)) :=
  match c with
  | do_peer _ _ => boxes
  | do_subscribe e F => alter (fun subs => subs ++ [(F, [])]) e boxes
  | do_add_topic e i x =>
      alter (alter (fun sub => (filter_insert x (fst sub), snd sub)) i) e boxes
  | do_remove_topic e i x =>
      alter (alter (fun sub => (filter_remove x (fst sub), snd sub)) i) e boxes
  | do_publish e msg =>
      match boxes !! e with
      | None => boxes
      | Some _ => map (enqueue msg) <$> boxes
      end
  end.

(** A call of [peer] that closes a loop: its two endpoints have no session
    with each other yet and sessions connect them all the same (or they are
    one endpoint). *)
Definition closes_loop (net : network) (c : command) : Prop :=
  match c with
  | do_peer a b =>
      is_Some (net !! a) /\ is_Some (net !! b)
      /\ ~ linked net a b /\ rtc (linked net) a b
  | _ => False
  end.

(** The commands that build the triangle of the integration test. *)
Definition triangle_setup : list command :=
  [ do_peer venus mercury; do_peer earth mercury;
    do_subscribe venus ["zeek/events"%string];
    do_subscribe earth ["zeek/events/errors"%string] ].

(** A chain of four endpoints with a subscriber at its far end, and what
    happens on it: the subscriber changes its filter between the
    messages. *)
Definition chain_setup : list command :=
  [ do_peer "a" "b"; do_peer "c" "d"; do_subscribe "d" ["x"%string]; do_peer "b" "c" ]%string.

Definition chain_run : list command :=
  [ do_publish "a" ("x/1", Value.d_count 1%Z);
    do_publish "d" ("y", Value.d_count 2%Z);
    do_add_topic "d" 0 "y";
    do_publish "b" ("y", Value.d_count 3%Z);
    do_remove_topic "d" 0 "x";
    do_subscribe "b" ["x"];
    do_publish "c" ("x/1", Value.d_count 4%Z);
    do_publish "a" ("y/z", Value.d_count 5%Z) ]%string.

End Routing.

(** ** Peering and the status bus *)

Module Peering.

(** Modelled from the spec: the peer sessions and the status bus of the
    endpoint ([broker/endpoint.hh], [broker/internal/core_actor.hh],
    [broker/status.hh], [broker/error.hh]) are not part of the sources at
    hand; the integration test drives them.  A peer record has the network
    address the session was opened to (none for an accepted session) and a
    status; status transitions are the only source of [peer_*] events.

    - Peering connects to an address.  When nobody listens there the attempt
      fails with the error [peer_unavailable]; with a retry interval [r > 0]
      the session is then [reconnecting] and tries again when the interval
      has passed, without one it is over.  A successful handshake makes the
      session [peered] on both sides and emits [peer_added] on both.
      Connecting to oneself is closed with [peer_invalid].
    - Unpeering sends GOODBYE, closes the transport and emits
      [peer_removed] locally; the remote side emits [peer_lost].  Unpeering
      from an unknown address emits the error [peer_invalid] locally and
      leaves no peer record.

    An endpoint is known by its host name; every event of an endpoint is
    appended to its bus. *)

Abbreviation endpoint_id := string.
Definition network_address : Type := endpoint_id * Z.

Inductive peer_status :=
| initialized | connecting | reconnecting | peered | disconnected | unknown.

Inductive sc :=
| peer_added | peer_removed | peer_lost | endpoint_discovered | endpoint_unreachable.

Inductive ec :=
| peer_invalid | peer_unavailable | peer_incompatible | peer_timeout
| invalid_data | type_clash | backend_failure | no_such_key.

Inductive event :=
| status_event (code : sc)
| error_event (code : ec).

Record peer_record := {
  network : option network_address;
  status : peer_status;
  retry : nat
}.

Record endpoint := {
  listening : option Z;
  peers : gmap endpoint_id peer_record;
  bus : list event
}.

Abbreviation mesh := (gmap endpoint_id endpoint).

Definition fresh_endpoint : endpoint :=
  {| listening := None; peers := ∅; bus := [] |}.

Definition emit (ev : event) (ep : endpoint) : endpoint :=
  {| listening := listening ep; peers := peers ep; bus := bus ep ++ [ev] |}.

Definition set_record (p : endpoint_id) (r : peer_record) (ep : endpoint) : endpoint :=
  {| listening := listening ep; peers := <[p := r]> (peers ep); bus := bus ep |}.

Definition remove_record (p : endpoint_id) (ep : endpoint) : endpoint :=
  {| listening := listening ep; peers := delete p (peers ep); bus := bus ep |}.

(** The records of a session that waits for its next attempt, of a session
    that was opened to an address, and of an accepted session. *)
Definition reconnecting_to (addr : network_address) (r : nat) : peer_record :=
  {| network := Some addr; status := reconnecting; retry := r |}.

Definition peered_to (addr : network_address) (r : nat) : peer_record :=
  {| network := Some addr; status := peered; retry := r |}.

Definition accepted : peer_record :=
  {| network := None; status := peered; retry := 0 |}.

(** [endpoint::listen]. *)
Definition listen (net : mesh) (e : endpoint_id) (port : Z) : mesh :=
  match net !! e with
  | None => net
  | Some ep =>
      <[e := {| listening := Some port; peers := peers ep; bus := bus ep |}]> net
  end.

(** Somebody listens at the address. *)
Definition accepts (net : mesh) (addr : network_address) : bool :=
  match net !! fst addr with
  | None => false
  | Some ep => bool_decide (listening ep = Some (snd addr))
  end.

(** One attempt of [v] to connect to [addr], with retry interval [r]. *)
Definition attempt (net : mesh) (v : endpoint_id) (addr : network_address) (r : nat)
    : mesh :=
  match net !! v with
  | None => net
  | Some epv =>
      let failed :=
        if r =? 0 then
          <[v := emit (error_event peer_unavailable) (remove_record (fst addr) epv)]> net
        else
          <[v := emit (error_event peer_unavailable)
                      (set_record (fst addr) (reconnecting_to addr r) epv)]> net in
      if String.eqb v (fst addr) then
        <[v := emit (error_event peer_invalid) (remove_record (fst addr) epv)]> net
      else
        match net !! fst addr with
        | Some epm =>
            if accepts net addr then
              <[fst addr := emit (status_event peer_added) (set_record v accepted epm)]>
                (<[v := emit (status_event peer_added)
                             (set_record (fst addr) (peered_to addr r) epv)]> net)
            else failed
        | None => failed
        end
  end.

(** [endpoint::peer] and [endpoint::peer_nosync]: the first attempt is made
    at once, unless a session to the host exists already. *)
Definition peer (net : mesh) (v : endpoint_id) (addr : network_address) (r : nat) : mesh :=
  match net !! v with
  | None => net
  | Some epv =>
      match peers epv !! fst addr with
      | Some _ => net
      | None => attempt net v addr r
      end
  end.

(** The retry interval of the session of [v] to [host] has passed. *)
Definition retry_timeout (net : mesh) (v host : endpoint_id) : mesh :=
  match net !! v with
  | None => net
  | Some epv =>
      match peers epv !! host with
      | Some {| network := Some addr; status := reconnecting; retry := r |} =>
          attempt net v addr r
      | _ => net
      end
  end.

(** [endpoint::unpeer]. *)
Definition unpeer (net : mesh) (v : endpoint_id) (addr : network_address) : mesh :=
  match net !! v with
  | None => net
  | Some epv =>
      match peers epv !! fst addr with
      | Some record =>
          if bool_decide (network record = Some addr) then
            let net' :=
              <[v := emit (status_event peer_removed) (remove_record (fst addr) epv)]> net in
            match status record, net' !! fst addr with
            | peered, Some epm =>
                match peers epm !! v with
                | Some _ =>
                    <[fst addr := emit (status_event peer_lost) (remove_record v epm)]> net'
                | None => net'
                end
            | _, _ => net'
            end
          else <[v := emit (error_event peer_invalid) epv]> net
      | None => <[v := emit (error_event peer_invalid) epv]> net
      end
  end.

(** What happens in a mesh, one step at a time. *)
Inductive action :=
| do_listen (e : endpoint_id) (port : Z)
| do_peer (v : endpoint_id) (addr : network_address) (r : nat)
| do_retry (v host : endpoint_id)
| do_unpeer (v : endpoint_id) (addr : network_address).

Definition step (net : mesh) (a : action) : mesh :=
  match a with
  | do_listen e port => listen net e port
  | do_peer v addr r => peer net v addr r
  | do_retry v host => retry_timeout net v host
  | do_unpeer v addr => unpeer net v addr
  end.

Definition run (net : mesh) (actions : list action) : mesh :=
  fold_left step actions net.

(** The events an endpoint has seen since an earlier state of the mesh (a
    status subscriber polls what has arrived since its last poll). *)
Definition events_of (net : mesh) (e : endpoint_id) : list event :=
  match net !! e with
  | Some ep => bus ep
  | None => []
  end.

Definition events_since (before after : mesh) (e : endpoint_id) : list event :=
  skipn (length (events_of before e)) (events_of after e).

(** *** The triangle of the integration test *)

Definition mercury : endpoint_id := "mercury".
Definition venus : endpoint_id := "venus".
Definition earth : endpoint_id := "earth".

Definition three_endpoints : mesh :=
  <[mercury := fresh_endpoint]> (<[venus := fresh_endpoint]>
    (<[earth := fresh_endpoint]> ∅)).

(** Mercury listens on port 4040; venus and earth peer with it. *)
Definition connected : mesh :=
  run three_endpoints
      [ do_listen mercury 4040;
        do_peer venus (mercury, 4040%Z) 0;
        do_peer earth (mercury, 4040%Z) 0 ].

End Peering.

(** ** The event log of the integration test ([libbroker/broker/integration.test.cc]) *)

Module EventLog.

Import Peering.

(** [struct code]: a status code or an error code; two codes are equal
    when they hold the same alternative with the same value.  A [code] is
    made from an event by taking the code of the error, or else of the
    status. *)
Inductive code :=
| code_sc (x : sc)
| code_ec (x : ec).

Definition code_of (x : event) : code :=
  match x with
  | error_event c => code_ec c
  | status_event c => code_sc c
  end.

Definition sc_index (x : sc) : nat :=
  match x with
  | peer_added => 0 | peer_removed => 1 | peer_lost => 2
  | endpoint_discovered => 3 | endpoint_unreachable => 4
  end.

Definition ec_index (x : ec) : nat :=
  match x with
  | peer_invalid => 0 | peer_unavailable => 1 | peer_incompatible => 2
  | peer_timeout => 3 | invalid_data => 4 | type_clash => 5
  | backend_failure => 6 | no_such_key => 7
  end.

Definition code_eq (x y : code) : bool :=
  match x, y with
  | code_sc a, code_sc b => sc_index a =? sc_index b
  | code_ec a, code_ec b => ec_index a =? ec_index b
  | _, _ => false
  end.

(** The filter of [event_log]: of the statuses only the [peer_*] ones
    pass, and every error does. *)
Definition predicate (x : event) : bool :=
  match x with
  | status_event c =>
      match c with
      | peer_added | peer_removed | peer_lost => true
      | _ => false
      end
  | error_event _ => true
  end.

(** [event_log(xs, make_unique)]. *)
Definition event_log (xs : list event) (make_unique : bool) : list code :=
  let ys := map code_of (List.filter predicate xs) in
  if make_unique then Std.unique code_eq ys else ys.

End EventLog.

(** ** The clocks of the integration test ([libbroker/broker/integration.test.cc]) *)

Module TestClock.

(** The clock of the scheduler of a peer ([caf::scheduler::test_coordinator],
    a library type): its current time and the times of its scheduled
    timeouts, in ascending order.  [advance_time] moves the clock and
    triggers the timeouts that have expired. *)
Record test_clock := {
  now : Z;
  schedule : list Z
}.

Fixpoint trigger_expired_timeouts (current_time : Z) (schedule : list Z) : list Z :=
  match schedule with
  | [] => []
  | t :: rest =>
      if (t <=? current_time)%Z then trigger_expired_timeouts current_time rest
      else schedule
  end.

Definition advance_time (dt : Z) (tac : test_clock) : test_clock :=
  {| now := now tac + dt;
     schedule := trigger_expired_timeouts (now tac + dt) (schedule tac) |}.

(** The time that is left until the first timeout of every peer that has
    one. *)
Definition pending (peers : list test_clock) : list Z :=
  flat_map (fun tac => match schedule tac with
                       | [] => []
                       | first :: _ => [(first - now tac)%Z]
                       end) peers.

(** [try_trigger_timeout] of [global_fixture::exec_loop]: whether a
    timeout was there, and the clocks afterwards. *)
Definition try_trigger_timeout (peers : list test_clock) : bool * list test_clock :=
  match Std.min_element (pending peers) with
  | Some dt => (true, map (advance_time dt) peers)
  | None => (false, peers)
  end.

End TestClock.

(** ** The subscriber queue ([src/subscriber.cc]) *)

Module SubscriberQueue.

Definition data_message := Routing.message.

(** Modelled from the spec: [broker/detail/flare.hh] is not part of the
    sources at hand.  The wake descriptor is behind an armed/extinguished
    contract: [fire] signals it once more, [extinguish] takes all signals
    back, and it is armed (readable) while a signal is pending. *)
Definition flare := nat.
Definition fire (fx : flare) : flare := S fx.
Definition flare_extinguish (fx : flare) : flare := 0.
Definition armed (fx : flare) : bool := negb (fx =? 0).

(** The buffer between the producer and the consumer
    ([caf::async::bounded_buffer], a library type): the items in flight and
    whether the producer has closed it.  The buffer has its own lock; every
    operation on it is one step. *)
Record bounded_buffer := {
  items : list data_message;
  closed : bool
}.

Definition available (b : bounded_buffer) : nat := length (items b).

(** The members of [subscriber_queue] that [mtx_] guards, and whether
    [buf_] still points to the buffer. *)
Record subscriber_queue := {
  buf_ : bool;
  ready_ : bool;
  fx_ : flare
}.

(** [subscriber_queue::on_producer_wakeup], under the lock. *)
Definition on_producer_wakeup (q : subscriber_queue) : subscriber_queue :=
  if negb (ready_ q) then {| buf_ := buf_ q; ready_ := true; fx_ := fire (fx_ q) |}
  else q.

(** [subscriber_queue::extinguish], under the lock. *)
Definition extinguish (q : subscriber_queue) : subscriber_queue :=
  if ready_ q then {| buf_ := buf_ q; ready_ := false; fx_ := flare_extinguish (fx_ q) |}
  else q.

(** The locked block at the end of [subscriber_queue::pull]: the flare is
    extinguished when the queue is ready and the buffer is still empty. *)
Definition pull_locked (q : subscriber_queue) (b : bounded_buffer) : subscriber_queue :=
  if ready_ q && (available b =? 0)
  then {| buf_ := buf_ q; ready_ := false; fx_ := flare_extinguish (fx_ q) |}
  else q.

(** Where the producer and the consumer are in their code.  The producer
    has pushed into an empty buffer (or closed an empty buffer) and has yet
    to call [on_producer_wakeup]; the consumer is between the statements of
    [pull]. *)
Inductive producer_state := producer_idle | producer_waking.
Inductive consumer_state := consumer_idle | consumer_pulled | consumer_locking.

Record system := {
  shared : bounded_buffer;
  queue : subscriber_queue;
  dst_buf : list data_message;
  producer : producer_state;
  consumer : consumer_state
}.

Definition initial : system :=
  {| shared := {| items := []; closed := false |};
     queue := {| buf_ := true; ready_ := false; fx_ := 0 |};
     dst_buf := [];
     producer := producer_idle;
     consumer := consumer_idle |}.

(** The steps of the two threads.  The lock [mtx_] makes each of
    [on_producer_wakeup], [extinguish] and the locked block of [pull] one
    step; the statements of [pull] outside the lock are steps of their own,
    so that the producer can run between them. *)
Inductive action :=
| producer_push (xs : list data_message)
| producer_close
| producer_wakeup
| consumer_pull (num : nat)
| consumer_check
| consumer_lock.

Definition step (s : system) (a : action) : option system :=
  match a with
  | producer_push xs =>
      (* the producer appends to the buffer and has to wake the consumer up
         when the buffer was empty *)
      match producer s, closed (shared s), xs with
      | producer_idle, false, _ :: _ =>
          Some {| shared := {| items := items (shared s) ++ xs; closed := false |};
                  queue := queue s;
                  dst_buf := dst_buf s;
                  producer := if available (shared s) =? 0 then producer_waking
                              else producer_idle;
                  consumer := consumer s |}
      | _, _, _ => None
      end
  | producer_close =>
      match producer s, closed (shared s) with
      | producer_idle, false =>
          Some {| shared := {| items := items (shared s); closed := true |};
                  queue := queue s;
                  dst_buf := dst_buf s;
                  producer := if available (shared s) =? 0 then producer_waking
                              else producer_idle;
                  consumer := consumer s |}
      | _, _ => None
      end
  | producer_wakeup =>
      match producer s with
      | producer_waking =>
          Some {| shared := shared s;
                  queue := on_producer_wakeup (queue s);
                  dst_buf := dst_buf s;
                  producer := producer_idle;
                  consumer := consumer s |}
      | producer_idle => None
      end
  | consumer_pull num =>
      (* [buf_->pull(delay_errors, num, consumer)]: up to [num] items go to
         [dst_buf]; when the buffer is closed and drained the consumer is
         completed ([on_complete] calls [extinguish]), the call returns
         false and [buf_] is reset *)
      match consumer s, buf_ (queue s), num with
      | consumer_locking, _, _ | _, false, _ | _, _, O => None
      | _, true, S _ =>
          let rest := skipn num (items (shared s)) in
          let taken := firstn num (items (shared s)) in
          if closed (shared s) && (length rest =? 0) then
            Some {| shared := {| items := rest; closed := true |};
                    queue := {| buf_ := false;
                                ready_ := ready_ (extinguish (queue s));
                                fx_ := fx_ (extinguish (queue s)) |};
                    dst_buf := dst_buf s ++ taken;
                    producer := producer s;
                    consumer := consumer_idle |}
          else
            Some {| shared := {| items := rest; closed := closed (shared s) |};
                    queue := queue s;
                    dst_buf := dst_buf s ++ taken;
                    producer := producer s;
                    consumer := consumer_pulled |}
      end
  | consumer_check =>
      (* [else if (buf_->available() == 0)] *)
      match consumer s with
      | consumer_pulled =>
          Some {| shared := shared s;
                  queue := queue s;
                  dst_buf := dst_buf s;
                  producer := producer s;
                  consumer := if available (shared s) =? 0 then consumer_locking
                              else consumer_idle |}
      | _ => None
      end
  | consumer_lock =>
      match consumer s with
      | consumer_locking =>
          Some {| shared := shared s;
                  queue := pull_locked (queue s) (shared s);
                  dst_buf := dst_buf s;
                  producer := producer s;
                  consumer := consumer_idle |}
      | _ => None
      end
  end.

Inductive reachable : system -> Prop :=
| reachable_initial : reachable initial
| reachable_step (s s' : system) (a : action) :
    reachable s -> step s a = Some s' -> reachable s'.

Fixpoint run_with (step_of : system -> action -> option system) (s : system)
    (actions : list action) : option system :=
  match actions with
  | [] => Some s
  | a :: actions' =>
      match step_of s a with
      | Some s' => run_with step_of s' actions'
      | None => None
      end
  end.

Definition run (s : system) (actions : list action) : option system :=
  run_with step s actions.

(** [subscriber_queue::pull] when the producer does not run in between.
    Nothing comes back when the assertion [num > 0] fails; a queue whose
    [buf_] is reset does nothing. *)
Definition pull (s : system) (num : nat) : option system :=
  match num with
  | O => None
  | S _ =>
      if buf_ (queue s) then
        match step s (consumer_pull num) with
        | Some s1 =>
            match consumer s1 with
            | consumer_pulled =>
                match step s1 consumer_check with
                | Some s2 =>
                    match consumer s2 with
                    | consumer_locking => step s2 consumer_lock
                    | _ => Some s2
                    end
                | None => None
                end
            | _ => Some s1
            end
        | None => None
        end
      else Some s
  end.

(** The invariant: the flare holds one signal when the queue is ready and
    none otherwise; and items in the buffer do not go unnoticed: the queue
    is ready or the producer is about to wake the consumer up. *)
Definition flare_matches_ready (s : system) : Prop :=
  fx_ (queue s) = if ready_ (queue s) then 1 else 0.

Definition no_lost_wake (s : system) : Prop :=
  0 < available (shared s) ->
  ready_ (queue s) = true \/ producer s = producer_waking.

(** For comparison: the locked block of [pull] without the second look at
    the buffer, and the steps of a queue that uses it. *)
Definition pull_locked_unchecked (q : subscriber_queue) : subscriber_queue :=
  if ready_ q then {| buf_ := buf_ q; ready_ := false; fx_ := flare_extinguish (fx_ q) |}
  else q.

Definition step_unchecked (s : system) (a : action) : option system :=
  match a, consumer s with
  | consumer_lock, consumer_locking =>
      Some {| shared := shared s;
              queue := pull_locked_unchecked (queue s);
              dst_buf := dst_buf s;
              producer := producer s;
              consumer := consumer_idle |}
  | _, _ => step s a
  end.

(** The producer pushes while the consumer, having drained the buffer, is
    on its way to the lock. *)
Definition race (first second : data_message) : list action :=
  [ producer_push [first]; producer_wakeup; consumer_pull 1; consumer_check;
    producer_push [second]; producer_wakeup; consumer_lock ].

(** Where the race ends, with and without the second look. *)
Definition after_race : system :=
  {| shared := {| items := [("b"%string, Value.d_none)]; closed := false |};
     queue := {| buf_ := true; ready_ := true; fx_ := 1 |};
     dst_buf := [("a"%string, Value.d_none)];
     producer := producer_idle;
     consumer := consumer_idle |}.

Definition after_race_unchecked : system :=
  {| shared := {| items := [("b"%string, Value.d_none)]; closed := false |};
     queue := {| buf_ := true; ready_ := false; fx_ := 0 |};
     dst_buf := [("a"%string, Value.d_none)];
     producer := producer_idle;
     consumer := consumer_idle |}.

End SubscriberQueue.

(** ** The calls of [subscriber] ([src/subscriber.cc]) *)

Module Subscriber.

Import SubscriberQueue.

(** Everything the producer has pushed in a run, in the order of the
    pushes. *)
Definition pushed (actions : list action) : list data_message :=
  flat_map (fun a => match a with producer_push xs => xs | _ => [] end) actions.

(** A queue whose [buf_] is reset has left a closed and empty buffer
    behind. *)
Definition drained_when_reset (s : system) : Prop :=
  buf_ (queue s) = false -> closed (shared s) = true /\ items (shared s) = [].

(** The calls of the consumer thread when the producer does not run
    meanwhile.  The vector that receives the items is [dst_buf]: every call
    starts with an empty one and returns it. *)
Definition with_dst_buf (s : system) (buf : list data_message) : system :=
  {| shared := shared s; queue := queue s; dst_buf := buf;
     producer := producer s; consumer := consumer s |}.

(** [subscriber_queue::capacity] and [subscriber_queue::available]: those
    of the buffer (its capacity is a constant of the buffer), and zero once
    [buf_] is reset. *)
Definition capacity (buffer_capacity : nat) (s : system) : nat :=
  if buf_ (queue s) then buffer_capacity else 0.

Definition available (s : system) : nat :=
  if buf_ (queue s) then SubscriberQueue.available (shared s) else 0.



(** [subscriber::poll]. *)
Definition poll (buffer_capacity : nat) (s : system) : option system :=
  let max_size := capacity buffer_capacity s in
  if 0 <? max_size then pull (with_dst_buf s []) max_size
  else Some (with_dst_buf s []).






(** The queue after a [pull] that the producer has not interrupted. *)
Definition after_pull (s : system) (num : nat) : subscriber_queue :=
  if SubscriberQueue.available (shared s) <=? num then
    if closed (shared s) then
      {| buf_ := false; ready_ := ready_ (extinguish (queue s));
         fx_ := fx_ (extinguish (queue s)) |}
    else extinguish (queue s)
  else queue s.

(** The system after a [pull] of [num] items into an empty vector. *)
Definition pulled (s : system) (num : nat) : system :=
  {| shared := {| items := skipn num (items (shared s)); closed := closed (shared s) |};
     queue := after_pull s num;
     dst_buf := firstn num (items (shared s));
     producer := producer s;
     consumer := consumer_idle |}.

End Subscriber.

(** ** The Python binding of Zeek events ([bindings/python/zeek.cpp]) *)

Module ZeekBinding.

Import Value.

(** What a bound function does: it returns a value or raises
    [std::invalid_argument] with a message. *)
Inductive outcome (A : Type) :=
| returned (a : A)
| invalid_argument (what : string).

Arguments returned {A} a.
Arguments invalid_argument {A} what.

Section Event.

(** [broker/zeek.hh] is not part of the sources at hand; what the binding
    uses of it is a parameter here: the message types with [Type::Event]
    among them, [Message::type] on the wrapped data, and [valid], [name],
    [ts] and [args] of an [Event]; so is [broker::convert] from a timestamp
    to a [double].  An event is the data it wraps ([as_data]). *)
Context {message_type : Type} `{EqDecision message_type}.
Variable Event : message_type.
Variable type : data -> message_type.
Variable valid : data -> bool.
Variable name : data -> string.
Variable ts : data -> option timestamp.
Variable args : data -> list data.
Variable convert : timestamp -> real.

(** [Event.valid]. *)
Definition py_valid (ev : data) : outcome bool :=
  let t := type ev in
  if bool_decide (t <> Event) then returned false
  else returned (valid ev).

(** [Event.name]. *)
Definition py_name (ev : data) : outcome string :=
  let t := type ev in
  if bool_decide (t <> Event) then invalid_argument "invalid Event data/type"
  else if negb (valid ev) then invalid_argument "invalid Event data"
  else returned (name ev).

(** [Event.timestamp]. *)
Definition py_timestamp (ev : data) : outcome (option real) :=
  let t := type ev in
  if bool_decide (t <> Event) then invalid_argument "invalid Event data/type"
  else if negb (valid ev) then invalid_argument "invalid Event data"
  else
    match ts ev with
    | Some ev_ts => returned (Some (convert ev_ts))
    | None => returned None
    end.

(** [Event.args]. *)
Definition py_args (ev : data) : outcome (list data) :=
  let t := type ev in
  if bool_decide (t <> Event) then invalid_argument "invalid Event data/type"
  else if negb (valid ev) then invalid_argument "invalid Event data"
  else returned (args ev).

End Event.

(** An envelope to run the accessors on: a message is a vector of its type
    and its content, and the content of an event (type 1) is its name, its
    arguments and, optionally, its timestamp. *)
Module Envelope.

Definition Event : nat := 1.

Definition type (msg : data) : nat :=
  match msg with
  | d_vector (d_count t :: _) _ => Z.to_nat t
  | _ => 0
  end.

Definition content (msg : data) : list data :=
  match msg with
  | d_vector [_; d_vector fields _] _ => fields
  | _ => []
  end.

Definition valid (msg : data) : bool :=
  match content msg with
  | [d_string _; d_vector _ _] | [d_string _; d_vector _ _; d_timestamp _] => true
  | _ => false
  end.

Definition name (msg : data) : string :=
  match content msg with
  | d_string n :: _ => n
  | _ => ""
  end.

Definition args (msg : data) : list data :=
  match content msg with
  | _ :: d_vector xs _ :: _ => xs
  | _ => []
  end.

Definition ts (msg : data) : option timestamp :=
  match content msg with
  | [_; _; d_timestamp t] => Some t
  | _ => None
  end.

(** Seconds as a binary64 number are not needed to tell the outcomes
    apart: the conversion keeps the nanoseconds as an integral float. *)
Definition convert (t : timestamp) : real :=
  match t with
  | Z0 => S754_zero false
  | Zpos p => S754_finite false p 0
  | Zneg p => S754_finite true p 0
  end.

Definition ping : data :=
  d_vector [d_count 1%Z;
            d_vector [d_string "ping"; d_vector [d_count 42%Z] 1; d_timestamp 7%Z] 3] 2.

Definition log_write : data :=
  d_vector [d_count 3%Z; d_vector [d_string "conn"] 1] 2.

End Envelope.

End ZeekBinding.

(** ** The backend that runs all backends ([tests/cpp/backend.cc]) *)

Module BackendTest.

Section MetaBackend.

(** [R] is the type of the results ([result<T>]), with the inequality
    that [std::not_equal_to] uses and the result made from
    [sc::unspecified]; [B] is the type of the backends. *)
Context {R B : Type}.
Variable not_equal_to : R -> R -> bool.
Variable unspecified : R.

(** [all_equal]. *)
Definition all_equal (xs : list R) : bool :=
  Std.adjacent_find not_equal_to xs =? length xs.

(** [meta_backend::perform]: [f] runs on every backend in turn, changes
    it and gives a result; the results are compared.  [front] of an empty
    vector is undefined. *)
Definition perform (f : B -> B * R) (backends_ : list B) : option (list B * R) :=
  let done := map f backends_ in
  let xs := map snd done in
  if negb (all_equal xs) then Some (map fst done, unspecified)
  else
    match xs with
    | front :: _ => Some (map fst done, front)
    | [] => None
    end.

End MetaBackend.

End BackendTest.

(** * Properties *)

(** ** The generic algorithms *)

Module StdFacts.

Lemma equal_Forall2 {A B : Type} (pred : A -> B -> bool) (xs : list A) (ys : list B) :
  Std.equal pred xs ys = true <-> Forall2 (fun x y => pred x y = true) xs ys.
Proof.
  revert ys; induction xs as [|x xs IH]; intros [|y ys]; simpl.
  - split; [constructor | reflexivity].
  - split; [discriminate | inversion 1].
  - split; [discriminate | inversion 1].
  - rewrite andb_true_iff, IH. split.
    + intros [Hx Hxs]. now constructor.
    + inversion 1; subst. now split.
Qed.

Lemma equal_length {A B : Type} (pred : A -> B -> bool) (xs : list A) (ys : list B) :
  Std.equal pred xs ys = true -> length xs = length ys.
Proof.
  rewrite equal_Forall2. induction 1; simpl; congruence.
Qed.

Lemma equal_map_same {A B : Type} (pred : A -> B -> bool) (f : B -> A) (ys : list B) :
  Forall (fun y => pred (f y) y = true) ys -> Std.equal pred (map f ys) ys = true.
Proof.
  induction 1 as [|y ys Hy _ IH]; simpl; [reflexivity|].
  now rewrite Hy, IH.
Qed.

(** Two pairs of comparisons that agree on the elements of [xs] give the
    same result. *)
Lemma lex_lt_agree {A B : Type} (lt gt lt' gt' : A -> B -> bool) (xs : list A) :
  Forall (fun x => forall y, lt x y = lt' x y /\ gt x y = gt' x y) xs ->
  forall ys, Std.lex_lt lt gt xs ys = Std.lex_lt lt' gt' xs ys.
Proof.
  induction 1 as [|x xs Hx _ IH]; intros [|y ys]; simpl; try reflexivity.
  destruct (Hx y) as [-> ->]. now rewrite IH.
Qed.

Lemma lex_gt_agree {A B : Type} (lt gt lt' gt' : A -> B -> bool) (xs : list A) :
  Forall (fun x => forall y, lt x y = lt' x y /\ gt x y = gt' x y) xs ->
  forall ys, Std.lex_gt lt gt xs ys = Std.lex_gt lt' gt' xs ys.
Proof.
  induction 1 as [|x xs Hx _ IH]; intros [|y ys]; simpl; try reflexivity.
  destruct (Hx y) as [-> ->]. now rewrite IH.
Qed.

(** Running the loop on the exchanged ranges is the loop for the opposite
    question, when the comparisons of the elements are each other's
    opposites. *)
Lemma lex_flip {A B : Type} (lt gt : A -> B -> bool) (lt' gt' : B -> A -> bool)
    (xs : list A) :
  Forall (fun x => forall y, gt x y = lt' y x /\ lt x y = gt' y x) xs ->
  forall ys, Std.lex_gt lt gt xs ys = Std.lex_lt lt' gt' ys xs
             /\ Std.lex_lt lt gt xs ys = Std.lex_gt lt' gt' ys xs.
Proof.
  induction 1 as [|x xs Hx _ IH]; intros [|y ys]; simpl; try (split; reflexivity).
  destruct (Hx y) as [-> ->]. destruct (IH ys) as [-> ->]. split; reflexivity.
Qed.

(** The comparisons commute with a map on both ranges. *)
Lemma lex_lt_map {A B A' B' : Type} (f : A -> A') (g : B -> B')
    (lt gt : A -> B -> bool) (lt' gt' : A' -> B' -> bool) (xs : list A) :
  Forall (fun x => forall y, lt' (f x) (g y) = lt x y /\ gt' (f x) (g y) = gt x y) xs ->
  forall ys, Std.lex_lt lt' gt' (map f xs) (map g ys) = Std.lex_lt lt gt xs ys.
Proof.
  induction 1 as [|x xs Hx _ IH]; intros [|y ys]; simpl; try reflexivity.
  destruct (Hx y) as [-> ->]. now rewrite IH.
Qed.

Lemma lex_gt_map {A B A' B' : Type} (f : A -> A') (g : B -> B')
    (lt gt : A -> B -> bool) (lt' gt' : A' -> B' -> bool) (xs : list A) :
  Forall (fun x => forall y, lt' (f x) (g y) = lt x y /\ gt' (f x) (g y) = gt x y) xs ->
  forall ys, Std.lex_gt lt' gt' (map f xs) (map g ys) = Std.lex_gt lt gt xs ys.
Proof.
  induction 1 as [|x xs Hx _ IH]; intros [|y ys]; simpl; try reflexivity.
  destruct (Hx y) as [-> ->]. now rewrite IH.
Qed.

(** An element that is after all the others goes to the end. *)
Lemma set_emplace_last {A : Type} (less : A -> A -> bool) (x : A) (s : list A) :
  forallb (fun y => less y x) s = true -> Std.set_emplace less x s = s ++ [x].
Proof.
  induction s as [|y s IH]; simpl; [reflexivity|].
  rewrite andb_true_iff. intros [-> Hs]. now rewrite IH.
Qed.

Lemma map_emplace_last {K V : Type} (less : K -> K -> bool) (k : K) (v : V)
    (m : list (K * V)) :
  forallb (fun e => less (fst e) k) m = true -> Std.map_emplace less k v m = m ++ [(k, v)].
Proof.
  induction m as [|[k' v'] m IH]; simpl; [reflexivity|].
  rewrite andb_true_iff. intros [-> Hm]. now rewrite IH.
Qed.

Lemma ascending_app {A : Type} (less : A -> A -> bool) (xs ys : list A) :
  Std.ascending less (xs ++ ys) = true ->
  Std.ascending less xs = true /\ Std.ascending less ys = true
  /\ Forall (fun x => forallb (less x) ys = true) xs.
Proof.
  induction xs as [|x xs IH]; simpl.
  - intros H. repeat split; [assumption | constructor].
  - rewrite !andb_true_iff, forallb_app, andb_true_iff.
    intros [[Hx Hy] Hrest]. destruct (IH Hrest) as (? & ? & ?).
    repeat split; try assumption. now constructor.
Qed.

(** Emplacing the elements of an ascending sequence one after the other
    rebuilds the sequence. *)
Lemma fold_set_emplace {A : Type} (less : A -> A -> bool) (xs acc : list A) :
  Std.ascending less (acc ++ xs) = true ->
  fold_left (fun result x => Std.set_emplace less x result) xs acc = acc ++ xs.
Proof.
  revert acc; induction xs as [|x xs IH]; intros acc Hasc; simpl.
  - now rewrite app_nil_r.
  - rewrite set_emplace_last.
    + rewrite IH; rewrite <- app_assoc; [reflexivity | exact Hasc].
    + apply ascending_app in Hasc as (_ & _ & Hall).
      apply forallb_forall. intros y Hy.
      rewrite List.Forall_forall in Hall. specialize (Hall y Hy).
      simpl in Hall. now apply andb_true_iff in Hall as [? _].
Qed.

Lemma fold_map_emplace {K V : Type} (less : K -> K -> bool) (m acc : list (K * V)) :
  Std.ascending less (map fst (acc ++ m)) = true ->
  fold_left (fun result kv => Std.map_emplace less (fst kv) (snd kv) result) m acc
  = acc ++ m.
Proof.
  revert acc; induction m as [|[k v] m IH]; intros acc Hasc; simpl.
  - now rewrite app_nil_r.
  - rewrite map_emplace_last.
    + rewrite IH; rewrite <- app_assoc; [reflexivity | exact Hasc].
    + rewrite map_app in Hasc.
      apply ascending_app in Hasc as (_ & _ & Hall).
      apply forallb_forall. intros e He.
      rewrite List.Forall_forall in Hall. specialize (Hall (fst e) (in_map fst _ _ He)).
      simpl in Hall. now apply andb_true_iff in Hall as [? _].
Qed.

(** An ascending sequence stays ascending under a map that preserves the
    comparison on its elements. *)
Lemma ascending_map {A B : Type} (less : A -> A -> bool) (less' : B -> B -> bool)
    (f : A -> B) (xs : list A) :
  Forall (fun x => forall y, less' (f x) (f y) = less x y) xs ->
  Std.ascending less xs = true -> Std.ascending less' (map f xs) = true.
Proof.
  induction 1 as [|x xs Hx _ IH]; simpl; [reflexivity|].
  rewrite !andb_true_iff. intros [Hhead Htail]. split; [|now apply IH].
  rewrite forallb_forall in *. intros y' Hy'.
  apply in_map_iff in Hy' as (y & <- & Hy). rewrite Hx. now apply Hhead.
Qed.

(** *** Ranges compared in both directions *)

(** [std::equal] with the ranges exchanged is [std::equal] with the
    predicate exchanged. *)
Lemma equal_flip {A B : Type} (p : A -> B -> bool) (q : B -> A -> bool) (xs : list A) :
  Forall (fun x => forall y, p x y = q y x) xs ->
  forall ys, Std.equal p xs ys = Std.equal q ys xs.
Proof.
  induction 1 as [|x xs Hx _ IH]; intros [|y ys]; simpl; try reflexivity.
  now rewrite Hx, IH.
Qed.

(** [std::equal] is transitive when its predicate is, on the elements of
    the first range. *)
Lemma equal_trans {A : Type} (p : A -> A -> bool) (xs : list A) :
  Forall (fun x => forall y z, p x y = true -> p y z = true -> p x z = true) xs ->
  forall ys zs, Std.equal p xs ys = true -> Std.equal p ys zs = true ->
                Std.equal p xs zs = true.
Proof.
  induction 1 as [|x xs Hx _ IH]; intros [|y ys] [|z zs]; simpl; try discriminate;
    try reflexivity.
  rewrite !andb_true_iff. intros [Hxy Hxys] [Hyz Hyzs]. split; eauto.
Qed.

(** When no element is both before and after another one, a range that is
    before another one is not after it. *)
Lemma lex_asym {A B : Type} (lt gt : A -> B -> bool) (xs : list A) :
  Forall (fun x => forall y, lt x y = true -> gt x y = false) xs ->
  forall ys, Std.lex_lt lt gt xs ys = true -> Std.lex_gt lt gt xs ys = false.
Proof.
  induction 1 as [|x xs Hx _ IH]; intros [|y ys]; simpl; try discriminate;
    try reflexivity.
  destruct (lt x y) eqn:Hlt.
  - now rewrite (Hx y Hlt).
  - destruct (gt x y); [discriminate | apply IH].
Qed.

Lemma lexicographical_compare_flip {A : Type} (less : A -> A -> bool) (xs ys : list A) :
  Std.lex_gt less (fun x y => less y x) xs ys = Std.lexicographical_compare less ys xs.
Proof.
  unfold Std.lexicographical_compare.
  apply (lex_flip less (fun x y => less y x) less (fun x y => less y x)).
  apply List.Forall_forall. intros x _ y. split; reflexivity.
Qed.

(** Ranges that are equal element by element are unordered, and unordered
    ranges are equal element by element, when that holds for the
    elements. *)
Lemma equal_unordered {A B : Type} (eq lt gt : A -> B -> bool) (xs : list A) :
  Forall (fun x => forall y, eq x y = true -> lt x y = false /\ gt x y = false) xs ->
  forall ys, Std.equal eq xs ys = true ->
             Std.lex_lt lt gt xs ys = false /\ Std.lex_gt lt gt xs ys = false.
Proof.
  induction 1 as [|x xs Hx _ IH]; intros [|y ys]; simpl; try discriminate;
    [split; reflexivity|].
  rewrite andb_true_iff. intros [Hxy Hrest].
  destruct (Hx y Hxy) as [-> ->]. now apply IH.
Qed.

Lemma unordered_equal {A B : Type} (eq lt gt : A -> B -> bool)
    (goodA : A -> Prop) (goodB : B -> Prop) (xs : list A) :
  Forall (fun x => forall y, goodA x -> goodB y ->
                             lt x y = false -> gt x y = false -> eq x y = true) xs ->
  forall ys, Forall goodA xs -> Forall goodB ys ->
             Std.lex_lt lt gt xs ys = false -> Std.lex_gt lt gt xs ys = false ->
             Std.equal eq xs ys = true.
Proof.
  induction 1 as [|x xs Hx _ IH]; intros [|y ys] Hxs Hys; simpl; try discriminate;
    [reflexivity|].
  inversion Hxs; inversion Hys; subst.
  destruct (lt x y) eqn:Hlt; [discriminate|].
  destruct (gt x y) eqn:Hgt; [discriminate|].
  intros Hl Hg. rewrite Hx by assumption. simpl. now apply IH.
Qed.

(** *** Strict weak orders *)

(** [std::lexicographical_compare] lifts an order that is asymmetric and in
    which [x < z] implies [x < y] or [y < z] (on the elements that are
    [good]) to ranges. *)
Section StrictWeakOrder.

Context {A : Type}.
Variable less : A -> A -> bool.
Variable good : A -> Prop.

Hypothesis asym : forall x y, less x y = true -> less y x = false.
Hypothesis cotrans :
  forall x y z, good x -> good y -> good z ->
                less x z = true -> less x y = true \/ less y z = true.

Lemma lexicographical_compare_asym (xs ys : list A) :
  Std.lexicographical_compare less xs ys = true ->
  Std.lexicographical_compare less ys xs = false.
Proof using asym.
  intros H. rewrite <- lexicographical_compare_flip. revert H.
  unfold Std.lexicographical_compare. apply lex_asym. apply List.Forall_forall. intros x _ y. apply asym.
Qed.

Lemma lexicographical_compare_cotrans (xs : list A) :
  forall ys zs, Forall good xs -> Forall good ys -> Forall good zs ->
    Std.lexicographical_compare less xs zs = true ->
    Std.lexicographical_compare less xs ys = true
    \/ Std.lexicographical_compare less ys zs = true.
Proof using asym cotrans.
  unfold Std.lexicographical_compare.
  induction xs as [|x xs IH]; intros [|y ys] [|z zs] Hxs Hys Hzs; simpl;
    try discriminate; auto.
  inversion Hxs as [|? ? Hx Hxs']; inversion Hys as [|? ? Hy Hys'];
    inversion Hzs as [|? ? Hz Hzs']; subst.
  destruct (less x z) eqn:Hxz.
  - intros _. destruct (cotrans x y z Hx Hy Hz Hxz) as [-> | ->]; auto.
  - destruct (less z x) eqn:Hzx; [discriminate|]. intros Hrest.
    destruct (less x y) eqn:Hxy; [now left|].
    destruct (less y z) eqn:Hyz; [now right|].
    destruct (less y x) eqn:Hyx.
    { destruct (cotrans y z x Hy Hz Hx Hyx); congruence. }
    destruct (less z y) eqn:Hzy.
    { destruct (cotrans z x y Hz Hx Hy Hzy); congruence. }
    now apply IH.
Qed.

End StrictWeakOrder.

(** So does [operator<] of [std::pair]. *)
Section PairOrder.

Context {A B : Type}.
Variable lessA : A -> A -> bool.
Variable lessB : B -> B -> bool.
Variable goodA : A -> Prop.
Variable goodB : B -> Prop.

Hypothesis asymA : forall x y, lessA x y = true -> lessA y x = false.
Hypothesis asymB : forall x y, lessB x y = true -> lessB y x = false.
Hypothesis cotransA :
  forall x y z, goodA x -> goodA y -> goodA z ->
                lessA x z = true -> lessA x y = true \/ lessA y z = true.
Hypothesis cotransB :
  forall x y z, goodB x -> goodB y -> goodB z ->
                lessB x z = true -> lessB x y = true \/ lessB y z = true.

Lemma pair_less_asym (p q : A * B) :
  Std.pair_less lessA lessB p q = true -> Std.pair_less lessA lessB q p = false.
Proof using asymA asymB.
  unfold Std.pair_less. destruct p as [a b], q as [a' b']. simpl.
  destruct (lessA a a') eqn:Ha.
  - rewrite (asymA _ _ Ha). reflexivity.
  - destruct (lessA a' a) eqn:Ha'; simpl; [discriminate|].
    intros Hb. now rewrite (asymB _ _ Hb).
Qed.

Lemma pair_less_cotrans (p q r : A * B) :
  goodA (fst p) /\ goodB (snd p) -> goodA (fst q) /\ goodB (snd q) ->
  goodA (fst r) /\ goodB (snd r) ->
  Std.pair_less lessA lessB p r = true ->
  Std.pair_less lessA lessB p q = true \/ Std.pair_less lessA lessB q r = true.
Proof using asymA cotransA cotransB.
  unfold Std.pair_less. destruct p as [a b], q as [a' b'], r as [a'' b'']. simpl.
  intros [Ha Hb] [Ha' Hb'] [Ha'' Hb''].
  destruct (lessA a a'') eqn:Hac.
  - intros _. destruct (cotransA a a' a'' Ha Ha' Ha'' Hac) as [-> | ->]; auto.
  - destruct (lessA a'' a) eqn:Hca; simpl; [discriminate|]. intros Hbd.
    destruct (lessA a a') eqn:Hab; [now left|].
    destruct (lessA a' a'') eqn:Hbc; [now right|].
    destruct (lessA a' a) eqn:Hba.
    { destruct (cotransA a' a'' a Ha' Ha'' Ha Hba); congruence. }
    destruct (lessA a'' a') eqn:Hcb.
    { destruct (cotransA a'' a a' Ha'' Ha Ha' Hcb); congruence. }
    simpl. now apply cotransB.
Qed.

End PairOrder.

(** *** [emplace] on sets and maps *)

(** With a transitive order on the [good] elements: [emplace] keeps what
    is there, adds nothing but the new element, keeps the sequence ascending,
    leaves it alone when an element unordered with the new one is there, and
    adds the new element when it is ordered with all the others. *)
Section Emplace.

Context {A : Type}.
Variable less : A -> A -> bool.
Variable good : A -> Prop.

Hypothesis trans :
  forall x y z, good x -> good y -> good z ->
                less x y = true -> less y z = true -> less x z = true.

Lemma In_set_emplace (x y : A) (s : list A) :
  In y (Std.set_emplace less x s) -> y = x \/ In y s.
Proof.
  induction s as [|a s IH]; simpl.
  - intros [<- | []]. now left.
  - destruct (less a x); [|destruct (less x a)]; simpl; intuition.
Qed.

Lemma set_emplace_keeps (x y : A) (s : list A) :
  In y s -> In y (Std.set_emplace less x s).
Proof.
  induction s as [|a s IH]; simpl; [easy|].
  destruct (less a x); [|destruct (less x a)]; simpl; intuition.
Qed.

Lemma set_emplace_ascending (x : A) (s : list A) :
  good x -> Forall good s ->
  Std.ascending less s = true -> Std.ascending less (Std.set_emplace less x s) = true.
Proof using trans.
  intros Hx. induction 1 as [|a s Ha Hs IH]; simpl; [reflexivity|].
  rewrite andb_true_iff. intros [Hhead Htail].
  destruct (less a x) eqn:Hax; [|destruct (less x a) eqn:Hxa]; simpl.
  - rewrite IH by exact Htail. rewrite andb_true_r.
    apply forallb_forall. intros y Hy. apply In_set_emplace in Hy as [-> | Hy];
      [exact Hax|]. rewrite forallb_forall in Hhead. now apply Hhead.
  - rewrite Hxa, Hhead, Htail. simpl. rewrite andb_true_r.
    apply forallb_forall. intros y Hy. rewrite forallb_forall in Hhead.
    apply (trans x a y); auto. rewrite List.Forall_forall in Hs. now apply Hs.
  - now rewrite Hhead, Htail.
Qed.

Lemma set_emplace_duplicate (x y : A) (s : list A) :
  good x -> Forall good s -> Std.ascending less s = true ->
  In y s -> less x y = false -> less y x = false ->
  Std.set_emplace less x s = s.
Proof using trans.
  intros Hx. induction 1 as [|a s Ha Hs IH]; simpl; [easy|].
  rewrite andb_true_iff. intros [Hhead Htail] Hin Hxy Hyx.
  destruct (less a x) eqn:Hax; [|destruct (less x a) eqn:Hxa]; simpl.
  - f_equal. apply IH; try assumption. destruct Hin as [-> | Hin]; [congruence | exact Hin].
  - exfalso. destruct Hin as [-> | Hin]; [congruence|].
    rewrite forallb_forall in Hhead. rewrite List.Forall_forall in Hs.
    rewrite (trans x a y) in Hxy; auto. discriminate.
  - reflexivity.
Qed.

Lemma set_emplace_new (x : A) (s : list A) :
  Forall (fun y => less x y = true \/ less y x = true) s ->
  In x (Std.set_emplace less x s)
  /\ length (Std.set_emplace less x s) = S (length s).
Proof.
  induction 1 as [|a s Ha _ [IHin IHlen]]; simpl; [auto|].
  destruct (less a x) eqn:Hax; simpl; [split; [now right | now rewrite IHlen]|].
  destruct Ha as [-> | Ha]; [|congruence]. simpl. auto.
Qed.

Lemma In_map_emplace {V : Type} (k : A) (v : V) (e : A * V) (m : list (A * V)) :
  In e (Std.map_emplace less k v m) -> e = (k, v) \/ In e m.
Proof.
  induction m as [|[k' v'] m IH]; simpl.
  - intros [<- | []]. now left.
  - destruct (less k' k); [|destruct (less k k')]; simpl; intuition.
Qed.

Lemma map_emplace_keeps {V : Type} (k : A) (v : V) (e : A * V) (m : list (A * V)) :
  In e m -> In e (Std.map_emplace less k v m).
Proof.
  induction m as [|[k' v'] m IH]; simpl; [easy|].
  destruct (less k' k); [|destruct (less k k')]; simpl; intuition.
Qed.

Lemma map_emplace_ascending {V : Type} (k : A) (v : V) (m : list (A * V)) :
  good k -> Forall good (map fst m) ->
  Std.ascending less (map fst m) = true ->
  Std.ascending less (map fst (Std.map_emplace less k v m)) = true.
Proof using trans.
  intros Hk. induction m as [|[k' v'] m IH]; simpl; [reflexivity|].
  intros Hgood. inversion Hgood as [|? ? Hk' Hm]; subst.
  rewrite andb_true_iff. intros [Hhead Htail].
  destruct (less k' k) eqn:Hax; [|destruct (less k k') eqn:Hxa]; simpl.
  - rewrite IH by assumption. rewrite andb_true_r.
    apply forallb_forall. intros y Hy. apply in_map_iff in Hy as (e & <- & He).
    apply In_map_emplace in He as [-> | He]; [exact Hax|].
    rewrite forallb_forall in Hhead. apply Hhead. now apply in_map.
  - rewrite Hxa, Hhead, Htail. simpl. rewrite andb_true_r.
    apply forallb_forall. intros y Hy. rewrite forallb_forall in Hhead.
    apply (trans k k' y); auto. rewrite List.Forall_forall in Hm. now apply Hm.
  - now rewrite Hhead, Htail.
Qed.

Lemma map_emplace_duplicate {V : Type} (k k0 : A) (v : V) (m : list (A * V)) :
  good k -> Forall good (map fst m) -> Std.ascending less (map fst m) = true ->
  In k0 (map fst m) -> less k k0 = false -> less k0 k = false ->
  Std.map_emplace less k v m = m.
Proof using trans.
  intros Hk. induction m as [|[k' v'] m IH]; simpl; [easy|].
  intros Hgood. inversion Hgood as [|? ? Hk' Hm]; subst.
  rewrite andb_true_iff. intros [Hhead Htail] Hin Hxy Hyx.
  destruct (less k' k) eqn:Hax; [|destruct (less k k') eqn:Hxa]; simpl.
  - f_equal. apply IH; try assumption. destruct Hin as [-> | Hin]; [congruence | exact Hin].
  - exfalso. destruct Hin as [-> | Hin]; [congruence|].
    rewrite forallb_forall in Hhead. rewrite List.Forall_forall in Hm.
    rewrite (trans k k' k0) in Hxy; auto. discriminate.
  - reflexivity.
Qed.

Lemma map_emplace_new {V : Type} (k : A) (v : V) (m : list (A * V)) :
  Forall (fun k' => less k k' = true \/ less k' k = true) (map fst m) ->
  In (k, v) (Std.map_emplace less k v m)
  /\ length (Std.map_emplace less k v m) = S (length m).
Proof.
  induction m as [|[k' v'] m IH]; simpl; [auto|].
  intros Hall. inversion Hall as [|? ? Hk' Hm]; subst. destruct (IH Hm) as [IHin IHlen].
  destruct (less k' k) eqn:Hax; simpl; [split; [now right | now rewrite IHlen]|].
  destruct Hk' as [-> | Hk']; [|congruence]. simpl. auto.
Qed.

End Emplace.

End StdFacts.

(** ** The value model *)

Module ValueFacts.

Import Value.

(** Induction on views, with the hypothesis for every element of a
    container. *)
Section Induction.

Variable P : variant_data -> Prop.

Hypothesis on_scalar : forall v, is_scalar v = true -> P v.
Hypothesis on_set : forall xs, Forall P xs -> P (v_set xs).
Hypothesis on_table :
  forall kvs, Forall (fun kv => P (fst kv) /\ P (snd kv)) kvs -> P (v_table kvs).
Hypothesis on_list : forall xs capacity, Forall P xs -> P (v_list xs capacity).

Lemma variant_data_induction : forall v, P v.
Proof using P on_scalar on_set on_table on_list.
  fix IH 1. intros v.
  destruct v as [| | | | | | | | | | | | xs | kvs | xs capacity];
    try (apply on_scalar; reflexivity).
  - apply on_set. induction xs as [|x xs IHxs]; constructor; [apply IH | exact IHxs].
  - apply on_table.
    induction kvs as [|[k w] kvs IHkvs]; constructor; [|exact IHkvs].
    split; apply IH.
  - apply on_list. induction xs as [|x xs IHxs]; constructor; [apply IH | exact IHxs].
Qed.

End Induction.

(** *** The two directions of the comparison *)

Lemma variant_flip_both (x : variant_data) :
  forall y, variant_greater x y = variant_less y x
            /\ variant_less x y = variant_greater y x.
Proof.
  induction x as [x Hx | xs IH | kvs IH | xs capacity IH] using variant_data_induction.
  - intros y. destruct x; try discriminate Hx; destruct y; split; reflexivity.
  - intros y. destruct y; try (split; reflexivity).
    simpl. apply StdFacts.lex_flip. exact IH.
  - intros y. destruct y; try (split; reflexivity).
    simpl. apply StdFacts.lex_flip.
    eapply List.Forall_impl; [|exact IH]. intros [k w] [Hk Hw] [k' w']. simpl in *.
    destruct (Hk k') as [-> ->]. destruct (Hw w') as [-> ->]. split; reflexivity.
  - intros y. destruct y; try (split; reflexivity).
    simpl. apply StdFacts.lex_flip. exact IH.
Qed.

(** [variant_greater] is [operator<] with its arguments exchanged. *)
Lemma variant_greater_flip (x y : variant_data) :
  variant_greater x y = variant_less y x.
Proof. apply variant_flip_both. Qed.

(** *** Equality of payloads *)

Lemma real_eq_refl (r : real) : is_nan r = false -> real_eq r r = true.
Proof.
  unfold real_eq, SFeqb. destruct r as [s | s | | s m e]; simpl; try discriminate.
  - reflexivity.
  - now destruct s.
  - intros _. rewrite Z.compare_refl.
    change (Pos.compare_cont Eq m m) with (Pos.compare m m).
    rewrite Pos.compare_refl. now destruct s.
Qed.

Lemma real_eq_nan (r : real) : real_eq S754_nan r = false.
Proof. reflexivity. Qed.

Lemma string_eq_spec (s t : string) : string_eq s t = true <-> s = t.
Proof.
  unfold string_eq. rewrite StdFacts.equal_Forall2. split.
  - revert t; induction s as [|a s IH]; intros [|b t]; simpl; inversion 1; subst.
    + reflexivity.
    + f_equal; [now apply Ascii.eqb_eq | now apply IH].
  - intros <-. induction s as [|a s IH]; simpl; constructor;
      [apply Ascii.eqb_refl | exact IH].
Qed.

Lemma string_eq_refl (s : string) : string_eq s s = true.
Proof. now apply string_eq_spec. Qed.

Lemma subnet_eq_refl (s : subnet) : subnet_eq s s = true.
Proof. unfold subnet_eq. now rewrite !Z.eqb_refl. Qed.

Lemma port_eq_refl (p : port) : port_eq p p = true.
Proof. unfold port_eq, protocol_eq. now rewrite !Z.eqb_refl. Qed.

(** *** The conversion *)

(** The owning order on mirrors is the order on views. *)
Lemma mirror_order (x : variant_data) :
  forall y, data_less (mirror x) (mirror y) = variant_less x y
            /\ data_greater (mirror x) (mirror y) = variant_greater x y.
Proof.
  induction x as [x Hx | xs IH | kvs IH | xs capacity IH] using variant_data_induction.
  - intros y. destruct x; try discriminate Hx; destruct y; split; reflexivity.
  - intros y. destruct y; try (split; reflexivity). simpl. split.
    + now apply StdFacts.lex_lt_map.
    + now apply StdFacts.lex_gt_map.
  - intros y. destruct y as [| | | | | | | | | | | | | kvs' |]; try (split; reflexivity).
    assert (Forall (fun kv => forall kv' : variant_data * variant_data,
      (data_less (mirror (fst kv)) (mirror (fst kv'))
       || (negb (data_greater (mirror (fst kv)) (mirror (fst kv')))
           && data_less (mirror (snd kv)) (mirror (snd kv')))
       = variant_less (fst kv) (fst kv')
         || (negb (variant_greater (fst kv) (fst kv'))
             && variant_less (snd kv) (snd kv')))
      /\ (data_greater (mirror (fst kv)) (mirror (fst kv'))
          || (negb (data_less (mirror (fst kv)) (mirror (fst kv')))
              && data_greater (mirror (snd kv)) (mirror (snd kv')))
          = variant_greater (fst kv) (fst kv')
            || (negb (variant_less (fst kv) (fst kv'))
                && variant_greater (snd kv) (snd kv')))) kvs) as Hpairs.
    { eapply List.Forall_impl; [|exact IH]. intros [k w] [Hk Hw] [k' w']. simpl in *.
      destruct (Hk k') as [-> ->]. destruct (Hw w') as [-> ->]. split; reflexivity. }
    simpl. split.
    + apply (StdFacts.lex_lt_map
               (fun kv => (mirror (fst kv), mirror (snd kv)))
               (fun kv => (mirror (fst kv), mirror (snd kv)))). exact Hpairs.
    + apply (StdFacts.lex_gt_map
               (fun kv => (mirror (fst kv), mirror (snd kv)))
               (fun kv => (mirror (fst kv), mirror (snd kv)))). exact Hpairs.
  - intros y. destruct y; try (split; reflexivity). simpl. split.
    + now apply StdFacts.lex_lt_map.
    + now apply StdFacts.lex_gt_map.
Qed.

Lemma mirror_less (x y : variant_data) :
  data_less (mirror x) (mirror y) = variant_less x y.
Proof. apply mirror_order. Qed.

Lemma mirror_ascending (xs : list variant_data) :
  Std.ascending variant_less xs = true ->
  Std.ascending data_less (map mirror xs) = true.
Proof.
  apply StdFacts.ascending_map. apply List.Forall_forall. intros x _ y.
  apply mirror_less.
Qed.

(** On a well-formed view [to_data] rebuilds every container in the order
    in which the view iterates it. *)
Lemma to_data_mirror (v : variant_data) :
  well_formed v = true -> to_data v = mirror v.
Proof.
  induction v as [v Hv | xs IH | kvs IH | xs capacity IH] using variant_data_induction.
  - intros _. destruct v; try discriminate Hv; reflexivity.
  - simpl. rewrite andb_true_iff. intros [Hasc Hwf].
    assert (map to_data xs = map mirror xs) as ->.
    { apply map_ext_in. intros x Hx. rewrite List.Forall_forall in IH.
      apply IH; [exact Hx|]. rewrite forallb_forall in Hwf. now apply Hwf. }
    f_equal. apply (StdFacts.fold_set_emplace data_less _ []).
    now apply mirror_ascending.
  - simpl. rewrite andb_true_iff. intros [Hasc Hwf].
    assert (map (fun kv => (to_data (fst kv), to_data (snd kv))) kvs
            = map (fun kv => (mirror (fst kv), mirror (snd kv))) kvs) as ->.
    { apply map_ext_in. intros kv Hkv. rewrite List.Forall_forall in IH.
      rewrite forallb_forall in Hwf. specialize (Hwf kv Hkv).
      apply andb_true_iff in Hwf as [Hk Hw].
      destruct (IH kv Hkv) as [IHk IHw]. now rewrite IHk, IHw. }
    f_equal. apply (StdFacts.fold_map_emplace data_less _ []).
    simpl. rewrite List.map_map. simpl. rewrite <- List.map_map.
    now apply mirror_ascending.
  - simpl. rewrite andb_true_iff. intros [_ Hwf]. f_equal.
    apply map_ext_in. intros x Hx. rewrite List.Forall_forall in IH.
    apply IH; [exact Hx|]. rewrite forallb_forall in Hwf. now apply Hwf.
Qed.

(** A view without a NaN is equal to its mirror. *)
Lemma mirror_equal (v : variant_data) :
  nan_free v = true -> data_eq_variant (mirror v) v = true.
Proof.
  induction v as [v Hv | xs IH | kvs IH | xs capacity IH] using variant_data_induction.
  - destruct v; try discriminate Hv; simpl; intros Hnan;
      auto using Z.eqb_refl, Bool.eqb_reflx, string_eq_refl, subnet_eq_refl, port_eq_refl.
    apply real_eq_refl. now apply negb_true_iff.
  - simpl. intros Hnan. apply StdFacts.equal_map_same.
    apply List.Forall_forall. intros x Hx. rewrite List.Forall_forall in IH.
    apply IH; [exact Hx|]. rewrite forallb_forall in Hnan. now apply Hnan.
  - simpl. intros Hnan.
    apply (StdFacts.equal_map_same
             (fun (p : data * data) (q : variant_data * variant_data) =>
                data_eq_variant (fst p) (fst q) && data_eq_variant (snd p) (snd q))
             (fun kv => (mirror (fst kv), mirror (snd kv)))).
    apply List.Forall_forall. intros kv Hkv. rewrite List.Forall_forall in IH.
    rewrite forallb_forall in Hnan. specialize (Hnan kv Hkv).
    apply andb_true_iff in Hnan as [Hk Hw].
    destruct (IH kv Hkv) as [IHk IHw]. simpl. now rewrite IHk, IHw.
  - simpl. intros Hnan. apply StdFacts.equal_map_same.
    apply List.Forall_forall. intros x Hx. rewrite List.Forall_forall in IH.
    apply IH; [exact Hx|]. rewrite forallb_forall in Hnan. now apply Hnan.
Qed.


Lemma equal_structural {A B : Type} (pred : A -> B -> bool) (xs : list A) (ys : list B) :
  Std.equal pred xs ys = true
  <-> length xs = length ys /\ Forall2 (fun x y => pred x y = true) xs ys.
Proof.
  split.
  - intros H. split; [now apply StdFacts.equal_length in H | now apply StdFacts.equal_Forall2].
  - intros [_ H]. now apply StdFacts.equal_Forall2.
Qed.

Lemma equal_entries {A B : Type} (pred : A -> B -> bool)
    (kvs : list (A * A)) (kvs' : list (B * B)) :
  Std.equal (fun p q => pred (fst p) (fst q) && pred (snd p) (snd q)) kvs kvs' = true
  <-> length kvs = length kvs'
      /\ Forall2 (fun p q => pred (fst p) (fst q) = true /\ pred (snd p) (snd q) = true)
                 kvs kvs'.
Proof.
  rewrite equal_structural. split; intros [Hlen H]; (split; [exact Hlen|]).
  - eapply List.Forall2_impl; [|exact H]. intros p q. apply andb_true_iff.
  - eapply List.Forall2_impl; [|exact H]. intros p q. apply andb_true_iff.
Qed.




(** *** The order *)

Lemma lexicographical_compare_variant (xs ys : list variant_data) :
  Std.lex_lt variant_less variant_greater xs ys
  = Std.lexicographical_compare variant_less xs ys.
Proof.
  unfold Std.lexicographical_compare. apply StdFacts.lex_lt_agree.
  apply List.Forall_forall. intros x _ y. split; [reflexivity | apply variant_greater_flip].
Qed.

Lemma lexicographical_compare_entries (kvs kvs' : list (variant_data * variant_data)) :
  Std.lex_lt
    (fun p q => variant_less (fst p) (fst q)
                || (negb (variant_greater (fst p) (fst q)) && variant_less (snd p) (snd q)))
    (fun p q => variant_greater (fst p) (fst q)
                || (negb (variant_less (fst p) (fst q)) && variant_greater (snd p) (snd q)))
    kvs kvs'
  = Std.lexicographical_compare (Std.pair_less variant_less variant_less) kvs kvs'.
Proof.
  unfold Std.lexicographical_compare. apply StdFacts.lex_lt_agree.
  apply List.Forall_forall. intros p _ q. unfold Std.pair_less.
  now rewrite !variant_greater_flip.
Qed.

(** [operator<] is the order of the data model. *)
Lemma variant_less_value_order (x y : variant_data) :
  variant_less x y = value_order x y.
Proof.
  destruct x, y; try reflexivity; unfold value_order; simpl.
  - apply lexicographical_compare_variant.
  - apply lexicographical_compare_entries.
  - apply lexicographical_compare_variant.
Qed.

Lemma variant_tags_differ_unequal (x y : variant_data) :
  get_tag x <> get_tag y -> variant_eq x y = false.
Proof.
  intros Hne. destruct x, y; try reflexivity; exfalso; apply Hne; reflexivity.
Qed.

Lemma tag_index_injective (s t : variant_tag) : tag_index s = tag_index t -> s = t.
Proof. destruct s, t; simpl; intros H; try reflexivity; discriminate H. Qed.

Lemma real_eq_spec (x y : real) :
  real_eq x y = true ->
  (exists s s', x = S754_zero s /\ y = S754_zero s') \/ (x = y /\ is_nan x = false).
Proof.
  unfold real_eq, SFeqb.
  destruct x as [s | s | | s m e], y as [s' | s' | | s' m' e']; simpl;
    try discriminate; try (destruct s; discriminate); try (destruct s'; discriminate).
  - intros _. left. eauto.
  - destruct s, s'; try discriminate; intros _; right; split; reflexivity.
  - change (Pos.compare_cont Eq m m') with (Pos.compare m m').
    destruct s, s'; try discriminate;
      (destruct (Z.compare_spec e e') as [-> | |]; try discriminate;
       destruct (Pos.compare_spec m m') as [-> | |]; try discriminate;
       intros _; right; split; reflexivity).
Qed.

Lemma subnet_eq_spec (s t : subnet) : subnet_eq s t = true <-> s = t.
Proof.
  unfold subnet_eq. rewrite andb_true_iff, !Z.eqb_eq. destruct s, t; simpl.
  split; [intros [-> ->]; reflexivity | intros [= -> ->]; split; reflexivity].
Qed.

Lemma port_eq_spec (p q : port) : port_eq p q = true <-> p = q.
Proof.
  unfold port_eq, protocol_eq. rewrite andb_true_iff, !Z.eqb_eq.
  destruct p as [n a], q as [m b]; simpl. split.
  - intros [-> Hproto]. f_equal. destruct a, b; simpl in Hproto; congruence.
  - intros [= -> ->]. split; reflexivity.
Qed.

Lemma bool_eqb_spec (a b : bool) : Bool.eqb a b = true <-> a = b.
Proof. destruct a, b; simpl; split; congruence. Qed.

Lemma real_eq_normalize (a b : real) :
  real_eq a b = true <->
  normalize (v_real a) = normalize (v_real b) /\ is_nan a = false.
Proof.
  split.
  - intros Heq. destruct (real_eq_spec a b Heq) as [(s & s' & -> & ->) | [-> Hnan]].
    + split; reflexivity.
    + split; [reflexivity | exact Hnan].
  - intros [Hnorm Hnan]. destruct a as [s | s | | s m e]; try discriminate Hnan.
    + destruct b; simpl in Hnorm; try discriminate Hnorm. reflexivity.
    + destruct b; simpl in Hnorm; try discriminate Hnorm. injection Hnorm as <-.
      now apply real_eq_refl.
    + destruct b; simpl in Hnorm; try discriminate Hnorm. injection Hnorm as <- <- <-.
      now apply real_eq_refl.
Qed.

Lemma equal_map_eq {A : Type} (pred : A -> A -> bool) (f : A -> A) (good : A -> bool)
    (xs : list A) :
  Forall (fun x => forall y, pred x y = true <-> f x = f y /\ good x = true) xs ->
  forall ys, Std.equal pred xs ys = true
             <-> map f xs = map f ys /\ forallb good xs = true.
Proof.
  induction 1 as [|x xs Hx _ IH]; intros [|y ys]; simpl.
  - tauto.
  - split; [discriminate | intros [[=] _]].
  - split; [discriminate | intros [[=] _]].
  - rewrite !andb_true_iff, Hx, IH. split.
    + intros [[-> ->] [-> ->]]. auto.
    + intros [[= -> ->] [-> ->]]. auto.
Qed.

Lemma normalize_tag (v : variant_data) : get_tag (normalize v) = get_tag v.
Proof. destruct v as [| | | | [] | | | | | | | | | |]; reflexivity. Qed.

Ltac tags_differ :=
  split; [discriminate
         | intros [Hn _]; apply (f_equal get_tag) in Hn; rewrite !normalize_tag in Hn;
           discriminate Hn].

Lemma variant_eq_normalize (x : variant_data) :
  forall y, variant_eq x y = true <-> normalize x = normalize y /\ nan_free x = true.
Proof.
  induction x as [x Hx | xs IH | kvs IH | xs capacity IH] using variant_data_induction.
  - intros y. destruct x; try discriminate Hx; destruct y; try tags_differ.
    + simpl. tauto.
    + simpl. rewrite bool_eqb_spec. split; [intros ->; auto | intros [[= ->] _]; auto].
    + simpl. rewrite Z.eqb_eq. split; [intros ->; auto | intros [[= ->] _]; auto].
    + simpl. rewrite Z.eqb_eq. split; [intros ->; auto | intros [[= ->] _]; auto].
    + change (variant_eq (v_real r) (v_real r0)) with (real_eq r r0).
      rewrite real_eq_normalize. simpl. now rewrite negb_true_iff.
    + simpl. rewrite string_eq_spec. split; [intros ->; auto | intros [[= ->] _]; auto].
    + simpl. rewrite Z.eqb_eq. split; [intros ->; auto | intros [[= ->] _]; auto].
    + simpl. rewrite subnet_eq_spec. split; [intros ->; auto | intros [[= ->] _]; auto].
    + simpl. rewrite port_eq_spec. split; [intros ->; auto | intros [[= ->] _]; auto].
    + simpl. rewrite Z.eqb_eq. split; [intros ->; auto | intros [[= ->] _]; auto].
    + simpl. rewrite Z.eqb_eq. split; [intros ->; auto | intros [[= ->] _]; auto].
    + simpl. rewrite string_eq_spec. split; [intros ->; auto | intros [[= ->] _]; auto].
  - intros y. destruct y as [| | | | | | | | | | | | ys | |]; try tags_differ.
    simpl. rewrite (equal_map_eq variant_eq normalize nan_free xs IH). split.
    + intros [-> ->]. auto.
    + intros [[= ->] ->]. auto.
  - intros y. destruct y as [| | | | | | | | | | | | | kvs' |]; try tags_differ.
    simpl.
    rewrite (equal_map_eq
               (fun p q : variant_data * variant_data =>
                  variant_eq (fst p) (fst q) && variant_eq (snd p) (snd q))
               (fun kv => (normalize (fst kv), normalize (snd kv)))
               (fun kv => nan_free (fst kv) && nan_free (snd kv))).
    + split; [intros [-> ->]; auto | intros [[= ->] ->]; auto].
    + eapply List.Forall_impl; [|exact IH]. intros [k w] [Hk Hw] [k' w'].
      simpl in Hk, Hw |- *. rewrite !andb_true_iff, Hk, Hw. split.
      * intros [[-> ->] [-> ->]]. auto.
      * intros [[= -> ->] [-> ->]]. auto.
  - intros y. destruct y as [| | | | | | | | | | | | | | ys c]; try tags_differ.
    simpl. rewrite (equal_map_eq variant_eq normalize nan_free xs IH). split.
    + intros [-> ->]. auto.
    + intros [[= ->] ->]. auto.
Qed.

(** C5, as the claim states it, fails for equality: the view that shallow
    decoding yields from the encoding of a NaN is not equal to itself, and
    neither is a list that holds it, because [eq_predicate] compares two
    reals with [==]. *)
Lemma view_of_nan_is_unequal_to_itself :
  parse_shallow Bin.decode Bin.nan_bytes v_none 0 9 = ((true, 9), v_real S754_nan)
  /\ nan_free (v_real S754_nan) = false
  /\ variant_eq (v_real S754_nan) (v_real S754_nan) = false
  /\ variant_eq (v_list [v_real S754_nan] 1) (v_list [v_real S754_nan] 1) = false.
Proof. repeat split; reflexivity. Qed.

(** C5, amended: [operator<] on views compares first by tag index: values
    with different tags are ordered as their indexes are; values with the
    same tag are ordered by the natural order of their payloads, strings as
    sequences of bytes and containers as sequences of their elements.
    Equality is structural on the values that hold no NaN: [x == y] iff [x]
    holds no NaN and [x] and [y] are the same value up to the capacity of
    their lists and the sign of their zero reals; a value that holds a NaN
    is equal to nothing.  Hence values with different tags are unequal, and
    containers are equal iff they have the same length and pairwise equal
    elements, whatever the capacity of a list. *)
Theorem variant_less_by_tag_then_payload :
  (forall x y, variant_less x y = value_order x y)
  /\ (forall x y, get_tag x <> get_tag y ->
                  (variant_less x y = true <-> index x < index y))
  /\ (forall x y, get_tag x = get_tag y -> variant_less x y = payload_order x y)
  /\ (forall x y, get_tag x <> get_tag y -> variant_eq x y = false)
  /\ (forall xs ys,
        variant_eq (v_set xs) (v_set ys) = true
        <-> length xs = length ys /\ Forall2 (fun x y => variant_eq x y = true) xs ys)
  /\ (forall kvs kvs',
        variant_eq (v_table kvs) (v_table kvs') = true
        <-> length kvs = length kvs'
            /\ Forall2 (fun p q => variant_eq (fst p) (fst q) = true
                                   /\ variant_eq (snd p) (snd q) = true) kvs kvs')
  /\ (forall xs c ys c',
        variant_eq (v_list xs c) (v_list ys c') = true
        <-> length xs = length ys /\ Forall2 (fun x y => variant_eq x y = true) xs ys)
  /\ (forall x y,
        variant_eq x y = true <-> normalize x = normalize y /\ nan_free x = true).
Proof.
  split; [|split; [|split; [|split; [|split; [|split; [|split]]]]]].
  - exact variant_less_value_order.
  - intros x y Hne. rewrite variant_less_value_order. unfold value_order.
    destruct (Nat.compare_spec (index x) (index y)) as [Heq | Hlt | Hgt].
    + exfalso. apply Hne. now apply tag_index_injective.
    + split; [intros _; exact Hlt | reflexivity].
    + split; [discriminate | lia].
  - intros x y Heq. rewrite variant_less_value_order. unfold value_order, index.
    now rewrite Heq, Nat.compare_refl.
  - exact variant_tags_differ_unequal.
  - intros xs ys. simpl. apply equal_structural.
  - intros kvs kvs'. simpl. apply (equal_entries variant_eq).
  - intros xs c ys c'. simpl. apply equal_structural.
  - exact variant_eq_normalize.
Qed.

Lemma variant_less_by_tag_witness :
  variant_less (v_count 5%Z) (v_integer (-3)%Z) = true
  /\ variant_less (v_string "ab") (v_string "b") = true
  /\ variant_eq (v_list [v_real (S754_zero true); v_count 1%Z] 8)
                (v_list [v_real (S754_zero false); v_count 1%Z] 2) = true
  /\ variant_eq (v_count 1%Z) (v_count 2%Z) = false.
Proof.
  pose proof variant_less_by_tag_then_payload
    as (_ & Htags & Hpayload & _ & _ & _ & _ & Heq).
  split; [|split; [|split]].
  - apply (Htags (v_count 5%Z) (v_integer (-3)%Z)); [discriminate | unfold index; simpl; lia].
  - rewrite (Hpayload (v_string "ab") (v_string "b") eq_refl). reflexivity.
  - apply Heq. split; reflexivity.
  - apply not_true_is_false. intros H. apply Heq in H as [H _]. discriminate H.
Defined.

Lemma lex_lt_irreflexive {A : Type} (lt gt : A -> A -> bool) (xs : list A) :
  Forall (fun x => lt x x = false /\ gt x x = false) xs ->
  Std.lex_lt lt gt xs xs = false.
Proof.
  induction 1 as [|a xs [Hlt Hgt] _ IH]; simpl; [reflexivity|]. now rewrite Hlt, Hgt.
Qed.

Lemma boolean_less_irreflexive (b : bool) : boolean_less b b = false.
Proof. now destruct b. Qed.

Lemma real_less_irreflexive (r : real) : real_less r r = false.
Proof.
  unfold real_less, SFltb. destruct r as [s | s | | s m e]; simpl; try reflexivity.
  - now destruct s.
  - rewrite Z.compare_refl.
    change (Pos.compare_cont Eq m m) with (Pos.compare m m).
    rewrite Pos.compare_refl. now destruct s.
Qed.

Lemma string_less_irreflexive (s : string) : string_less s s = false.
Proof.
  unfold string_less, Std.lexicographical_compare. apply lex_lt_irreflexive.
  apply List.Forall_forall. intros a _. unfold byte_less. now rewrite N.ltb_irrefl.
Qed.

Lemma subnet_less_irreflexive (s : subnet) : subnet_less s s = false.
Proof. unfold subnet_less, Std.pair_less. simpl. now rewrite !Z.ltb_irrefl. Qed.

Lemma port_less_irreflexive (p : port) : port_less p p = false.
Proof. unfold port_less, Std.pair_less. simpl. now rewrite !Z.ltb_irrefl. Qed.

(** No value is before itself, NaN or not. *)
Theorem variant_less_irreflexive (x : variant_data) : variant_less x x = false.
Proof.
  assert (variant_less x x = false /\ variant_greater x x = false) as [Hless _];
    [|exact Hless].
  induction x as [x Hx | xs IH | kvs IH | xs capacity IH] using variant_data_induction.
  - destruct x; try discriminate Hx; simpl; split;
      auto using Z.ltb_irrefl, boolean_less_irreflexive, real_less_irreflexive,
                 string_less_irreflexive, subnet_less_irreflexive,
                 port_less_irreflexive.
  - rewrite variant_greater_flip. simpl. split; now apply lex_lt_irreflexive.
  - rewrite variant_greater_flip. simpl. split; apply lex_lt_irreflexive;
      (eapply List.Forall_impl; [|exact IH]); intros [k w] [[Hk Hk'] [Hw Hw']];
      simpl in *; now rewrite Hk, Hk', Hw, Hw'.
  - rewrite variant_greater_flip. simpl. split; now apply lex_lt_irreflexive.
Qed.

(** The owning copies of two well-formed views compare as the views do. *)
Theorem to_data_monotone (x y : variant_data) :
  well_formed x = true -> well_formed y = true ->
  data_less (to_data x) (to_data y) = variant_less x y.
Proof.
  intros Hx Hy. rewrite (to_data_mirror x Hx), (to_data_mirror y Hy).
  apply mirror_less.
Qed.

Lemma to_data_monotone_witness :
  data_less (to_data (v_set [v_count 1%Z; v_count 2%Z]))
            (to_data (v_set [v_count 1%Z; v_count 3%Z])) = true.
Proof.
  rewrite (to_data_monotone (v_set [v_count 1%Z; v_count 2%Z])
                            (v_set [v_count 1%Z; v_count 3%Z]) eq_refl eq_refl).
  reflexivity.
Defined.

(** A view that holds no NaN is equal to itself; the view of a NaN is
    not. *)
Theorem variant_eq_reflexive_without_nan :
  (forall v, nan_free v = true -> variant_eq v v = true)
  /\ variant_eq (v_real S754_nan) (v_real S754_nan) = false.
Proof.
  assert (forall (A : Type) (pred : A -> A -> bool) (xs : list A),
            Forall (fun x => pred x x = true) xs -> Std.equal pred xs xs = true) as Hequal.
  { intros A pred xs. induction 1 as [|a xs Ha _ IH]; simpl; [reflexivity|].
    now rewrite Ha, IH. }
  split; [|reflexivity].
  intros v.
  induction v as [v Hv | xs IH | kvs IH | xs capacity IH] using variant_data_induction.
  - destruct v; try discriminate Hv; simpl; intros Hnan;
      auto using Z.eqb_refl, Bool.eqb_reflx, string_eq_refl, subnet_eq_refl, port_eq_refl.
    apply real_eq_refl. now apply negb_true_iff.
  - simpl. intros Hnan. apply Hequal.
    apply List.Forall_forall. intros x Hx. rewrite List.Forall_forall in IH.
    apply IH; [exact Hx|]. rewrite forallb_forall in Hnan. now apply Hnan.
  - simpl. intros Hnan.
    apply (Hequal _ (fun p q : variant_data * variant_data =>
                       variant_eq (fst p) (fst q) && variant_eq (snd p) (snd q))).
    apply List.Forall_forall. intros kv Hkv. rewrite List.Forall_forall in IH.
    rewrite forallb_forall in Hnan. specialize (Hnan kv Hkv).
    apply andb_true_iff in Hnan as [Hk Hw].
    destruct (IH kv Hkv) as [IHk IHw]. now rewrite IHk, IHw.
  - simpl. intros Hnan. apply Hequal.
    apply List.Forall_forall. intros x Hx. rewrite List.Forall_forall in IH.
    apply IH; [exact Hx|]. rewrite forallb_forall in Hnan. now apply Hnan.
Qed.

Lemma variant_eq_reflexive_witness : variant_eq sample_view sample_view = true.
Proof. apply (proj1 variant_eq_reflexive_without_nan). reflexivity. Defined.

Lemma equal_map_left {A A' B : Type} (f : A -> A') (pred : A -> B -> bool)
    (pred' : A' -> B -> bool) (xs : list A) :
  Forall (fun x => forall y, pred' (f x) y = pred x y) xs ->
  forall ys, Std.equal pred' (map f xs) ys = Std.equal pred xs ys.
Proof.
  induction 1 as [|x xs Hx _ IH]; intros [|y ys]; simpl; try reflexivity.
  now rewrite Hx, IH.
Qed.

Lemma mirror_compares_as_view (x : variant_data) :
  forall y, data_eq_variant (mirror x) y = variant_eq x y.
Proof.
  induction x as [x Hx | xs IH | kvs IH | xs capacity IH] using variant_data_induction.
  - intros y. destruct x; try discriminate Hx; destruct y; reflexivity.
  - intros y. destruct y; try reflexivity. simpl. now apply equal_map_left.
  - intros y. destruct y as [| | | | | | | | | | | | | kvs' |]; try reflexivity. simpl.
    apply (equal_map_left (fun kv => (mirror (fst kv), mirror (snd kv)))
             (fun p q : variant_data * variant_data =>
                variant_eq (fst p) (fst q) && variant_eq (snd p) (snd q))
             (fun (p : data * data) (q : variant_data * variant_data) =>
                data_eq_variant (fst p) (fst q) && data_eq_variant (snd p) (snd q))).
    eapply List.Forall_impl; [|exact IH]. intros [k w] [Hk Hw] [k' w']. simpl.
    now rewrite Hk, Hw.
  - intros y. destruct y; try reflexivity. simpl. now apply equal_map_left.
Qed.

(** The owning copy of a well-formed view compares with any view as the
    view itself does. *)
Theorem to_data_compares_as_view (x y : variant_data) :
  well_formed x = true -> data_eq_variant (to_data x) y = variant_eq x y.
Proof. intros Hx. rewrite (to_data_mirror x Hx). apply mirror_compares_as_view. Qed.

Lemma to_data_compares_witness :
  data_eq_variant (to_data sample_view) (v_list [] 0) = false.
Proof. now rewrite (to_data_compares_as_view sample_view (v_list [] 0) eq_refl). Defined.

(** *** The handlers *)

(** The list handler keeps what it is given, in the order of arrival, and
    its list never holds more than its capacity. *)
Theorem list_handler_keeps_order (items : list variant_data) (h : decoder_handler) :
  exists capacity,
    fold_left handler_put items (begin_list h) = decoder_handler_list items capacity
    /\ length items <= capacity.
Proof.
  assert (forall rest result capacity,
            length result <= capacity ->
            exists capacity',
              fold_left handler_put rest (decoder_handler_list result capacity)
              = decoder_handler_list (result ++ rest) capacity'
              /\ length (result ++ rest) <= capacity') as Hgrow.
  { induction rest as [|x rest IH]; intros result capacity Hfits; simpl.
    - exists capacity. now rewrite app_nil_r.
    - destruct (IH (result ++ [x])
                   (if length result <? capacity then capacity
                    else Nat.max 1 (2 * capacity))) as (capacity' & Heq & Hfits').
      + rewrite length_app. simpl.
        destruct (Nat.ltb_spec (length result) capacity); lia.
      + exists capacity'. rewrite <- app_assoc in Heq, Hfits'. now split. }
  apply (Hgrow items [] 0). simpl. lia.
Qed.

(** *** [parse_shallow] *)

(** C9: [parse_shallow] reports success iff the decoder succeeded and
    stopped at [end]; the position it returns is the decoder's; when the
    decoder succeeds and leaves bytes behind, [parse_shallow] reports
    failure. *)
Theorem parse_shallow_accepts_whole_input
    (decode : memory -> nat -> nat -> decoder_handler -> bool * nat * decoder_handler)
    (mem : memory) (this : variant_data) (begin end_ : nat) :
  let decoded := decode mem begin end_ (decoder_handler_value this) in
  let ok := fst (fst decoded) in
  let pos := snd (fst decoded) in
  let result := fst (parse_shallow decode mem this begin end_) in
  (fst result = true <-> ok = true /\ pos = end_)
  /\ snd result = pos
  /\ (ok = true -> pos <> end_ -> fst result = false).
Proof.
  unfold parse_shallow.
  destruct (decode mem begin end_ (decoder_handler_value this)) as [[ok pos] h].
  simpl. destruct ok; simpl.
  - destruct (Nat.eqb_spec pos end_) as [Heq | Hne]; simpl.
    + repeat split; try assumption. intros _ Hne. now elim Hne.
    + repeat split; try discriminate; try reflexivity.
      intros [_ Heq]. now elim Hne.
  - repeat split; try discriminate. intros [Hok _]. discriminate Hok.
Qed.

(** The bytes of the boolean [true] followed by one more byte: the decoder
    of the binary format succeeds after two bytes, and [parse_shallow] on
    all three reports failure at position 2; on the first two it succeeds. *)
Lemma parse_shallow_trailing_byte_witness :
  fst (parse_shallow Bin.decode [x01; x01; x00] v_none 0 3) = (false, 2)
  /\ parse_shallow Bin.decode [x01; x01; x00] v_none 0 2 = ((true, 2), v_boolean true).
Proof.
  split; [|reflexivity].
  pose proof (parse_shallow_accepts_whole_input
                Bin.decode [x01; x01; x00] v_none 0 3) as H.
  cbv zeta in H. destruct H as (_ & Hpos & Hfail).
  apply injective_projections; simpl.
  - apply Hfail; [reflexivity | discriminate].
  - exact Hpos.
Defined.

(** *** Equality is symmetric and transitive *)

Lemma SFcompare_swap (x y : spec_float) :
  SFcompare y x = option_map CompOpp (SFcompare x y).
Proof.
  destruct x as [s | s | | s m e], y as [s' | s' | | s' m' e']; simpl;
    try reflexivity; try (now destruct s); try (now destruct s');
    try (now destruct s, s').
  change (Pos.compare_cont Eq m m') with (Pos.compare m m').
  change (Pos.compare_cont Eq m' m) with (Pos.compare m' m).
  rewrite (Z.compare_antisym e e'), (Pos.compare_antisym m m').
  destruct s, s'; simpl; try reflexivity;
    destruct (e ?= e')%Z; simpl; try reflexivity;
    destruct (m ?= m')%positive; reflexivity.
Qed.

Lemma real_eq_sym (x y : real) : real_eq x y = real_eq y x.
Proof.
  unfold real_eq, SFeqb. rewrite (SFcompare_swap x y).
  destruct (SFcompare x y) as [[]|]; reflexivity.
Qed.

Lemma string_eq_sym (s t : string) : string_eq s t = string_eq t s.
Proof.
  unfold string_eq. apply StdFacts.equal_flip. apply List.Forall_forall. intros a _ b.
  apply Ascii.eqb_sym.
Qed.

Lemma subnet_eq_sym (s t : subnet) : subnet_eq s t = subnet_eq t s.
Proof. unfold subnet_eq. now rewrite (Z.eqb_sym (network s)), (Z.eqb_sym (prefix_length s)). Qed.

Lemma port_eq_sym (p q : port) : port_eq p q = port_eq q p.
Proof.
  unfold port_eq, protocol_eq.
  now rewrite (Z.eqb_sym (number p)), (Z.eqb_sym (protocol_index (proto p))).
Qed.

Lemma bool_eqb_sym (a b : bool) : Bool.eqb a b = Bool.eqb b a.
Proof. now destruct a, b. Qed.

(** [operator==] on views does not depend on the order of its operands. *)
Lemma variant_eq_sym (x : variant_data) : forall y, variant_eq x y = variant_eq y x.
Proof.
  induction x as [x Hx | xs IH | kvs IH | xs capacity IH]
    using variant_data_induction.
  - intros y. destruct x; try discriminate Hx; destruct y; simpl; try reflexivity;
      auto using Z.eqb_sym, bool_eqb_sym, real_eq_sym, string_eq_sym, subnet_eq_sym,
                 port_eq_sym.
  - intros y. destruct y; try reflexivity. simpl. now apply StdFacts.equal_flip.
  - intros y. destruct y as [| | | | | | | | | | | | | kvs' |]; try reflexivity. simpl.
    apply (StdFacts.equal_flip (fun p q : variant_data * variant_data =>
                         variant_eq (fst p) (fst q) && variant_eq (snd p) (snd q))).
    eapply List.Forall_impl; [|exact IH]. intros [k w] [Hk Hw] [k' w']. simpl.
    now rewrite Hk, Hw.
  - intros y. destruct y; try reflexivity. simpl. now apply StdFacts.equal_flip.
Qed.

(** The two mixed overloads of [operator==] agree. *)
Lemma variant_eq_data_flip (x : variant_data) :
  forall d, variant_eq_data x d = data_eq_variant d x.
Proof.
  induction x as [x Hx | xs IH | kvs IH | xs capacity IH]
    using variant_data_induction.
  - intros y. destruct x; try discriminate Hx; destruct y; simpl; try reflexivity;
      auto using Z.eqb_sym, bool_eqb_sym, real_eq_sym, string_eq_sym, subnet_eq_sym,
                 port_eq_sym.
  - intros y. destruct y; try reflexivity. simpl. now apply StdFacts.equal_flip.
  - intros y. destruct y as [| | | | | | | | | | | | | kvs' |]; try reflexivity. simpl.
    apply (StdFacts.equal_flip (fun (p : variant_data * variant_data) (q : data * data) =>
                         variant_eq_data (fst p) (fst q) && variant_eq_data (snd p) (snd q))
                      (fun (p : data * data) (q : variant_data * variant_data) =>
                         data_eq_variant (fst p) (fst q) && data_eq_variant (snd p) (snd q))).
    eapply List.Forall_impl; [|exact IH]. intros [k w] [Hk Hw] [k' w']. simpl.
    now rewrite Hk, Hw.
  - intros y. destruct y; try reflexivity. simpl. now apply StdFacts.equal_flip.
Qed.

(** The three overloads of [operator==] agree when their operands are
    exchanged: equality of two views is symmetric, and a view compared with
    an owning value gives what the owning value compared with the view
    gives. *)
Theorem variant_eq_symmetric :
  (forall x y, variant_eq x y = variant_eq y x)
  /\ (forall v d, variant_eq_data v d = data_eq_variant d v).
Proof. split; [exact variant_eq_sym | exact variant_eq_data_flip]. Qed.

Lemma real_eq_trans (x y z : real) :
  real_eq x y = true -> real_eq y z = true -> real_eq x z = true.
Proof.
  intros Hxy Hyz.
  destruct (real_eq_spec x y Hxy) as [(s & s' & -> & ->) | [-> _]]; [|exact Hyz].
  destruct (real_eq_spec _ z Hyz) as [(t & t' & _ & ->) | [<- _]]; reflexivity.
Qed.

Lemma string_eq_trans (x y z : string) :
  string_eq x y = true -> string_eq y z = true -> string_eq x z = true.
Proof. rewrite !string_eq_spec. congruence. Qed.

Lemma subnet_eq_trans (x y z : subnet) :
  subnet_eq x y = true -> subnet_eq y z = true -> subnet_eq x z = true.
Proof. unfold subnet_eq. rewrite !andb_true_iff, !Z.eqb_eq. intuition congruence. Qed.

Lemma port_eq_trans (x y z : port) :
  port_eq x y = true -> port_eq y z = true -> port_eq x z = true.
Proof.
  unfold port_eq, protocol_eq. rewrite !andb_true_iff, !Z.eqb_eq. intuition congruence.
Qed.

Lemma bool_eqb_trans (x y z : bool) :
  Bool.eqb x y = true -> Bool.eqb y z = true -> Bool.eqb x z = true.
Proof. now destruct x, y, z. Qed.

Lemma Z_eqb_trans (x y z : Z) :
  (x =? y)%Z = true -> (y =? z)%Z = true -> (x =? z)%Z = true.
Proof. rewrite !Z.eqb_eq. congruence. Qed.

Lemma variant_eq_trans (x : variant_data) :
  forall y z, variant_eq x y = true -> variant_eq y z = true -> variant_eq x z = true.
Proof.
  induction x as [x Hx | xs IH | kvs IH | xs capacity IH]
    using variant_data_induction.
  - intros y z. destruct x; try discriminate Hx; destruct y; try discriminate;
      destruct z; try discriminate; simpl;
      eauto using Z_eqb_trans, bool_eqb_trans, real_eq_trans, string_eq_trans,
                  subnet_eq_trans, port_eq_trans.
  - intros y z. destruct y; try discriminate. destruct z; try discriminate. simpl.
    now apply StdFacts.equal_trans.
  - intros y z. destruct y as [| | | | | | | | | | | | | kvs' |]; try discriminate.
    destruct z as [| | | | | | | | | | | | | kvs'' |]; try discriminate. simpl.
    apply (StdFacts.equal_trans (fun p q : variant_data * variant_data =>
                          variant_eq (fst p) (fst q) && variant_eq (snd p) (snd q))).
    eapply List.Forall_impl; [|exact IH]. intros [k w] [Hk Hw] [k' w'] [k'' w'']. simpl.
    rewrite !andb_true_iff. intros [? ?] [? ?]. split; eauto.
  - intros y z. destruct y; try discriminate. destruct z; try discriminate. simpl.
    now apply StdFacts.equal_trans.
Qed.

(** [operator==] on views is transitive, NaN or not (a view that holds a
    NaN is equal to nothing). *)
Theorem variant_eq_transitive (x y z : variant_data) :
  variant_eq x y = true -> variant_eq y z = true -> variant_eq x z = true.
Proof. apply variant_eq_trans. Qed.

(** Lists of a zero, whatever its sign and whatever their capacities. *)
Lemma variant_eq_transitive_witness :
  variant_eq (v_list [v_real (S754_zero false)] 1) (v_list [v_real (S754_zero false)] 4)
  = true.
Proof.
  apply (variant_eq_transitive _ (v_list [v_real (S754_zero true)] 2)); reflexivity.
Defined.

(** *** The order is a strict weak order *)

(** Each payload order is asymmetric, and [x < z] implies [x < y] or
    [y < z]; for reals when [y] is a number. *)
Lemma Z_ltb_asym (x y : Z) : (x <? y)%Z = true -> (y <? x)%Z = false.
Proof. rewrite Z.ltb_lt, Z.ltb_ge. lia. Qed.

Lemma Z_ltb_cotrans (x y z : Z) :
  (x <? z)%Z = true -> (x <? y)%Z = true \/ (y <? z)%Z = true.
Proof. rewrite !Z.ltb_lt. lia. Qed.

Lemma boolean_less_asym (x y : bool) : boolean_less x y = true -> boolean_less y x = false.
Proof. now destruct x, y. Qed.

Lemma boolean_less_cotrans (x y z : bool) :
  boolean_less x z = true -> boolean_less x y = true \/ boolean_less y z = true.
Proof. destruct x, y, z; simpl; auto. Qed.

Lemma byte_less_asym (a b : ascii) : byte_less a b = true -> byte_less b a = false.
Proof. unfold byte_less. rewrite N.ltb_lt, N.ltb_ge. lia. Qed.

Lemma byte_less_cotrans (a b c : ascii) :
  byte_less a c = true -> byte_less a b = true \/ byte_less b c = true.
Proof. unfold byte_less. rewrite !N.ltb_lt. lia. Qed.

Lemma string_less_asym (s t : string) : string_less s t = true -> string_less t s = false.
Proof. apply StdFacts.lexicographical_compare_asym. exact byte_less_asym. Qed.

Lemma string_less_cotrans (s t u : string) :
  string_less s u = true -> string_less s t = true \/ string_less t u = true.
Proof.
  apply (StdFacts.lexicographical_compare_cotrans byte_less (fun _ => True)).
  - exact byte_less_asym.
  - intros a b c _ _ _. apply byte_less_cotrans.
  - apply List.Forall_forall. easy.
  - apply List.Forall_forall. easy.
  - apply List.Forall_forall. easy.
Qed.

Lemma subnet_less_asym (s t : subnet) : subnet_less s t = true -> subnet_less t s = false.
Proof. apply StdFacts.pair_less_asym; exact Z_ltb_asym. Qed.

Lemma subnet_less_cotrans (s t u : subnet) :
  subnet_less s u = true -> subnet_less s t = true \/ subnet_less t u = true.
Proof.
  apply (StdFacts.pair_less_cotrans Z.ltb Z.ltb (fun _ => True) (fun _ => True));
    auto using Z_ltb_asym, Z_ltb_cotrans.
Qed.

Lemma port_less_asym (p q : port) : port_less p q = true -> port_less q p = false.
Proof. apply StdFacts.pair_less_asym; exact Z_ltb_asym. Qed.

Lemma port_less_cotrans (p q r : port) :
  port_less p r = true -> port_less p q = true \/ port_less q r = true.
Proof.
  apply (StdFacts.pair_less_cotrans Z.ltb Z.ltb (fun _ => True) (fun _ => True));
    auto using Z_ltb_asym, Z_ltb_cotrans.
Qed.

Lemma real_less_swap (x y : real) :
  real_less y x = match SFcompare x y with Some Gt => true | _ => false end.
Proof.
  unfold real_less, SFltb. rewrite (SFcompare_swap x y).
  destruct (SFcompare x y) as [[]|]; reflexivity.
Qed.

Lemma real_less_asym (x y : real) : real_less x y = true -> real_less y x = false.
Proof.
  rewrite (real_less_swap x y). unfold real_less, SFltb.
  destruct (SFcompare x y) as [[]|]; congruence.
Qed.

Lemma real_less_cotrans (x y z : real) :
  is_nan y = false ->
  real_less x z = true -> real_less x y = true \/ real_less y z = true.
Proof.
  unfold real_less, SFltb.
  destruct x as [s | s | | s m e], y as [s' | s' | | s' m' e'],
           z as [s'' | s'' | | s'' m'' e'']; simpl; intros Hnan; try discriminate;
    try (destruct s); try (destruct s'); try (destruct s''); simpl;
    try discriminate; auto;
    change (Pos.compare_cont Eq) with Pos.compare;
    destruct (Z.compare_spec e e''), (Z.compare_spec e e'), (Z.compare_spec e' e'');
    simpl; try discriminate; auto; try (exfalso; lia);
    destruct (Pos.compare_spec m m''), (Pos.compare_spec m m'), (Pos.compare_spec m' m'');
    simpl; try discriminate; auto; exfalso; lia.
Qed.

(** No view is both before and after another one. *)
Lemma variant_less_asym_both (x : variant_data) :
  forall y, variant_less x y = true -> variant_greater x y = false.
Proof.
  induction x as [x Hx | xs IH | kvs IH | xs capacity IH]
    using variant_data_induction.
  - intros y. destruct x; try discriminate Hx; destruct y; simpl; try discriminate;
      auto using Z_ltb_asym, boolean_less_asym, real_less_asym, string_less_asym,
                 subnet_less_asym, port_less_asym.
  - intros y. destruct y; simpl; try discriminate; auto. now apply StdFacts.lex_asym.
  - intros y. destruct y as [| | | | | | | | | | | | | kvs' |]; simpl;
      try discriminate; auto.
    apply StdFacts.lex_asym. eapply List.Forall_impl; [|exact IH].
    intros [k w] [Hk Hw] [k' w']. simpl in Hk, Hw |- *.
    destruct (variant_less k k') eqn:Hlt.
    + now rewrite (Hk k' Hlt).
    + destruct (variant_greater k k'); simpl; [discriminate|]. apply Hw.
  - intros y. destruct y; simpl; try discriminate; auto. now apply StdFacts.lex_asym.
Qed.

Lemma variant_less_asym (x y : variant_data) :
  variant_less x y = true -> variant_less y x = false.
Proof. rewrite <- (variant_greater_flip x y). apply variant_less_asym_both. Qed.

Lemma In_height (x : variant_data) (xs : list variant_data) :
  In x xs -> height x <= fold_right Nat.max 0 (map height xs).
Proof.
  induction xs as [|a xs IH]; simpl; [easy|]. intros [-> | Hin]; [lia|].
  specialize (IH Hin). lia.
Qed.

Lemma In_height_entries (kv : variant_data * variant_data)
    (kvs : list (variant_data * variant_data)) :
  In kv kvs ->
  Nat.max (height (fst kv)) (height (snd kv))
  <= fold_right Nat.max 0
       (map (fun kv => Nat.max (height (fst kv)) (height (snd kv))) kvs).
Proof.
  induction kvs as [|a kvs IH]; simpl; [easy|]. intros [-> | Hin]; [lia|].
  specialize (IH Hin). lia.
Qed.

Lemma within_elements (n : nat) (xs : list variant_data) :
  fold_right Nat.max 0 (map height xs) <= n -> forallb nan_free xs = true ->
  Forall (within n) xs.
Proof.
  intros Hh Hnan. apply List.Forall_forall. intros x Hx. split.
  - pose proof (In_height x xs Hx). lia.
  - rewrite forallb_forall in Hnan. now apply Hnan.
Qed.

Lemma within_entries (n : nat) (kvs : list (variant_data * variant_data)) :
  fold_right Nat.max 0
    (map (fun kv => Nat.max (height (fst kv)) (height (snd kv))) kvs) <= n ->
  forallb (fun kv => nan_free (fst kv) && nan_free (snd kv)) kvs = true ->
  Forall (fun kv => within n (fst kv) /\ within n (snd kv)) kvs.
Proof.
  intros Hh Hnan. apply List.Forall_forall. intros kv Hkv.
  pose proof (In_height_entries kv kvs Hkv).
  rewrite forallb_forall in Hnan. specialize (Hnan kv Hkv).
  apply andb_true_iff in Hnan as [Hk Hw]. repeat split; try assumption; lia.
Qed.

(** By induction on the height: on views without a NaN, [x < z] implies
    [x < y] or [y < z]. *)
Lemma variant_less_cotrans_within (n : nat) :
  forall x y z, within n x -> within n y -> within n z ->
    variant_less x z = true -> variant_less x y = true \/ variant_less y z = true.
Proof.
  induction n as [|n IH]; intros x y z [Hhx Hnx] [Hhy Hny] [Hhz Hnz];
    rewrite !variant_less_value_order; unfold value_order;
    destruct (Nat.compare_spec (index x) (index z)) as [Hxz | Hxz | Hxz];
    destruct (Nat.compare_spec (index x) (index y)) as [Hxy | Hxy | Hxy];
    destruct (Nat.compare_spec (index y) (index z)) as [Hyz | Hyz | Hyz];
    auto; try discriminate; try (exfalso; lia);
    destruct x; try (exfalso; cbv in Hhx; lia);
    destruct y; try (exfalso; cbv in Hxy; discriminate Hxy);
    destruct z; try (exfalso; cbv in Hxz; discriminate Hxz);
    simpl in *;
    auto using Z_ltb_cotrans, boolean_less_cotrans, string_less_cotrans,
               subnet_less_cotrans, port_less_cotrans.
  all: try (apply real_less_cotrans; now apply negb_true_iff).
  all: try apply string_less_cotrans.
  - apply (StdFacts.lexicographical_compare_cotrans variant_less (within n));
      auto using variant_less_asym; apply within_elements; (lia || assumption).
  - apply (StdFacts.lexicographical_compare_cotrans
             (Std.pair_less variant_less variant_less)
             (fun kv => within n (fst kv) /\ within n (snd kv))).
    + apply StdFacts.pair_less_asym; exact variant_less_asym.
    + apply StdFacts.pair_less_cotrans; auto using variant_less_asym.
    + apply within_entries; (lia || assumption).
    + apply within_entries; (lia || assumption).
    + apply within_entries; (lia || assumption).
  - apply (StdFacts.lexicographical_compare_cotrans variant_less (within n));
      auto using variant_less_asym; apply within_elements; (lia || assumption).
Qed.

Lemma variant_less_cotrans (x y z : variant_data) :
  nan_free x = true -> nan_free y = true -> nan_free z = true ->
  variant_less x z = true -> variant_less x y = true \/ variant_less y z = true.
Proof.
  intros Hx Hy Hz.
  apply (variant_less_cotrans_within (Nat.max (height x) (Nat.max (height y) (height z))));
    (split; [lia | assumption]).
Qed.

Lemma variant_less_trans (x y z : variant_data) :
  nan_free x = true -> nan_free y = true -> nan_free z = true ->
  variant_less x y = true -> variant_less y z = true -> variant_less x z = true.
Proof.
  intros Hx Hy Hz Hxy Hyz.
  destruct (variant_less_cotrans x z y Hx Hz Hy Hxy) as [H | H]; [exact H|].
  apply variant_less_asym in Hyz. congruence.
Qed.

(** [operator<] on views is asymmetric.  On views without a NaN it is
    transitive, and so is being unordered: it is a strict weak order, as the
    sets and tables of views need it.  With a NaN it is not transitive: the
    list [1.0, 5] is before [NaN, 6], which is before [0.0, 7], but [1.0, 5]
    is not before [0.0, 7]. *)
Theorem variant_less_strict_weak_order :
  (forall x y, variant_less x y = true -> variant_less y x = false)
  /\ (forall x y z,
        nan_free x = true -> nan_free y = true -> nan_free z = true ->
        variant_less x y = true -> variant_less y z = true -> variant_less x z = true)
  /\ (forall x y z,
        nan_free x = true -> nan_free y = true -> nan_free z = true ->
        variant_less x y = false -> variant_less y x = false ->
        variant_less y z = false -> variant_less z y = false ->
        variant_less x z = false /\ variant_less z x = false)
  /\ (let '(x, y, z) := unordered_lists in
      variant_less x y = true /\ variant_less y z = true /\ variant_less x z = false).
Proof.
  split; [exact variant_less_asym|]. split; [exact variant_less_trans|].
  split; [|repeat split; reflexivity].
  intros x y z Hx Hy Hz Hxy Hyx Hyz Hzy. split.
  - destruct (variant_less x z) eqn:Hxz; [|reflexivity].
    destruct (variant_less_cotrans x y z Hx Hy Hz Hxz); congruence.
  - destruct (variant_less z x) eqn:Hzx; [|reflexivity].
    destruct (variant_less_cotrans z y x Hz Hy Hx Hzx); congruence.
Qed.

Lemma variant_less_strict_weak_order_witness :
  variant_less (v_set [v_count 1%Z]) (v_set [v_count 3%Z]) = true
  /\ variant_less (v_set [v_count 3%Z]) (v_set [v_count 1%Z]) = false.
Proof.
  split.
  - apply (proj1 (proj2 variant_less_strict_weak_order)
                 (v_set [v_count 1%Z]) (v_set [v_count 2%Z]) (v_set [v_count 3%Z]));
      reflexivity.
  - apply (proj1 variant_less_strict_weak_order). reflexivity.
Defined.

(** *** Equality and order *)

Lemma real_eq_unordered (x y : real) :
  real_eq x y = true -> real_less x y = false /\ real_less y x = false.
Proof.
  rewrite (real_less_swap x y). unfold real_eq, real_less, SFeqb, SFltb.
  destruct (SFcompare x y) as [[]|]; try discriminate. now split.
Qed.

Lemma SFcompare_defined (x y : real) :
  is_nan x = false -> is_nan y = false -> exists c, SFcompare x y = Some c.
Proof. destruct x, y; simpl; try discriminate; eauto. Qed.

Lemma real_unordered_eq (x y : real) :
  is_nan x = false -> is_nan y = false ->
  real_less x y = false -> real_less y x = false -> real_eq x y = true.
Proof.
  intros Hx Hy. rewrite (real_less_swap x y). unfold real_eq, real_less, SFeqb, SFltb.
  destruct (SFcompare_defined x y Hx Hy) as [[] ->]; congruence.
Qed.

Lemma byte_unordered_eq (a b : ascii) :
  byte_less a b = false -> byte_less b a = false -> Ascii.eqb a b = true.
Proof.
  unfold byte_less. rewrite !N.ltb_ge. intros Hab Hba. apply Ascii.eqb_eq.
  rewrite <- (ascii_N_embedding a), <- (ascii_N_embedding b). f_equal. lia.
Qed.

Lemma string_eq_unordered (s t : string) :
  string_eq s t = true -> string_less s t = false /\ string_less t s = false.
Proof.
  rewrite string_eq_spec. intros <-.
  split; apply string_less_irreflexive.
Qed.

Lemma string_unordered_eq (s t : string) :
  string_less s t = false -> string_less t s = false -> string_eq s t = true.
Proof.
  unfold string_less, string_eq.
  rewrite <- (StdFacts.lexicographical_compare_flip byte_less (list_ascii_of_string s)
                                           (list_ascii_of_string t)).
  unfold Std.lexicographical_compare.
  apply (StdFacts.unordered_equal Ascii.eqb byte_less (fun x y => byte_less y x)
                         (fun _ => True) (fun _ => True));
    try (apply List.Forall_forall; intros; auto using byte_unordered_eq).
Qed.

Lemma pair_unordered (a b a' b' : Z) :
  Std.pair_less Z.ltb Z.ltb (a, b) (a', b') = false ->
  Std.pair_less Z.ltb Z.ltb (a', b') (a, b) = false ->
  a = a' /\ b = b'.
Proof.
  unfold Std.pair_less. simpl.
  destruct (Z.ltb_spec a a'), (Z.ltb_spec a' a), (Z.ltb_spec b b'), (Z.ltb_spec b' b);
    simpl; try discriminate; intros _ _; lia.
Qed.

Lemma subnet_eq_unordered (s t : subnet) :
  subnet_eq s t = true -> subnet_less s t = false /\ subnet_less t s = false.
Proof.
  unfold subnet_eq, subnet_less, Std.pair_less. simpl.
  rewrite andb_true_iff, !Z.eqb_eq. intros [-> ->]. now rewrite !Z.ltb_irrefl.
Qed.

Lemma subnet_unordered_eq (s t : subnet) :
  subnet_less s t = false -> subnet_less t s = false -> subnet_eq s t = true.
Proof.
  unfold subnet_less, subnet_eq. intros H1 H2.
  destruct (pair_unordered _ _ _ _ H1 H2) as [-> ->]. now rewrite !Z.eqb_refl.
Qed.

Lemma port_eq_unordered (p q : port) :
  port_eq p q = true -> port_less p q = false /\ port_less q p = false.
Proof.
  unfold port_eq, protocol_eq, port_less, Std.pair_less. simpl.
  rewrite andb_true_iff, !Z.eqb_eq. intros [-> ->]. now rewrite !Z.ltb_irrefl.
Qed.

Lemma port_unordered_eq (p q : port) :
  port_less p q = false -> port_less q p = false -> port_eq p q = true.
Proof.
  unfold port_less, port_eq, protocol_eq. intros H1 H2.
  destruct (pair_unordered _ _ _ _ H1 H2) as [-> ->]. now rewrite !Z.eqb_refl.
Qed.

Lemma boolean_eq_unordered (x y : bool) :
  Bool.eqb x y = true -> boolean_less x y = false /\ boolean_less y x = false.
Proof. now destruct x, y. Qed.

Lemma boolean_unordered_eq (x y : bool) :
  boolean_less x y = false -> boolean_less y x = false -> Bool.eqb x y = true.
Proof. now destruct x, y. Qed.

Lemma Z_eq_unordered (x y : Z) :
  (x =? y)%Z = true -> (x <? y)%Z = false /\ (y <? x)%Z = false.
Proof. rewrite Z.eqb_eq, !Z.ltb_ge. lia. Qed.

Lemma Z_unordered_eq (x y : Z) :
  (x <? y)%Z = false -> (y <? x)%Z = false -> (x =? y)%Z = true.
Proof. rewrite Z.eqb_eq, !Z.ltb_ge. lia. Qed.

(** Equal views are unordered. *)
Lemma variant_eq_unordered_both (x : variant_data) :
  forall y, variant_eq x y = true ->
            variant_less x y = false /\ variant_greater x y = false.
Proof.
  induction x as [x Hx | xs IH | kvs IH | xs capacity IH]
    using variant_data_induction.
  - intros y. destruct x; try discriminate Hx; destruct y; simpl; try discriminate;
      auto using Z_eq_unordered, boolean_eq_unordered, real_eq_unordered,
                 string_eq_unordered, subnet_eq_unordered, port_eq_unordered.
  - intros y. destruct y; simpl; try discriminate. now apply StdFacts.equal_unordered.
  - intros y. destruct y as [| | | | | | | | | | | | | kvs' |]; simpl; try discriminate.
    apply (StdFacts.equal_unordered
             (fun p q : variant_data * variant_data =>
                variant_eq (fst p) (fst q) && variant_eq (snd p) (snd q))).
    eapply List.Forall_impl; [|exact IH].
    intros [k w] [Hk Hw] [k' w']. simpl in Hk, Hw |- *.
    rewrite andb_true_iff. intros [Hkk Hww].
    destruct (Hk k' Hkk) as [-> ->]. destruct (Hw w' Hww) as [-> ->]. now split.
  - intros y. destruct y; simpl; try discriminate. now apply StdFacts.equal_unordered.
Qed.

Lemma variant_eq_unordered (x y : variant_data) :
  variant_eq x y = true -> variant_less x y = false /\ variant_less y x = false.
Proof. rewrite <- (variant_greater_flip x y). apply variant_eq_unordered_both. Qed.

Lemma Forall_nan_free (xs : list variant_data) :
  forallb nan_free xs = true -> Forall (fun x => nan_free x = true) xs.
Proof. rewrite forallb_forall. apply List.Forall_forall. Qed.

(** Unordered views without a NaN are equal. *)
Lemma variant_unordered_eq_both (x : variant_data) :
  forall y, nan_free x = true -> nan_free y = true ->
            variant_less x y = false -> variant_greater x y = false ->
            variant_eq x y = true.
Proof.
  induction x as [x Hx | xs IH | kvs IH | xs capacity IH]
    using variant_data_induction.
  - intros y. destruct x; try discriminate Hx; destruct y; simpl; try discriminate;
      auto using Z_unordered_eq, boolean_unordered_eq, string_unordered_eq,
                 subnet_unordered_eq, port_unordered_eq.
    rewrite !negb_true_iff. apply real_unordered_eq.
  - intros y. destruct y; simpl; try discriminate. intros Hx Hy.
    apply (StdFacts.unordered_equal variant_eq variant_less variant_greater
             (fun x => nan_free x = true) (fun x => nan_free x = true));
      auto using Forall_nan_free.
  - intros y. destruct y as [| | | | | | | | | | | | | kvs' |]; simpl; try discriminate.
    intros Hx Hy.
    apply (StdFacts.unordered_equal
             (fun p q : variant_data * variant_data =>
                variant_eq (fst p) (fst q) && variant_eq (snd p) (snd q)) _ _
             (fun kv => nan_free (fst kv) && nan_free (snd kv) = true)
             (fun kv => nan_free (fst kv) && nan_free (snd kv) = true)).
    + eapply List.Forall_impl; [|exact IH].
      intros [k w] [Hk Hw] [k' w']. simpl in Hk, Hw |- *.
      rewrite !andb_true_iff. intros [Hnk Hnw] [Hnk' Hnw'].
      destruct (variant_less k k') eqn:Hlt; [discriminate|].
      destruct (variant_greater k k') eqn:Hgt; [discriminate|]. simpl.
      intros Hl Hg. split; [now apply Hk | now apply Hw].
    + rewrite forallb_forall in Hx. now apply List.Forall_forall.
    + rewrite forallb_forall in Hy. now apply List.Forall_forall.
  - intros y. destruct y; simpl; try discriminate. intros Hx Hy.
    apply (StdFacts.unordered_equal variant_eq variant_less variant_greater
             (fun x => nan_free x = true) (fun x => nan_free x = true));
      auto using Forall_nan_free.
Qed.

Lemma variant_unordered_eq (x y : variant_data) :
  nan_free x = true -> nan_free y = true ->
  variant_less x y = false -> variant_less y x = false -> variant_eq x y = true.
Proof.
  rewrite <- (variant_greater_flip x y). apply variant_unordered_eq_both.
Qed.

(** Equal views are unordered, and two views without a NaN that are
    unordered are equal: on such views [operator==] is the equivalence of
    [operator<], so a set of views holds no two equal elements. *)
Theorem variant_eq_iff_unordered :
  (forall x y, variant_eq x y = true ->
               variant_less x y = false /\ variant_less y x = false)
  /\ (forall x y, nan_free x = true -> nan_free y = true ->
                  variant_less x y = false -> variant_less y x = false ->
                  variant_eq x y = true).
Proof. split; [exact variant_eq_unordered | exact variant_unordered_eq]. Qed.

Lemma variant_eq_iff_unordered_witness :
  variant_eq (v_real (S754_zero true)) (v_real (S754_zero false)) = true
  /\ variant_less (v_string "a") (v_string "a") = false.
Proof.
  split.
  - apply (proj2 variant_eq_iff_unordered); reflexivity.
  - apply (proj1 variant_eq_iff_unordered (v_string "a") (v_string "a")). reflexivity.
Defined.

(** *** The handlers keep their containers well formed *)

Lemma forallb_set_emplace (f : variant_data -> bool) (x : variant_data)
    (s : list variant_data) :
  f x = true -> forallb f s = true ->
  forallb f (Std.set_emplace variant_less x s) = true.
Proof.
  intros Hx Hs. apply forallb_forall. intros y Hy.
  apply StdFacts.In_set_emplace in Hy as [-> | Hy]; [exact Hx|].
  rewrite forallb_forall in Hs. now apply Hs.
Qed.

Lemma forallb_map_emplace (f : variant_data * variant_data -> bool)
    (k v : variant_data) (m : list (variant_data * variant_data)) :
  f (k, v) = true -> forallb f m = true ->
  forallb f (Std.map_emplace variant_less k v m) = true.
Proof.
  intros Hx Hs. apply forallb_forall. intros y Hy.
  apply StdFacts.In_map_emplace in Hy as [-> | Hy]; [exact Hx|].
  rewrite forallb_forall in Hs. now apply Hs.
Qed.

Lemma nan_free_keys (m : list (variant_data * variant_data)) :
  forallb (fun kv => nan_free (fst kv) && nan_free (snd kv)) m = true ->
  Forall (fun k => nan_free k = true) (map fst m).
Proof.
  rewrite forallb_forall. intros H. apply List.Forall_forall. intros k Hk.
  apply in_map_iff in Hk as (e & <- & He). specialize (H e He).
  now apply andb_true_iff in H as [? _].
Qed.

(** Every handler keeps what it holds well formed when it is given a
    well-formed item. *)
Lemma handler_put_ok (h : decoder_handler) (item : variant_data) :
  handler_ok h = true -> well_formed item = true -> nan_free item = true ->
  handler_ok (handler_put h item) = true.
Proof.
  unfold handler_ok.
  destruct h as [result | result capacity | result | result [key|]]; simpl;
    rewrite ?andb_true_r; rewrite ?andb_true_iff.
  - intros _ -> ->. auto.
  - intros [[Hcap Hwf] Hnan] Hi Hn. rewrite !forallb_app. simpl.
    rewrite Hwf, Hnan, Hi, Hn, length_app. simpl. repeat split.
    apply Nat.leb_le. apply Nat.leb_le in Hcap.
    destruct (Nat.ltb_spec (length result) capacity); lia.
  - intros [[Hasc Hwf] Hnan] Hi Hn. repeat split.
    + apply (StdFacts.set_emplace_ascending variant_less (fun x => nan_free x = true)
                                   variant_less_trans);
        [exact Hn | now apply Forall_nan_free | exact Hasc].
    + now apply forallb_set_emplace.
    + now apply forallb_set_emplace.
  - intros [[[Hasc Hwf] Hnan] [Hkw Hkn]] Hi Hn. repeat split.
    + apply (StdFacts.map_emplace_ascending variant_less (fun x => nan_free x = true)
                                   variant_less_trans);
        [exact Hkn | now apply nan_free_keys | exact Hasc].
    + apply forallb_map_emplace; [simpl; now rewrite Hkw, Hi | exact Hwf].
    + apply forallb_map_emplace; [simpl; now rewrite Hkn, Hn | exact Hnan].
  - intros [[Hasc Hwf] Hnan] Hi Hn. auto.
Qed.

Lemma fold_handler_put_ok (items : list variant_data) (h : decoder_handler) :
  handler_ok h = true ->
  Forall (fun item => well_formed item = true /\ nan_free item = true) items ->
  handler_ok (fold_left handler_put items h) = true.
Proof.
  intros Hh Hitems. revert h Hh.
  induction Hitems as [|item items [Hwf Hnan] _ IH]; intros h Hh; simpl; [exact Hh|].
  apply IH. now apply handler_put_ok.
Qed.

(** The calls for one value amount to one item for the handler. *)
Lemma feed_put (e : events) (h : decoder_handler) :
  feed h e = handler_put h (view_of e).
Proof. destruct e; reflexivity. Qed.

Lemma fold_feed (es : list events) (h : decoder_handler) :
  fold_left feed es h = fold_left handler_put (map view_of es) h.
Proof.
  revert h; induction es as [|e es IH]; intros h; simpl; [reflexivity|].
  now rewrite feed_put, IH.
Qed.

(** Induction on the calls, with the hypothesis for the nested ones. *)
Section EventsInduction.

Variable P : events -> Prop.
Hypothesis on_value_case : forall arg, P (on_value arg).
Hypothesis on_list_case : forall nested, Forall P nested -> P (on_list nested).
Hypothesis on_set_case : forall nested, Forall P nested -> P (on_set nested).
Hypothesis on_table_case : forall nested, Forall P nested -> P (on_table nested).

Lemma events_induction : forall e, P e.
Proof using P on_value_case on_list_case on_set_case on_table_case.
  fix IH 1. intros [arg | nested | nested | nested].
  - apply on_value_case.
  - apply on_list_case. induction nested; constructor; [apply IH | assumption].
  - apply on_set_case. induction nested; constructor; [apply IH | assumption].
  - apply on_table_case. induction nested; constructor; [apply IH | assumption].
Qed.

End EventsInduction.

Lemma scalar_well_formed (v : variant_data) : is_scalar v = true -> well_formed v = true.
Proof. destruct v; try discriminate; reflexivity. Qed.

Lemma handler_result_ok (h : decoder_handler) :
  handler_ok h = true ->
  well_formed (handler_result h) = true /\ nan_free (handler_result h) = true.
Proof.
  unfold handler_ok. rewrite !andb_true_iff. tauto.
Qed.

Lemma nested_ok (nested : list events) (h : decoder_handler) :
  handler_ok h = true ->
  Forall (fun e => plain e = true ->
                   well_formed (view_of e) = true /\ nan_free (view_of e) = true) nested ->
  forallb plain nested = true ->
  well_formed (handler_result (fold_left feed nested h)) = true
  /\ nan_free (handler_result (fold_left feed nested h)) = true.
Proof.
  intros Hh IH Hplain. apply handler_result_ok. rewrite fold_feed.
  apply fold_handler_put_ok; [exact Hh|].
  apply List.Forall_forall. intros item Hitem.
  apply in_map_iff in Hitem as (e & <- & He).
  rewrite List.Forall_forall in IH. apply IH; [exact He|].
  rewrite forallb_forall in Hplain. now apply Hplain.
Qed.

Lemma view_of_ok (e : events) :
  plain e = true -> well_formed (view_of e) = true /\ nan_free (view_of e) = true.
Proof.
  induction e as [arg | nested IH | nested IH | nested IH] using events_induction.
  - simpl. rewrite andb_true_iff. intros [Hs Hn]. split; [now apply scalar_well_formed | exact Hn].
  - intros Hplain. apply (nested_ok nested (begin_list (decoder_handler_value v_none)));
      [reflexivity | exact IH | exact Hplain].
  - intros Hplain. apply (nested_ok nested (begin_set (decoder_handler_value v_none)));
      [reflexivity | exact IH | exact Hplain].
  - intros Hplain. apply (nested_ok nested (begin_table (decoder_handler_value v_none)));
      [reflexivity | exact IH | exact Hplain].
Qed.

Lemma existsb_eq_unordered (item : variant_data) (xs : list variant_data) :
  existsb (variant_eq item) xs = true ->
  exists y, In y xs /\ variant_less item y = false /\ variant_less y item = false.
Proof.
  rewrite existsb_exists. intros (y & Hy & Heq). exists y. split; [exact Hy|].
  now apply variant_eq_unordered.
Qed.

Lemma existsb_eq_ordered (item : variant_data) (xs : list variant_data) :
  nan_free item = true -> forallb nan_free xs = true ->
  existsb (variant_eq item) xs = false ->
  Forall (fun y => variant_less item y = true \/ variant_less y item = true) xs.
Proof.
  intros Hitem Hxs Hnone. apply List.Forall_forall. intros y Hy.
  rewrite forallb_forall in Hxs.
  destruct (variant_less item y) eqn:Hlt; [now left|].
  destruct (variant_less y item) eqn:Hgt; [now right|].
  exfalso. assert (existsb (variant_eq item) xs = true) as Hex; [|congruence].
  apply existsb_exists. exists y. split; [exact Hy|].
  apply variant_unordered_eq; auto.
Qed.

(** A handler that holds well-formed data without a NaN (the object it
    fills and, for the table handler, the key that waits for its value) and
    is given a well-formed item without a NaN ([value], [end_list],
    [end_set], [end_table]) holds well-formed data without a NaN afterwards:
    a list within its capacity, a set strictly ascending, a table with
    strictly ascending keys.  Nothing is stated for a handler or an item
    that holds a NaN. *)
Theorem handler_put_keeps_well_formed (h : decoder_handler) (item : variant_data) :
  handler_ok h = true -> well_formed item = true -> nan_free item = true ->
  handler_ok (handler_put h item) = true.
Proof. apply handler_put_ok. Qed.

Lemma handler_put_keeps_witness :
  handler_ok (handler_put (decoder_handler_set [v_count 1%Z; v_count 3%Z]) (v_count 2%Z)) = true.
Proof. apply handler_put_keeps_well_formed; reflexivity. Defined.

(** [decoder_handler_set], for a set that is well formed (strictly
    ascending, as are the containers in it) and holds no NaN, and an item
    that holds no NaN: an item equal to an element of the set is dropped
    and the set stays as it is; an item equal to no element is added and
    the set grows by one; no element is removed. *)
Theorem set_handler_drops_equal_items (result : list variant_data) (item : variant_data) :
  well_formed (v_set result) = true -> nan_free (v_set result) = true ->
  nan_free item = true ->
  exists result',
    handler_put (decoder_handler_set result) item = decoder_handler_set result'
    /\ (existsb (variant_eq item) result = true -> result' = result)
    /\ (existsb (variant_eq item) result = false ->
        In item result' /\ length result' = S (length result))
    /\ (forall y, In y result -> In y result').
Proof.
  simpl. rewrite andb_true_iff. intros [Hasc Hwf] Hnan Hitem.
  exists (Std.set_emplace variant_less item result).
  split; [reflexivity|]. split; [|split].
  - intros Hdup. apply existsb_eq_unordered in Hdup as (y & Hy & Hlt & Hgt).
    apply (StdFacts.set_emplace_duplicate variant_less (fun x => nan_free x = true)
                                 variant_less_trans item y);
      auto using Forall_nan_free.
  - intros Hnew. apply StdFacts.set_emplace_new. now apply existsb_eq_ordered.
  - intros y. apply StdFacts.set_emplace_keeps.
Qed.

Lemma set_handler_drops_witness :
  exists result',
    handler_put (decoder_handler_set [v_real (S754_zero false)]) (v_real (S754_zero true))
    = decoder_handler_set result'
    /\ result' = [v_real (S754_zero false)].
Proof.
  destruct (set_handler_drops_equal_items [v_real (S754_zero false)]
              (v_real (S754_zero true)) eq_refl eq_refl eq_refl)
    as (result' & Hput & Hdup & _).
  exists result'. split; [exact Hput | now apply Hdup].
Defined.

(** [decoder_handler_table]: items arrive as key, value, key, value.  For a
    table that is well formed (strictly ascending keys) and holds no NaN,
    and a key that holds no NaN, whatever the value: after the key and the
    value no key waits; a key that is equal to a key of the table does not
    replace the entry, the table stays as it is and the first value wins; a
    key equal to no key of the table adds its entry, and the table grows by
    one; no entry is removed. *)
Theorem table_handler_first_value_wins
    (result : list (variant_data * variant_data)) (key val : variant_data) :
  well_formed (v_table result) = true -> nan_free (v_table result) = true ->
  nan_free key = true ->
  exists result',
    handler_put (handler_put (decoder_handler_table result None) key) val
    = decoder_handler_table result' None
    /\ (existsb (variant_eq key) (map fst result) = true -> result' = result)
    /\ (existsb (variant_eq key) (map fst result) = false ->
        In (key, val) result' /\ length result' = S (length result))
    /\ (forall e, In e result -> In e result').
Proof.
  simpl. rewrite andb_true_iff. intros [Hasc Hwf] Hnan Hkey.
  exists (Std.map_emplace variant_less key val result).
  split; [reflexivity|]. split; [|split].
  - intros Hdup. apply existsb_eq_unordered in Hdup as (y & Hy & Hlt & Hgt).
    apply (StdFacts.map_emplace_duplicate variant_less (fun x => nan_free x = true)
                                 variant_less_trans key y);
      auto using nan_free_keys.
  - intros Hnew. apply StdFacts.map_emplace_new. apply existsb_eq_ordered; auto.
    apply forallb_forall. intros k Hk. pose proof (nan_free_keys result Hnan) as Hkeys.
    rewrite List.Forall_forall in Hkeys. now apply Hkeys.
  - intros e. apply StdFacts.map_emplace_keeps.
Qed.

Lemma table_handler_first_value_witness :
  exists result',
    handler_put (handler_put (decoder_handler_table [(v_string "k", v_count 1%Z)] None)
                             (v_string "k")) (v_count 2%Z)
    = decoder_handler_table result' None
    /\ result' = [(v_string "k", v_count 1%Z)].
Proof.
  destruct (table_handler_first_value_wins [(v_string "k", v_count 1%Z)]
              (v_string "k") (v_count 2%Z) eq_refl eq_refl eq_refl)
    as (result' & Hput & Hdup & _).
  exists result'. split; [exact Hput | now apply Hdup].
Defined.

(** However a decoder nests its calls, when it passes no NaN the view that
    [decoder_handler_value] ends up with does not depend on what the object
    held before, is well formed and holds no NaN; hence its owning copy is
    equal to it. *)
Theorem fed_view_is_well_formed (e : events) :
  plain e = true ->
  (forall this, handler_result (feed (decoder_handler_value this) e) = view_of e)
  /\ well_formed (view_of e) = true
  /\ nan_free (view_of e) = true
  /\ data_eq_variant (to_data (view_of e)) (view_of e) = true.
Proof.
  intros Hplain. destruct (view_of_ok e Hplain) as [Hwf Hnan].
  split; [|split; [exact Hwf | split; [exact Hnan|]]].
  - intros this. now rewrite feed_put.
  - rewrite (to_data_mirror _ Hwf). now apply mirror_equal.
Qed.

Lemma fed_view_witness :
  view_of (on_set [on_value (v_count 2%Z); on_value (v_count 1%Z); on_value (v_count 2%Z)])
  = v_set [v_count 1%Z; v_count 2%Z]
  /\ well_formed (v_set [v_count 1%Z; v_count 2%Z]) = true.
Proof.
  split; [reflexivity|].
  apply (fed_view_is_well_formed
           (on_set [on_value (v_count 2%Z); on_value (v_count 1%Z); on_value (v_count 2%Z)])).
  reflexivity.
Defined.

End ValueFacts.

(** ** Topics and filters *)

Module FilterFacts.

Import Filter.

Lemma append_assoc (a b c : string) :
  String.append (String.append a b) c = String.append a (String.append b c).
Proof.
  induction a as [|x a IH]; [reflexivity|].
  change (String x (String.append (String.append a b) c)
          = String x (String.append a (String.append b c))).
  now rewrite IH.
Qed.

Lemma starts_with_spec (p t : string) :
  starts_with p t = true <-> exists s, t = String.append p s.
Proof.
  revert t; induction p as [|a p IH]; intros t; simpl.
  - split; [intros _; now exists t | reflexivity].
  - destruct t as [|b t].
    + split; [discriminate | intros [s Hs]; discriminate Hs].
    + rewrite andb_true_iff, Ascii.eqb_eq, IH. split.
      * intros [-> [s ->]]. now exists s.
      * intros [s Hs]. injection Hs as -> ->. split; [reflexivity | now exists s].
Qed.

(** [p] is a prefix of [t] on a [/]-boundary. *)
Lemma prefix_of_spec (p t : topic) :
  prefix_of p t = true
  <-> t = p \/ exists s, t = String.append p (String.append "/" s).
Proof.
  unfold prefix_of. rewrite orb_true_iff, String.eqb_eq, starts_with_spec.
  split; (intros [H | [s Hs]]; [now left | right; exists s]).
  - now rewrite <- append_assoc.
  - now rewrite append_assoc.
Qed.

Lemma prefix_of_refl (p : topic) : prefix_of p p = true.
Proof. apply prefix_of_spec. now left. Qed.

Lemma prefix_of_trans (p q r : topic) :
  prefix_of p q = true -> prefix_of q r = true -> prefix_of p r = true.
Proof.
  rewrite !prefix_of_spec. intros [-> | [s ->]] [-> | [s' ->]].
  - now left.
  - right. now exists s'.
  - right. now exists s.
  - right. exists (String.append s (String.append "/" s')).
    now rewrite !append_assoc.
Qed.

Lemma covers_spec (F : filter_type) (t : topic) :
  covers F t = true <-> exists p, In p F /\ prefix_of p t = true.
Proof. unfold covers. apply existsb_exists. Qed.

Lemma covers_false (F : filter_type) (t p : topic) :
  covers F t = false -> In p F -> prefix_of p t = false.
Proof.
  intros Hcov Hin. destruct (prefix_of p t) eqn:Hp; [|reflexivity].
  assert (covers F t = true) by (apply covers_spec; eauto). congruence.
Qed.

Lemma In_sorted_insert (t x : topic) (F : filter_type) :
  In x (sorted_insert t F) <-> x = t \/ In x F.
Proof.
  induction F as [|p F IH]; simpl.
  - intuition.
  - destruct (Value.string_less p t); simpl; [rewrite IH|]; intuition.
Qed.

Lemma NoDup_sorted_insert (t : topic) (F : filter_type) :
  ~ In t F -> List.NoDup F -> List.NoDup (sorted_insert t F).
Proof.
  induction F as [|p F IH]; simpl; intros Hnot Hnd.
  - constructor; [intros [] | constructor].
  - destruct (Value.string_less p t).
    + apply List.NoDup_cons_iff in Hnd as [Hp Hnd]. apply List.NoDup_cons.
      * rewrite In_sorted_insert. intros [-> | Hin]; [apply Hnot; now left | now apply Hp].
      * apply IH; [intros Hin; apply Hnot; now right | exact Hnd].
    + apply List.NoDup_cons; assumption.
Qed.

Lemma In_filter_insert (t x : topic) (F : filter_type) :
  In x (filter_insert t F) -> x = t \/ In x F.
Proof.
  unfold filter_insert. destruct (covers F t); [now right|].
  rewrite In_sorted_insert, filter_In. intuition.
Qed.

(** Insertion keeps a filter free of subsumed entries. *)
Lemma filter_insert_subsumption_free (t : topic) (F : filter_type) :
  subsumption_free F -> subsumption_free (filter_insert t F).
Proof.
  intros [Hnd Hfree]. unfold filter_insert.
  destruct (covers F t) eqn:Hcov; [now split|]. split.
  - apply NoDup_sorted_insert; [|now apply List.NoDup_filter].
    rewrite filter_In. intros [Hin _].
    apply (covers_false _ _ _ Hcov) in Hin. now rewrite prefix_of_refl in Hin.
  - intros p q. rewrite !In_sorted_insert, !filter_In.
    intros [-> | [Hp Hp']] [-> | [Hq Hq']] Hne.
    + now elim Hne.
    + now apply negb_true_iff.
    + now apply (covers_false F).
    + now apply Hfree.
Qed.

(** After the insertion of [t] the filter covers what it covered before and
    what [t] covers. *)
Lemma covers_filter_insert (t u : topic) (F : filter_type) :
  covers (filter_insert t F) u = true
  <-> covers F u = true \/ prefix_of t u = true.
Proof.
  unfold filter_insert. destruct (covers F t) eqn:Hcov.
  - split; [now left|]. intros [H | H]; [exact H|].
    apply covers_spec in Hcov as (p & Hin & Hp). apply covers_spec.
    exists p. split; [exact Hin | now apply (prefix_of_trans p t u)].
  - rewrite !covers_spec. split.
    + intros (p & Hin & Hp). apply In_sorted_insert in Hin as [-> | Hin].
      * now right.
      * apply filter_In in Hin as [Hin _]. left. eauto.
    + intros [(p & Hin & Hp) | Ht].
      * destruct (prefix_of t p) eqn:Htp.
        -- exists t. split; [apply In_sorted_insert; now left|].
           now apply (prefix_of_trans t p u).
        -- exists p. split; [|exact Hp]. apply In_sorted_insert. right.
           apply filter_In. split; [exact Hin | now rewrite Htp].
      * exists t. split; [apply In_sorted_insert; now left | exact Ht].
Qed.

Lemma filter_merge_subsumption_free (F G : filter_type) :
  subsumption_free F -> subsumption_free (filter_merge F G).
Proof.
  unfold filter_merge. revert F; induction G as [|t G IH]; intros F HF; simpl.
  - exact HF.
  - apply IH. now apply filter_insert_subsumption_free.
Qed.

Lemma In_filter_merge (F G : filter_type) (x : topic) :
  In x (filter_merge F G) -> In x F \/ In x G.
Proof.
  unfold filter_merge. revert F; induction G as [|t G IH]; intros F; simpl.
  - now left.
  - intros Hin. apply IH in Hin as [Hin | Hin]; [|now right; right].
    apply In_filter_insert in Hin as [-> | Hin]; [right; now left | now left].
Qed.

Lemma covers_filter_merge (F G : filter_type) (u : topic) :
  covers (filter_merge F G) u = true <-> covers F u = true \/ covers G u = true.
Proof.
  unfold filter_merge. revert F; induction G as [|t G IH]; intros F; simpl.
  - split; [now left | intros [H | H]; [exact H | discriminate H]].
  - rewrite IH, covers_filter_insert, orb_true_iff. tauto.
Qed.

Lemma fold_merge_subsumption_free (Fs : list filter_type) (acc : filter_type) :
  subsumption_free acc -> subsumption_free (fold_left filter_merge Fs acc).
Proof.
  revert acc; induction Fs as [|F Fs IH]; intros acc Hacc; simpl.
  - exact Hacc.
  - apply IH. now apply filter_merge_subsumption_free.
Qed.

Lemma In_fold_merge (Fs : list filter_type) (acc : filter_type) (x : topic) :
  In x (fold_left filter_merge Fs acc) -> In x acc \/ exists F, In F Fs /\ In x F.
Proof.
  revert acc; induction Fs as [|F Fs IH]; intros acc; simpl.
  - now left.
  - intros Hin. apply IH in Hin as [Hin | (G & HG & Hin)].
    + apply In_filter_merge in Hin as [Hin | Hin]; [now left | right; exists F; auto].
    + right. exists G. auto.
Qed.

Lemma covers_fold_merge (Fs : list filter_type) (acc : filter_type) (u : topic) :
  covers (fold_left filter_merge Fs acc) u = true
  <-> covers acc u = true \/ exists F, In F Fs /\ covers F u = true.
Proof.
  revert acc; induction Fs as [|F Fs IH]; intros acc; simpl.
  - split; [now left | intros [H | (F & [] & _)]; exact H].
  - rewrite IH, covers_filter_merge. split.
    + intros [[H | H] | (G & HG & H)]; [now left | right; exists F; auto | right; exists G; auto].
    + intros [H | (G & [<- | HG] & H)]; [left; now left | left; now right | right; exists G; auto].
Qed.

(** The canonical union has no subsumed entry, takes its entries from the
    filters, and covers exactly what one of the filters covers. *)
Lemma canonical_union_subsumption_free (Fs : list filter_type) :
  subsumption_free (canonical_union Fs).
Proof.
  apply fold_merge_subsumption_free. split; [constructor | intros p q []].
Qed.

Lemma In_canonical_union (Fs : list filter_type) (x : topic) :
  In x (canonical_union Fs) -> exists F, In F Fs /\ In x F.
Proof. intros Hin. now apply In_fold_merge in Hin as [[] | H]. Qed.

Lemma covers_canonical_union (Fs : list filter_type) (u : topic) :
  covers (canonical_union Fs) u = true <-> exists F, In F Fs /\ covers F u = true.
Proof.
  unfold canonical_union. rewrite covers_fold_merge.
  split; [intros [H | H]; [discriminate H | exact H] | now right].
Qed.

End FilterFacts.

(** ** Routing *)

Module RoutingFacts.

Import Filter FilterFacts Routing.

(** *** Maps as lists *)

Lemma In_map_to_list {A : Type} (m : gmap endpoint_id A) (p : endpoint_id) (x : A) :
  In (p, x) (map_to_list m) <-> m !! p = Some x.
Proof. rewrite <- list_elem_of_In. apply elem_of_map_to_list. Qed.

Lemma map_is_fmap {A B : Type} (f : A -> B) (l : list A) : map f l = f <$> l.
Proof. induction l as [|x l IH]; simpl; [reflexivity | now rewrite IH]. Qed.

Lemma NoDup_keys {A : Type} (m : gmap endpoint_id A) :
  List.NoDup (map fst (map_to_list m)).
Proof. rewrite map_is_fmap. apply NoDup_ListNoDup, NoDup_fst_map_to_list. Qed.

Lemma In_peer_filters (ep : endpoint) (F : filter_type) :
  In F (map snd (map_to_list (peers ep))) <-> exists p, peers ep !! p = Some F.
Proof.
  rewrite in_map_iff. split.
  - intros ([p G] & <- & Hin). exists p. now apply In_map_to_list.
  - intros [p Hp]. exists (p, F). split; [reflexivity | now apply In_map_to_list].
Qed.

(** *** Local delivery *)

Lemma enqueue_filter (msg : message) (sub : filter_type * list message) :
  fst (enqueue msg sub) = fst sub.
Proof. unfold enqueue. now destruct (covers (fst sub) (fst msg)). Qed.

Lemma deliver_local_filters (msg : message) (ep : endpoint) :
  map fst (local_subscribers (deliver_local msg ep)) = map fst (local_subscribers ep).
Proof.
  simpl. rewrite List.map_map. apply map_ext. intros sub. apply enqueue_filter.
Qed.

(** A message that the union of the local filters does not cover changes
    nothing. *)
Lemma deliver_local_uncovered (msg : message) (ep : endpoint) :
  covers (aggregate_local_filter ep) (fst msg) = false -> deliver_local msg ep = ep.
Proof.
  intros Hcov. destruct ep as [subs prs]. unfold deliver_local. simpl. f_equal.
  rewrite <- (map_id subs) at 2. apply map_ext_in. intros sub Hsub.
  unfold enqueue. destruct (covers (fst sub) (fst msg)) eqn:Hsubcov; [|reflexivity].
  assert (covers (aggregate_local_filter {| local_subscribers := subs; peers := prs |})
                 (fst msg) = true) as Hagg; [|congruence].
  apply covers_canonical_union. exists (fst sub). split; [|exact Hsubcov].
  simpl. now apply in_map.
Qed.

Lemma deliver_all_peers (msgs : list message) (ep : endpoint) :
  peers (deliver_all msgs ep) = peers ep.
Proof.
  unfold deliver_all. revert ep; induction msgs as [|msg msgs IH]; intros ep; simpl;
    [reflexivity | now rewrite IH].
Qed.

Lemma deliver_all_queues (msgs : list message) (ep : endpoint) :
  local_subscribers (deliver_all msgs ep)
  = map (fun sub => (fst sub,
                     snd sub ++ List.filter (fun msg => covers (fst sub) (fst msg)) msgs))
        (local_subscribers ep).
Proof.
  unfold deliver_all. revert ep; induction msgs as [|msg msgs IH]; intros ep; simpl.
  - rewrite <- (map_id (local_subscribers ep)) at 1. apply map_ext.
    intros [F q]. simpl. now rewrite app_nil_r.
  - rewrite IH. simpl. rewrite List.map_map. apply map_ext. intros [F q].
    unfold enqueue. simpl. destruct (covers F (fst msg)); simpl; [|reflexivity].
    now rewrite <- app_assoc.
Qed.

(** What an endpoint announces to a peer covers what its own subscribers
    or another peer want. *)
Lemma covers_outbound (ep : endpoint) (p : endpoint_id) (t : topic) :
  covers (outbound_filter ep p) t = true
  <-> covers (aggregate_local_filter ep) t = true
      \/ exists q F, q <> p /\ peers ep !! q = Some F /\ covers F t = true.
Proof.
  unfold outbound_filter. rewrite covers_canonical_union. split.
  - intros (F & [<- | HF] & Hcov); [now left | right].
    apply in_map_iff in HF as ([q G] & <- & Hin).
    apply filter_In in Hin as [Hin Hne]. apply In_map_to_list in Hin.
    simpl in Hne. apply negb_true_iff, String.eqb_neq in Hne. eauto.
  - intros [Hcov | (q & F & Hne & Hq & Hcov)].
    + eexists. split; [now left | exact Hcov].
    + exists F. split; [right | exact Hcov]. apply in_map_iff. exists (q, F).
      split; [reflexivity|]. apply filter_In. split; [now apply In_map_to_list|].
      simpl. now apply negb_true_iff, String.eqb_neq.
Qed.

Lemma route_step (hops : nat) (net : network) (at_ : endpoint_id) (src : source)
    (msg : message) (ep : endpoint) :
  net !! at_ = Some ep ->
  route (S hops) net at_ src msg
  = fold_left (fun acc p => route hops acc p (from_peer at_) msg)
              (forward_targets msg src ep) (<[at_ := deliver_local msg ep]> net).
Proof. intros Hat. cbn [route]. now rewrite Hat. Qed.

(** *** The topology *)

Lemma keys_fmap {A B : Type} (f : A -> B) (m : gmap endpoint_id A) :
  map fst (map_to_list (f <$> m)) = map fst (map_to_list m).
Proof.
  rewrite map_to_list_fmap. induction (map_to_list m) as [|[k x] l IH];
    [reflexivity | cbn; now f_equal].
Qed.

Lemma sessions_topology (src : source) (ep ep' : endpoint) :
  (fun _ => tt) <$> peers ep = (fun _ => tt) <$> peers ep' ->
  sessions src ep = sessions src ep'.
Proof.
  intros Heq. unfold sessions.
  rewrite <- (keys_fmap (fun _ => tt) (peers ep)), Heq. now rewrite keys_fmap.
Qed.

Lemma topology_lookup (net : network) (z : endpoint_id) :
  topology net !! z = (fun ep => (fun _ => tt) <$> peers ep) <$> net !! z.
Proof. unfold topology. apply lookup_fmap. Qed.

Lemma topology_some (net net' : network) (z : endpoint_id) (ep : endpoint) :
  topology net = topology net' -> net !! z = Some ep ->
  exists ep', net' !! z = Some ep'
              /\ (fun _ => tt) <$> peers ep = (fun _ => tt) <$> peers ep'.
Proof.
  intros Heq Hz. pose proof (topology_lookup net z) as H1.
  pose proof (topology_lookup net' z) as H2. rewrite Heq, H2, Hz in H1.
  destruct (net' !! z) as [ep'|]; simpl in H1; [|discriminate H1].
  injection H1 as H1. eauto.
Qed.

Lemma topology_none (net net' : network) (z : endpoint_id) :
  topology net = topology net' -> net !! z = None -> net' !! z = None.
Proof.
  intros Heq Hz. pose proof (topology_lookup net z) as H1.
  pose proof (topology_lookup net' z) as H2. rewrite Heq, H2, Hz in H1.
  destruct (net' !! z) as [ep'|]; simpl in H1; [discriminate H1 | reflexivity].
Qed.

Lemma reach_topology (hops : nat) (net net' : network) :
  topology net = topology net' ->
  forall at_ src, reach hops net at_ src = reach hops net' at_ src.
Proof.
  intros Heq. induction hops as [|hops IH]; intros at_ src; cbn [reach]; [reflexivity|].
  destruct (net !! at_) as [ep|] eqn:Hat.
  - destruct (topology_some net net' at_ ep Heq Hat) as (ep' & -> & Hpeers).
    rewrite (sessions_topology src ep ep' Hpeers). f_equal.
    induction (sessions src ep') as [|p ps IHps]; cbn [fold_right]; [reflexivity|].
    now rewrite IH, IHps.
  - now rewrite (topology_none net net' at_ Heq Hat).
Qed.

Lemma topology_size (net net' : network) :
  topology net = topology net' -> size net = size net'.
Proof.
  intros Heq. unfold topology in Heq.
  rewrite <- (map_size_fmap (fun ep => (fun _ => tt) <$> peers ep) net), Heq.
  apply map_size_fmap.
Qed.

Lemma topology_keys (net net' : network) :
  topology net = topology net' ->
  map fst (map_to_list net) = map fst (map_to_list net').
Proof.
  intros Heq. unfold topology in Heq.
  rewrite <- (keys_fmap (fun ep => (fun _ => tt) <$> peers ep) net), Heq.
  apply keys_fmap.
Qed.

Lemma forallb_pointwise {A : Type} (f g : A -> bool) (l : list A) :
  (forall x, f x = g x) -> forallb f l = forallb g l.
Proof. intros Hfg. induction l as [|x l IH]; simpl; [reflexivity | now rewrite Hfg, IH]. Qed.

Lemma loop_free_topology (net net' : network) :
  topology net = topology net' -> loop_free net = loop_free net'.
Proof.
  intros Heq. unfold loop_free.
  rewrite (topology_keys net net' Heq), (topology_size net net' Heq).
  apply forallb_pointwise. intros e. now rewrite (reach_topology _ net net' Heq).
Qed.

Lemma connected_topology (net net' : network) :
  topology net = topology net' -> connected net = connected net'.
Proof.
  intros Heq. unfold connected.
  rewrite (topology_keys net net' Heq), (topology_size net net' Heq).
  apply forallb_pointwise. intros e. now rewrite (reach_topology _ net net' Heq).
Qed.

Lemma topology_insert (net : network) (z : endpoint_id) (ep ep' : endpoint) :
  net !! z = Some ep ->
  (fun _ => tt) <$> peers ep' = (fun _ => tt) <$> peers ep ->
  topology (<[z := ep']> net) = topology net.
Proof.
  intros Hz Heq. unfold topology. rewrite fmap_insert, Heq.
  apply insert_id. now rewrite lookup_fmap, Hz.
Qed.

Lemma linked_topology (net : network) (x y : endpoint_id) :
  linked net x y <-> exists T, topology net !! x = Some T /\ T !! y = Some tt.
Proof.
  unfold linked. rewrite topology_lookup. split.
  - intros (ep & -> & [F HF]). eexists. split; [reflexivity|].
    now rewrite lookup_fmap, HF.
  - intros (T & HT & Hy). destruct (net !! x) as [ep|]; [|discriminate HT].
    injection HT as <-. exists ep. split; [reflexivity|].
    rewrite lookup_fmap in Hy. destruct (peers ep !! y); [eauto | discriminate Hy].
Qed.

Lemma symmetric_topology (net net' : network) :
  topology net = topology net' -> symmetric net -> symmetric net'.
Proof.
  intros Heq Hsym x y Hxy. apply linked_topology. rewrite <- Heq.
  apply linked_topology, Hsym, linked_topology. rewrite Heq.
  now apply linked_topology.
Qed.

Lemma linked_same_topology (net net' : network) (x y : endpoint_id) :
  topology net = topology net' -> linked net x y -> linked net' x y.
Proof.
  intros Heq H. apply linked_topology. rewrite <- Heq. now apply linked_topology.
Qed.

Lemma In_sessions (src : source) (ep : endpoint) (p : endpoint_id) :
  In p (sessions src ep) <-> is_Some (peers ep !! p) /\ is_source src p = false.
Proof.
  unfold sessions. rewrite filter_In, negb_true_iff, in_map_iff. split.
  - intros [([q F] & <- & Hin) Hsrc]. apply In_map_to_list in Hin. split; eauto.
  - intros [[F HF] Hsrc]. split; [|exact Hsrc]. exists (p, F).
    split; [reflexivity | now apply In_map_to_list].
Qed.

(** *** Paths *)

Lemma join_Some (R Rs : option (list endpoint_id)) (l : list endpoint_id) :
  join R Rs = Some l -> exists R' Rs', R = Some R' /\ Rs = Some Rs' /\ l = R' ++ Rs'.
Proof.
  destruct R as [R'|], Rs as [Rs'|]; simpl; intros [=]; subst; eauto.
Qed.

Lemma reach_step (hops : nat) (net : network) (at_ : endpoint_id) (src : source)
    (R : list endpoint_id) :
  reach (S hops) net at_ src = Some R ->
  exists ep Rs,
    net !! at_ = Some ep
    /\ fold_right (fun p Rs => join (reach hops net p (from_peer at_)) Rs)
                  (Some []) (sessions src ep) = Some Rs
    /\ R = at_ :: Rs.
Proof.
  cbn [reach]. destruct (net !! at_) as [ep|]; [|discriminate].
  intros H. apply join_Some in H as (R' & Rs & [= <-] & HRs & ->). eauto.
Qed.

Lemma reach_head (hops : nat) (net : network) (at_ : endpoint_id) (src : source)
    (R : list endpoint_id) :
  reach hops net at_ src = Some R -> In at_ R /\ is_Some (net !! at_).
Proof.
  destruct hops as [|hops]; [discriminate|].
  intros H. apply reach_step in H as (ep & Rs & Hat & _ & ->). split; [now left | eauto].
Qed.

Lemma NoDup_app_inv {A : Type} (l l' : list A) :
  List.NoDup (l ++ l') ->
  List.NoDup l /\ List.NoDup l' /\ forall x, In x l -> ~ In x l'.
Proof.
  induction l as [|a l IH]; simpl; intros Hnd.
  - split; [constructor | split; [exact Hnd | intros x []]].
  - apply List.NoDup_cons_iff in Hnd as [Ha Hnd]. destruct (IH Hnd) as (Hl & Hl' & Hdis).
    split; [|split; [exact Hl'|]].
    + apply List.NoDup_cons; [|exact Hl]. intros Hin. apply Ha, in_or_app. now left.
    + intros x [<- | Hx]; [|now apply Hdis]. intros Hin. apply Ha, in_or_app. now right.
Qed.

Lemma distinct_NoDup (l : list endpoint_id) : distinct l = true <-> List.NoDup l.
Proof.
  induction l as [|x l IH]; simpl.
  - split; [constructor | reflexivity].
  - rewrite andb_true_iff, negb_true_iff, IH, List.NoDup_cons_iff.
    assert (existsb (String.eqb x) l = false <-> ~ In x l) as ->; [|reflexivity].
    rewrite <- not_true_iff_false, existsb_exists. split.
    + intros Hno Hin. apply Hno. exists x. split; [exact Hin | apply String.eqb_refl].
    + intros Hno (y & Hy & Heq). apply String.eqb_eq in Heq as ->. now apply Hno.
Qed.

Lemma In_keys {A : Type} (m : gmap endpoint_id A) (e : endpoint_id) :
  In e (map fst (map_to_list m)) <-> is_Some (m !! e).
Proof.
  rewrite in_map_iff. split.
  - intros ([k x] & <- & Hin). apply In_map_to_list in Hin. eauto.
  - intros [x Hx]. exists (e, x). split; [reflexivity | now apply In_map_to_list].
Qed.

Lemma loop_free_reach (net : network) (e : endpoint_id) :
  loop_free net = true -> is_Some (net !! e) ->
  exists R, reach (size net) net e local = Some R /\ List.NoDup R.
Proof.
  unfold loop_free. rewrite forallb_forall. intros Hall He.
  apply In_keys in He. specialize (Hall e He).
  destruct (reach (size net) net e local) as [R|]; [|discriminate Hall].
  exists R. split; [reflexivity | now apply distinct_NoDup].
Qed.

(** *** Announcements *)

Lemma announce_step (hops : nat) (net : network) (e : endpoint_id) (src : source)
    (ep : endpoint) :
  net !! e = Some ep ->
  announce (S hops) net e src
  = fold_left
      (fun acc p =>
         match acc !! p with
         | None => acc
         | Some remote =>
             announce hops (<[p := set_peer_filter e (outbound_filter ep p) remote]> acc)
                      p (from_peer e)
         end)
      (sessions src ep) net.
Proof. intros He. cbn [announce]. now rewrite He. Qed.

(** An announcement changes no subscriber and no queue. *)
Lemma announce_mailboxes (hops : nat) :
  forall net e src, mailboxes (announce hops net e src) = mailboxes net.
Proof.
  induction hops as [|hops IH]; intros net e src; [reflexivity|].
  destruct (net !! e) as [ep|] eqn:He; [|cbn [announce]; now rewrite He].
  rewrite (announce_step _ _ _ _ _ He). clear He.
  revert net. induction (sessions src ep) as [|p ps IHps]; intros acc; simpl;
    [reflexivity|].
  destruct (acc !! p) as [remote|] eqn:Hp; [|apply IHps].
  rewrite IHps, IH. unfold mailboxes. rewrite fmap_insert. apply insert_id.
  now rewrite lookup_fmap, Hp.
Qed.

Lemma set_peer_filter_topology (p : endpoint_id) (F : filter_type) (ep : endpoint) :
  is_Some (peers ep !! p) ->
  (fun _ => tt) <$> peers (set_peer_filter p F ep) = (fun _ => tt) <$> peers ep.
Proof.
  intros [G HG]. simpl. rewrite fmap_insert. apply insert_id.
  now rewrite lookup_fmap, HG.
Qed.

(** An announcement opens and closes no session. *)
Lemma announce_topology (hops : nat) :
  forall net e src, symmetric net -> topology (announce hops net e src) = topology net.
Proof.
  induction hops as [|hops IH]; intros net e src Hsym; [reflexivity|].
  destruct (net !! e) as [ep|] eqn:He; [|cbn [announce]; now rewrite He].
  rewrite (announce_step _ _ _ _ _ He).
  assert (forall p, In p (sessions src ep) -> linked net e p) as Hps.
  { intros p Hp. apply In_sessions in Hp as [Hp _]. exists ep. auto. }
  assert (forall ps acc,
            topology acc = topology net ->
            (forall p, In p ps -> linked net e p) ->
            topology
              (fold_left
                 (fun acc p =>
                    match acc !! p with
                    | None => acc
                    | Some remote =>
                        announce hops
                          (<[p := set_peer_filter e (outbound_filter ep p) remote]> acc)
                          p (from_peer e)
                    end) ps acc)
            = topology net) as Hfold.
  { clear Hps. induction ps as [|p ps IHps]; intros acc Hacc Hps; simpl; [exact Hacc|].
    destruct (acc !! p) as [remote|] eqn:Hp.
    - apply IHps; [|intros q Hq; apply Hps; now right].
      assert (linked acc p e) as (remote' & Hp' & Hback).
      { apply (linked_same_topology net acc); [now symmetry|]. apply Hsym, Hps. now left. }
      rewrite Hp in Hp'. injection Hp' as <-.
      assert (topology (<[p := set_peer_filter e (outbound_filter ep p) remote]> acc)
              = topology net) as Hacc1.
      { rewrite <- Hacc. apply (topology_insert acc p remote); [exact Hp|].
        now apply set_peer_filter_topology. }
      rewrite IH; [exact Hacc1|].
      apply (symmetric_topology net); [now symmetry | exact Hsym].
    - apply IHps; [exact Hacc | intros q Hq; apply Hps; now right]. }
  now apply Hfold.
Qed.

Lemma outbound_set_peer_filter (ep : endpoint) (p : endpoint_id) (F : filter_type)
    (t : topic) :
  covers (outbound_filter (set_peer_filter p F ep) p) t = true
  <-> covers (outbound_filter ep p) t = true.
Proof.
  rewrite !covers_outbound. unfold aggregate_local_filter. simpl.
  split; (intros [Hloc | (q & G & Hq & HG & Hcov)]; [now left | right; exists q, G]).
  - rewrite lookup_insert_ne in HG by congruence. auto.
  - rewrite lookup_insert_ne by congruence. auto.
Qed.

(** [e] announces to its peer [p]: the two agree, and the only pairs that
    may now disagree are [p] and its other peers. *)
Lemma push_agree (acc : network) (e p : endpoint_id) (ep remote : endpoint)
    (x y : endpoint_id) :
  symmetric acc -> acc !! e = Some ep -> acc !! p = Some remote -> p <> e ->
  agree acc x y \/ (x = e /\ y = p) ->
  ~ (x = p /\ In y (sessions (from_peer e)
                             (set_peer_filter e (outbound_filter ep p) remote))) ->
  agree (<[p := set_peer_filter e (outbound_filter ep p) remote]> acc) x y.
Proof.
  intros Hsym He Hp Hpe Hold Hnot ep_x ep_y F Hx Hy HF t.
  destruct (decide (x = p)) as [-> | Hxp].
  - rewrite lookup_insert_eq in Hx. injection Hx as <-.
    destruct (decide (y = e)) as [-> | Hye].
    + rewrite lookup_insert_ne in Hy by exact Hpe.
      destruct Hold as [Hold | [-> _]]; [|now elim Hpe].
      rewrite outbound_set_peer_filter. apply (Hold remote ep_y F Hp Hy HF).
    + exfalso. apply Hnot. split; [reflexivity|]. apply In_sessions. split.
      * simpl. rewrite lookup_insert_ne by congruence.
        destruct (decide (y = p)) as [-> | Hyp].
        -- rewrite lookup_insert_eq in Hy. injection Hy as <-. simpl in HF.
           rewrite lookup_insert_ne in HF by congruence. eauto.
        -- rewrite lookup_insert_ne in Hy by congruence.
           destruct (Hsym y p) as (remote' & Hp' & Hlink); [exists ep_y; eauto|].
           rewrite Hp in Hp'. now injection Hp' as <-.
      * simpl. now apply String.eqb_neq.
  - rewrite lookup_insert_ne in Hx by congruence.
    destruct (decide (y = p)) as [-> | Hyp].
    + rewrite lookup_insert_eq in Hy. injection Hy as <-. simpl in HF.
      destruct (decide (x = e)) as [-> | Hxe].
      * rewrite lookup_insert_eq in HF. injection HF as <-.
        rewrite He in Hx. injection Hx as <-. reflexivity.
      * rewrite lookup_insert_ne in HF by congruence.
        destruct Hold as [Hold | [-> _]]; [|now elim Hxe].
        apply (Hold ep_x remote F Hx Hp HF).
    + rewrite lookup_insert_ne in Hy by congruence.
      destruct Hold as [Hold | [_ ->]]; [|now elim Hyp].
      apply (Hold ep_x ep_y F Hx Hy HF).
Qed.

(** An announcement at [e] that did not come from [src] settles what the
    peers of [e] other than [src], and the endpoints behind them, hold:
    when all pairs agreed but those of [e] and these peers (and the pairs in
    [B], which are left for later), all pairs agree afterwards (but those
    in [B]).  The endpoints that are not behind these peers stay as they
    are. *)
Lemma announce_settles (hops : nat) :
  forall (net : network) (e : endpoint_id) (src : source) (R : list endpoint_id)
         (B : endpoint_id -> endpoint_id -> Prop) (ep : endpoint),
    reach hops net e src = Some R -> List.NoDup R -> symmetric net ->
    net !! e = Some ep ->
    (forall x y, ~ B x y -> ~ (x = e /\ In y (sessions src ep)) -> agree net x y) ->
    (forall z, z = e \/ ~ In z R -> announce hops net e src !! z = net !! z)
    /\ (forall x y, ~ B x y -> agree (announce hops net e src) x y).
Proof.
  induction hops as [|hops IH]; intros net e src R B ep Hreach Hnd Hsym He Hpre;
    [discriminate Hreach|].
  apply reach_step in Hreach as (ep0 & Rs & He0 & HRs & ->).
  rewrite He in He0. injection He0 as <-.
  apply List.NoDup_cons_iff in Hnd as [HeRs Hnd].
  rewrite (announce_step _ _ _ _ _ He).
  assert (forall ps acc Rs B,
            fold_right (fun p Rs => join (reach hops net p (from_peer e)) Rs)
                       (Some []) ps = Some Rs ->
            List.NoDup Rs -> ~ In e Rs ->
            (forall p, In p ps -> In p (sessions src ep)) ->
            topology acc = topology net -> acc !! e = Some ep ->
            (forall x y, ~ B x y -> ~ (x = e /\ In y ps) -> agree acc x y) ->
            let acc' :=
              fold_left
                (fun acc p =>
                   match acc !! p with
                   | None => acc
                   | Some remote =>
                       announce hops
                         (<[p := set_peer_filter e (outbound_filter ep p) remote]> acc)
                         p (from_peer e)
                   end) ps acc in
            (forall z, ~ In z Rs -> acc' !! z = acc !! z)
            /\ (forall x y, ~ B x y -> agree acc' x y)) as Hfold.
  { clear Rs HRs HeRs Hnd B Hpre.
    induction ps as [|p ps IHps]; intros acc Rs B HRs Hnd HeRs Hps Htop Hacc Hpre; simpl.
    - split; [reflexivity|]. intros x y HB. apply Hpre; [exact HB | intros [_ []]].
    - simpl in HRs. apply join_Some in HRs as (Rp & Rs' & HRp & HRs' & ->).
      apply NoDup_app_inv in Hnd as (HndRp & HndRs' & Hdis).
      destruct (reach_head _ _ _ _ _ HRp) as [HpRp _].
      assert (p <> e) as Hpe.
      { intros ->. apply HeRs, in_or_app. now left. }
      assert (linked acc p e) as (remote & Hp & Hback).
      { apply (linked_same_topology net acc); [now symmetry|]. apply Hsym.
        exists ep. split; [exact He|]. apply (In_sessions src), Hps. now left. }
      rewrite Hp.
      set (ep_p := set_peer_filter e (outbound_filter ep p) remote).
      set (acc1 := <[p := ep_p]> acc).
      assert (topology acc1 = topology net) as Htop1.
      { rewrite <- Htop. apply (topology_insert acc p remote); [exact Hp|].
        now apply set_peer_filter_topology. }
      assert (symmetric acc) as Hsymacc.
      { apply (symmetric_topology net); [now symmetry | exact Hsym]. }
      assert (symmetric acc1) as Hsym1.
      { apply (symmetric_topology net); [now symmetry | exact Hsym]. }
      destruct (IH acc1 p (from_peer e) Rp
                   (fun x y => B x y \/ (x = e /\ In y ps)) ep_p) as [Hframe2 Hagree2].
      + now rewrite (reach_topology hops acc1 net Htop1).
      + exact HndRp.
      + exact Hsym1.
      + apply lookup_insert_eq.
      + intros x y HnB Hnp. apply (push_agree acc e p ep remote x y); auto.
        destruct (decide (x = e /\ y = p)) as [Heq | Hne]; [now right | left].
        apply Hpre; [intros HB; apply HnB; now left|].
        intros [-> [<- | Hin]]; [now apply Hne | apply HnB; right; auto].
      + destruct (IHps (announce hops acc1 p (from_peer e)) Rs' B) as [Hframe3 Hagree3].
        * exact HRs'.
        * exact HndRs'.
        * intros Hin. apply HeRs, in_or_app. now right.
        * intros q Hq. apply Hps. now right.
        * now rewrite announce_topology.
        * rewrite Hframe2.
          -- unfold acc1. now rewrite lookup_insert_ne.
          -- right. intros Hin. apply HeRs, in_or_app. now left.
        * intros x y HB Hno. apply Hagree2. intros [HB' | Hc]; auto.
        * split; [|exact Hagree3].
          intros z Hz. rewrite Hframe3 by (intros Hin; apply Hz, in_or_app; now right).
          rewrite Hframe2 by (right; intros Hin; apply Hz, in_or_app; now left).
          unfold acc1. apply lookup_insert_ne. intros ->. apply Hz, in_or_app. now left. }
  destruct (Hfold (sessions src ep) net Rs B HRs Hnd HeRs) as [Hframe Hagree]; auto.
  split; [|exact Hagree].
  intros z [-> | Hz]; apply Hframe; [exact HeRs | intros Hin; apply Hz; now right].
Qed.

(** *** A change of the local filters *)

Section Change.

Variables (net : network) (e : endpoint_id) (ep ep' : endpoint).
Hypothesis net_symmetric : symmetric net.
Hypothesis at_e : net !! e = Some ep.
Hypothesis same_peers : peers ep' = peers ep.

Lemma change_topology_before : topology (<[e := ep']> net) = topology net.
Proof. apply (topology_insert net e ep); [exact at_e | now rewrite same_peers]. Qed.

Lemma change_topology :
  topology (announce (size net) (<[e := ep']> net) e local) = topology net.
Proof.
  rewrite announce_topology; [apply change_topology_before|].
  apply (symmetric_topology net); [symmetry; apply change_topology_before|].
  exact net_symmetric.
Qed.

Lemma change_mailboxes :
  mailboxes (announce (size net) (<[e := ep']> net) e local)
  = <[e := local_subscribers ep']> (mailboxes net).
Proof. rewrite announce_mailboxes. unfold mailboxes. apply fmap_insert. Qed.

(** When the filters of the subscribers of [e] have changed and [e] has
    announced, all announcements have arrived again. *)
Lemma change_settles :
  settled net -> loop_free net = true ->
  settled (announce (size net) (<[e := ep']> net) e local).
Proof.
  intros Hsettled Hfree.
  destruct (loop_free_reach net e Hfree) as (R & HR & Hnd); [eauto|].
  assert (symmetric (<[e := ep']> net)) as Hsym1.
  { apply (symmetric_topology net); [symmetry; apply change_topology_before|].
    exact net_symmetric. }
  destruct (announce_settles (size net) (<[e := ep']> net) e local R
              (fun _ _ => False) ep') as [_ Hagree].
  - now rewrite (reach_topology _ _ net change_topology_before).
  - exact Hnd.
  - exact Hsym1.
  - apply lookup_insert_eq.
  - intros x y _ Hno ep_x ep_y F Hx Hy HF t.
    destruct (decide (x = e)) as [-> | Hxe].
    + exfalso. apply Hno. split; [reflexivity|]. apply In_sessions.
      split; [|reflexivity].
      destruct (Hsym1 y e) as (ep0 & He0 & Hlink); [exists ep_y; eauto|].
      rewrite lookup_insert_eq in He0. now injection He0 as <-.
    + rewrite lookup_insert_ne in Hx by congruence.
      destruct (decide (y = e)) as [-> | Hye].
      * rewrite lookup_insert_eq in Hy. injection Hy as <-.
        rewrite same_peers in HF. apply (Hsettled x e ep_x ep F Hx at_e HF).
      * rewrite lookup_insert_ne in Hy by congruence.
        apply (Hsettled x y ep_x ep_y F Hx Hy HF).
  - intros x y. apply Hagree. tauto.
Qed.

End Change.

(** *** A new session *)

Section Handshake.

Variables (net : network) (a b : endpoint_id) (epa epb : endpoint).
Hypothesis at_a : net !! a = Some epa.
Hypothesis at_b : net !! b = Some epb.

Let shaken : network :=
  <[b := set_peer_filter a [] epb]> (<[a := set_peer_filter b [] epa]> net).

Lemma peer_unfold :
  peer net a b = announce (size net) (announce (size net) shaken a local) b local.
Proof. unfold peer. now rewrite at_a, at_b. Qed.

Lemma linked_handshake (x y : endpoint_id) :
  linked shaken x y <-> linked net x y \/ (x = a /\ y = b) \/ (x = b /\ y = a).
Proof.
  unfold linked, shaken. split.
  - intros (ep & Hx & Hy). destruct (decide (x = b)) as [-> | Hxb].
    + rewrite lookup_insert_eq in Hx. injection Hx as <-. simpl in Hy.
      destruct (decide (y = a)) as [-> | Hya]; [now right; right|].
      rewrite lookup_insert_ne in Hy by congruence. left. eauto.
    + rewrite lookup_insert_ne in Hx by congruence.
      destruct (decide (x = a)) as [-> | Hxa].
      * rewrite lookup_insert_eq in Hx. injection Hx as <-. simpl in Hy.
        destruct (decide (y = b)) as [-> | Hyb]; [now right; left|].
        rewrite lookup_insert_ne in Hy by congruence. left. eauto.
      * rewrite lookup_insert_ne in Hx by congruence. left. eauto.
  - intros Hcases. destruct (decide (x = b)) as [-> | Hxb].
    + exists (set_peer_filter a [] epb). split; [apply lookup_insert_eq|]. simpl.
      destruct (decide (y = a)) as [-> | Hya]; [rewrite lookup_insert_eq; eauto|].
      rewrite lookup_insert_ne by congruence.
      destruct Hcases as [(ep & Hx & Hy) | [[H1 H2] | [H1 H2]]]; [|congruence..].
      rewrite at_b in Hx. now injection Hx as <-.
    + rewrite lookup_insert_ne by congruence.
      destruct (decide (x = a)) as [-> | Hxa].
      * exists (set_peer_filter b [] epa). split; [apply lookup_insert_eq|]. simpl.
        destruct (decide (y = b)) as [-> | Hyb]; [rewrite lookup_insert_eq; eauto|].
        rewrite lookup_insert_ne by congruence.
        destruct Hcases as [(ep & Hx & Hy) | [[H1 H2] | [H1 H2]]]; [|congruence..].
        rewrite at_a in Hx. now injection Hx as <-.
      * rewrite lookup_insert_ne by congruence.
        destruct Hcases as [Hlink | [[H1 H2] | [H1 H2]]]; [exact Hlink | congruence..].
Qed.

Lemma handshake_symmetric : symmetric net -> symmetric shaken.
Proof.
  intros Hsym x y Hxy. apply linked_handshake. apply linked_handshake in Hxy.
  destruct Hxy as [Hxy | [[-> ->] | [-> ->]]]; auto.
Qed.

Lemma handshake_size : size shaken = size net.
Proof.
  unfold shaken. rewrite map_size_insert_Some.
  - now apply map_size_insert_Some.
  - destruct (decide (a = b)) as [-> | Hab];
      [rewrite lookup_insert_eq | rewrite lookup_insert_ne by congruence]; eauto.
Qed.

Lemma handshake_mailboxes : mailboxes shaken = mailboxes net.
Proof.
  unfold mailboxes, shaken. rewrite !fmap_insert. simpl.
  rewrite insert_id.
  - apply insert_id. now rewrite lookup_fmap, at_a.
  - destruct (decide (a = b)) as [-> | Hab].
    + rewrite lookup_insert_eq. rewrite at_a in at_b. now injection at_b as ->.
    + rewrite lookup_insert_ne by congruence. now rewrite lookup_fmap, at_b.
Qed.

(** The endpoints other than [a] and [b] announce what they announced. *)
Lemma handshake_agree (x y : endpoint_id) :
  settled net -> x <> a -> x <> b -> agree shaken x y.
Proof.
  intros Hsettled Hxa Hxb ep_x ep_y F Hx Hy HF t. unfold shaken in Hx, Hy.
  rewrite !lookup_insert_ne in Hx by congruence.
  destruct (decide (y = b)) as [-> | Hyb].
  - rewrite lookup_insert_eq in Hy. injection Hy as <-. simpl in HF.
    rewrite lookup_insert_ne in HF by congruence.
    apply (Hsettled x b ep_x epb F Hx at_b HF).
  - rewrite lookup_insert_ne in Hy by congruence.
    destruct (decide (y = a)) as [-> | Hya].
    + rewrite lookup_insert_eq in Hy. injection Hy as <-. simpl in HF.
      rewrite lookup_insert_ne in HF by congruence.
      apply (Hsettled x a ep_x epa F Hx at_a HF).
    + rewrite lookup_insert_ne in Hy by congruence.
      apply (Hsettled x y ep_x ep_y F Hx Hy HF).
Qed.

Lemma peer_topology : symmetric net -> topology (peer net a b) = topology shaken.
Proof.
  intros Hsym. rewrite peer_unfold.
  assert (topology (announce (size net) shaken a local) = topology shaken) as Hfirst.
  { apply announce_topology. now apply handshake_symmetric. }
  rewrite announce_topology; [exact Hfirst|].
  apply (symmetric_topology shaken); [now symmetry | now apply handshake_symmetric].
Qed.

Lemma peer_symmetric : symmetric net -> symmetric (peer net a b).
Proof.
  intros Hsym. apply (symmetric_topology shaken);
    [symmetry; now apply peer_topology | now apply handshake_symmetric].
Qed.

Lemma peer_mailboxes : mailboxes (peer net a b) = mailboxes net.
Proof. rewrite peer_unfold, !announce_mailboxes. apply handshake_mailboxes. Qed.

(** After the handshake, when both ends have announced, all announcements
    have arrived. *)
Lemma peer_settles :
  symmetric net -> settled net -> loop_free (peer net a b) = true ->
  settled (peer net a b).
Proof.
  intros Hsym Hsettled Hfree.
  pose proof (handshake_symmetric Hsym) as Hsym1.
  rewrite (loop_free_topology _ shaken (peer_topology Hsym)) in Hfree.
  assert (topology (announce (size net) shaken a local) = topology shaken) as Htop2.
  { now apply announce_topology. }
  assert (symmetric (announce (size net) shaken a local)) as Hsym2.
  { apply (symmetric_topology shaken); [now symmetry | exact Hsym1]. }
  assert (exists ep, shaken !! a = Some ep) as [epa' Ha'].
  { destruct (linked_handshake a b) as [_ (ep & Hep & _)]; eauto. }
  assert (exists ep, shaken !! b = Some ep) as [epb' Hb'].
  { destruct (linked_handshake b a) as [_ (ep & Hep & _)]; eauto. }
  destruct (loop_free_reach shaken a Hfree) as (Ra & HRa & HndRa); [eauto|].
  destruct (loop_free_reach shaken b Hfree) as (Rb & HRb & HndRb); [eauto|].
  rewrite handshake_size in HRa, HRb.
  destruct (announce_settles (size net) shaken a local Ra (fun x _ => x = b) epa')
    as [_ Hagree1]; auto.
  { intros x y Hxb Hno. destruct (decide (x = a)) as [-> | Hxa];
      [|now apply handshake_agree].
    intros ep_x ep_y F Hx Hy HF t. exfalso. apply Hno. split; [reflexivity|].
    apply In_sessions. split; [|reflexivity].
    destruct (Hsym1 y a) as (ep0 & He0 & Hlink); [exists ep_y; eauto|].
    rewrite Ha' in He0. now injection He0 as <-. }
  destruct (topology_some shaken (announce (size net) shaken a local) b epb')
    as (epb'' & Hb'' & _); [now symmetry | exact Hb' |].
  rewrite peer_unfold.
  destruct (announce_settles (size net) (announce (size net) shaken a local) b local Rb
              (fun _ _ => False) epb'') as [_ Hagree2]; auto.
  { now rewrite (reach_topology _ _ shaken Htop2). }
  { intros x y _ Hno. destruct (decide (x = b)) as [-> | Hxb]; [|now apply Hagree1].
    intros ep_x ep_y F Hx Hy HF t. exfalso. apply Hno. split; [reflexivity|].
    apply In_sessions. split; [|reflexivity].
    destruct (Hsym2 y b) as (ep0 & He0 & Hlink); [exists ep_y; eauto|].
    rewrite Hb'' in He0. now injection He0 as <-. }
  intros x y. apply Hagree2. tauto.
Qed.

End Handshake.

(** *** A message on its way *)

Lemma routing_table_lookup (acc net : network) (z : endpoint_id) :
  routing_table <$> acc = routing_table <$> net ->
  routing_table <$> acc !! z = routing_table <$> net !! z.
Proof. intros Heq. now rewrite <- !lookup_fmap, Heq. Qed.

Lemma routing_table_some (acc net : network) (z : endpoint_id) (ep : endpoint) :
  routing_table <$> acc = routing_table <$> net -> net !! z = Some ep ->
  exists ep', acc !! z = Some ep' /\ routing_table ep' = routing_table ep.
Proof.
  intros Heq Hz. pose proof (routing_table_lookup acc net z Heq) as H.
  rewrite Hz in H. destruct (acc !! z) as [ep'|]; [|discriminate H].
  change (Some (routing_table ep') = Some (routing_table ep)) in H.
  exists ep'. split; [reflexivity | congruence].
Qed.

Lemma routing_table_peers (ep ep' : endpoint) :
  routing_table ep' = routing_table ep -> peers ep' = peers ep.
Proof. unfold routing_table. now intros [= _ H]. Qed.

Lemma routing_table_aggregate (ep ep' : endpoint) :
  routing_table ep' = routing_table ep ->
  aggregate_local_filter ep' = aggregate_local_filter ep.
Proof. unfold routing_table, aggregate_local_filter. now intros [= -> _]. Qed.

Lemma routing_table_outbound (ep ep' : endpoint) (p : endpoint_id) :
  routing_table ep' = routing_table ep -> outbound_filter ep' p = outbound_filter ep p.
Proof.
  intros H. unfold outbound_filter.
  now rewrite (routing_table_aggregate ep ep' H), (routing_table_peers ep ep' H).
Qed.

Lemma routing_table_topology (acc net : network) :
  routing_table <$> acc = routing_table <$> net -> topology acc = topology net.
Proof.
  intros Heq. apply map_eq. intros z. rewrite !topology_lookup.
  pose proof (routing_table_lookup acc net z Heq) as H.
  destruct (acc !! z) as [ep'|], (net !! z) as [ep|]; try discriminate H; [|reflexivity].
  change (Some (routing_table ep') = Some (routing_table ep)) in H.
  simpl. rewrite (routing_table_peers ep ep'); [reflexivity | congruence].
Qed.

Lemma routing_table_settled (acc net : network) :
  routing_table <$> acc = routing_table <$> net -> settled net -> settled acc.
Proof.
  intros Heq Hsettled x y ep_x ep_y F Hx Hy HF t.
  destruct (routing_table_some net acc x ep_x) as (ep_x' & Hx' & Htx); [now symmetry | exact Hx |].
  destruct (routing_table_some net acc y ep_y) as (ep_y' & Hy' & Hty); [now symmetry | exact Hy |].
  rewrite <- (routing_table_outbound ep_x ep_x' y Htx).
  apply (Hsettled x y ep_x' ep_y' F Hx' Hy').
  now rewrite (routing_table_peers ep_y ep_y' Hty).
Qed.

Lemma routing_table_deliver (msg : message) (ep : endpoint) :
  routing_table (deliver_local msg ep) = routing_table ep.
Proof. unfold routing_table. now rewrite deliver_local_filters. Qed.

(** A network in which some endpoints have been delivered a message has
    the routing tables it had. *)
Lemma routing_table_delivered (msg : message) (acc acc' : network) :
  (forall z, acc' !! z = deliver_local msg <$> acc !! z \/ acc' !! z = acc !! z) ->
  routing_table <$> acc' = routing_table <$> acc.
Proof.
  intros Hpoint. apply map_eq. intros z. rewrite !lookup_fmap.
  destruct (Hpoint z) as [-> | ->]; [|reflexivity].
  destruct (acc !! z) as [ep|]; simpl; [|reflexivity].
  now rewrite routing_table_deliver.
Qed.

Lemma In_sides (hops : nat) (net : network) (at_ : endpoint_id) (z : endpoint_id) :
  forall ps Rs,
    fold_right (fun p Rs => join (reach hops net p (from_peer at_)) Rs) (Some []) ps
    = Some Rs ->
    In z Rs ->
    exists p Rp, In p ps /\ reach hops net p (from_peer at_) = Some Rp /\ In z Rp.
Proof.
  induction ps as [|p ps IH]; intros Rs HRs Hz; simpl in HRs.
  - injection HRs as <-. destruct Hz.
  - apply join_Some in HRs as (Rp & Rs' & HRp & HRs' & ->).
    apply in_app_or in Hz as [Hz | Hz].
    + exists p, Rp. split; [now left | auto].
    + destruct (IH Rs' HRs' Hz) as (q & Rq & Hq & HRq & HzRq).
      exists q, Rq. split; [now right | auto].
Qed.

(** Where no filter asks for a topic, no subscriber behind wants it. *)
Lemma behind_uncovered (t : topic) (net : network) :
  settled net ->
  forall hops at_ src R ep,
    reach hops net at_ src = Some R -> net !! at_ = Some ep ->
    covers (aggregate_local_filter ep) t = false ->
    (forall q F, In q (sessions src ep) -> peers ep !! q = Some F -> covers F t = false) ->
    forall z ep_z, In z R -> net !! z = Some ep_z ->
                   covers (aggregate_local_filter ep_z) t = false.
Proof.
  intros Hsettled. induction hops as [|hops IH]; intros at_ src R ep Hreach Hat Hloc Hpeers;
    [discriminate Hreach|].
  apply reach_step in Hreach as (ep0 & Rs & Hat0 & HRs & ->).
  rewrite Hat in Hat0. injection Hat0 as <-.
  intros z ep_z [<- | Hz] Hepz.
  - rewrite Hat in Hepz. now injection Hepz as <-.
  - destruct (In_sides hops net at_ z _ _ HRs Hz) as (p & Rp & Hp & HRp & HzRp).
    destruct (reach_head _ _ _ _ _ HRp) as [_ [ep_p Hep_p]].
    pose proof Hp as Hstored. apply In_sessions in Hstored as [[F HF] _].
    pose proof (Hpeers p F Hp HF) as Hcov.
    assert (covers (outbound_filter ep_p at_) t = false) as Hout.
    { apply not_true_iff_false. intros Hc. apply not_true_iff_false in Hcov. apply Hcov.
      now apply (Hsettled p at_ ep_p ep F Hep_p Hat HF t). }
    apply (fun H1 H2 => IH p (from_peer at_) Rp ep_p HRp Hep_p H1 H2 z ep_z HzRp Hepz).
    + apply not_true_iff_false. intros Hc. apply not_true_iff_false in Hout. apply Hout.
      apply covers_outbound. now left.
    + intros q G Hq HG. apply not_true_iff_false. intros Hc.
      apply not_true_iff_false in Hout. apply Hout. apply covers_outbound. right.
      exists q, G. split; [|auto]. apply In_sessions in Hq as [_ Hsrc]. simpl in Hsrc.
      now apply String.eqb_neq.
Qed.

Section Route.

Variables (msg : message) (net : network).
Hypothesis net_settled : settled net.

(** A message dispatched at [at_] is delivered at the endpoints its paths
    lead to, and nowhere else: where it is not forwarded to, no subscriber
    wants it. *)
Lemma route_delivers (hops : nat) :
  forall acc at_ src R,
    routing_table <$> acc = routing_table <$> net ->
    reach hops net at_ src = Some R -> List.NoDup R ->
    forall z,
      (In z R -> route hops acc at_ src msg !! z = deliver_local msg <$> acc !! z)
      /\ (~ In z R -> route hops acc at_ src msg !! z = acc !! z).
Proof.
  induction hops as [|hops IH]; intros acc at_ src R Hacc Hreach Hnd;
    [discriminate Hreach|].
  apply reach_step in Hreach as (ep & Rs & Hat & HRs & ->).
  apply List.NoDup_cons_iff in Hnd as [HatRs Hnd].
  destruct (routing_table_some acc net at_ ep Hacc Hat) as (ep_acc & Hat_acc & Htable).
  rewrite (route_step _ _ _ _ _ _ Hat_acc).
  assert (forward_targets msg src ep_acc = forward_targets msg src ep) as ->.
  { unfold forward_targets. now rewrite (routing_table_peers ep ep_acc Htable). }
  assert (forall L acc1 Rs,
            (forall p F, In (p, F) L -> peers ep !! p = Some F) ->
            fold_right (fun p Rs => join (reach hops net p (from_peer at_)) Rs) (Some [])
                       (List.filter (fun p => negb (is_source src p)) (map fst L))
            = Some Rs ->
            List.NoDup Rs ->
            routing_table <$> acc1 = routing_table <$> net ->
            forall z,
              let acc' :=
                fold_left (fun a p => route hops a p (from_peer at_) msg)
                          (map fst (List.filter
                                      (fun entry => covers (snd entry) (fst msg)
                                                    && negb (is_source src (fst entry)))
                                      L))
                          acc1 in
              (In z Rs -> acc' !! z = deliver_local msg <$> acc1 !! z)
              /\ (~ In z Rs -> acc' !! z = acc1 !! z)) as Hfold.
  { clear Rs HRs HatRs Hnd acc Hacc ep_acc Hat_acc Htable.
    induction L as [|[p F] L IHL]; intros acc1 Rs HL HRs Hnd Hacc1 z; simpl.
    - simpl in HRs. injection HRs as <-. split; [intros [] | reflexivity].
    - simpl in HRs. destruct (is_source src p) eqn:Hsrc; simpl in HRs.
      + rewrite andb_false_r. apply IHL; auto. intros q G Hq. apply HL. now right.
      + rewrite andb_true_r.
        apply join_Some in HRs as (Rp & Rs' & HRp & HRs' & ->).
        apply NoDup_app_inv in Hnd as (HndRp & HndRs' & Hdis).
        assert (forall q G, In (q, G) L -> peers ep !! q = Some G) as HL'.
        { intros q G Hq. apply HL. now right. }
        destruct (covers F (fst msg)) eqn:Hcov; simpl.
        * pose proof (IH acc1 p (from_peer at_) Rp Hacc1 HRp HndRp) as Hroute.
          assert (routing_table <$> route hops acc1 p (from_peer at_) msg
                  = routing_table <$> net) as Hacc2.
          { rewrite <- Hacc1. apply (routing_table_delivered msg). intros y.
            destruct (in_dec String.string_dec y Rp) as [Hy | Hy];
              [left | right]; now apply Hroute. }
          pose proof (IHL (route hops acc1 p (from_peer at_) msg) Rs' HL' HRs' HndRs'
                          Hacc2 z) as [Hin Hout].
          split.
          -- intros Hz. apply in_app_or in Hz as [Hz | Hz].
             ++ rewrite Hout by now apply Hdis. now apply Hroute.
             ++ rewrite (Hin Hz). f_equal. apply Hroute. intros HzRp.
                now apply (Hdis z).
          -- intros Hz. rewrite Hout by (intros Hin'; apply Hz, in_or_app; now right).
             apply Hroute. intros Hin'. apply Hz, in_or_app. now left.
        * pose proof (IHL acc1 Rs' HL' HRs' HndRs' Hacc1 z) as [Hin Hout].
          split.
          -- intros Hz. apply in_app_or in Hz as [Hz | Hz]; [|now apply Hin].
             rewrite Hout by now apply Hdis.
             destruct (acc1 !! z) as [ep_z'|] eqn:Hz'; [|reflexivity]. simpl. f_equal.
             symmetry. apply deliver_local_uncovered.
             destruct (routing_table_some net acc1 z ep_z') as (ep_z & Hep_z & Htz);
               [now symmetry | exact Hz' |].
             rewrite <- (routing_table_aggregate ep_z' ep_z Htz).
             destruct (reach_head _ _ _ _ _ HRp) as [_ [ep_p Hep_p]].
             assert (peers ep !! p = Some F) as HF by (apply HL; now left).
             assert (covers (outbound_filter ep_p at_) (fst msg) = false) as Hno.
             { apply not_true_iff_false. intros Hc. apply not_true_iff_false in Hcov.
               apply Hcov. now apply (net_settled p at_ ep_p ep F Hep_p Hat HF). }
             apply (fun H1 H2 =>
                      behind_uncovered (fst msg) net net_settled hops p (from_peer at_) Rp
                                       ep_p HRp Hep_p H1 H2 z ep_z Hz Hep_z).
             ++ apply not_true_iff_false. intros Hc. apply not_true_iff_false in Hno.
                apply Hno, covers_outbound. now left.
             ++ intros q G Hq HG. apply not_true_iff_false. intros Hc.
                apply not_true_iff_false in Hno. apply Hno, covers_outbound. right.
                exists q, G. split; [|auto]. apply In_sessions in Hq as [_ Hq].
                simpl in Hq. now apply String.eqb_neq.
          -- intros Hz. apply Hout. intros Hin'. apply Hz, in_or_app. now right. }
  assert (routing_table <$> <[at_ := deliver_local msg ep_acc]> acc
          = routing_table <$> net) as Hacc1.
  { rewrite <- Hacc. rewrite fmap_insert, routing_table_deliver. apply insert_id.
    now rewrite lookup_fmap, Hat_acc. }
  intros z.
  destruct (Hfold (map_to_list (peers ep)) (<[at_ := deliver_local msg ep_acc]> acc) Rs
                  (fun p F => proj1 (In_map_to_list (peers ep) p F)) HRs Hnd Hacc1 z)
    as [Hin Hout].
  unfold forward_targets. split.
  - intros [<- | Hz].
    + rewrite (Hout HatRs), lookup_insert_eq, Hat_acc. reflexivity.
    + rewrite (Hin Hz). rewrite lookup_insert_ne; [reflexivity|]. now intros ->.
  - intros Hz. rewrite Hout by (intros Hin'; apply Hz; now right).
    apply lookup_insert_ne. intros ->. apply Hz. now left.
Qed.

End Route.

(** [publish]: the message is delivered at the endpoints that the sessions
    connect with the publisher, and nowhere else. *)
Lemma publish_delivers (net : network) (e : endpoint_id) (msg : message)
    (R : list endpoint_id) :
  settled net -> reach (size net) net e local = Some R -> List.NoDup R ->
  forall z,
    (In z R -> publish net e msg !! z = deliver_local msg <$> net !! z)
    /\ (~ In z R -> publish net e msg !! z = net !! z).
Proof.
  intros Hsettled HR Hnd. now apply (route_delivers msg net Hsettled (size net) net e local R).
Qed.

Lemma publish_nowhere (net : network) (e : endpoint_id) (msg : message) :
  net !! e = None -> publish net e msg = net.
Proof.
  intros He. unfold publish. destruct (size net); [reflexivity|].
  cbn [route]. now rewrite He.
Qed.

Lemma publish_routing_table (net : network) (e : endpoint_id) (msg : message) :
  settled net -> loop_free net = true ->
  routing_table <$> publish net e msg = routing_table <$> net.
Proof.
  intros Hsettled Hfree. destruct (net !! e) as [ep|] eqn:He;
    [|now rewrite publish_nowhere].
  destruct (loop_free_reach net e Hfree) as (R & HR & Hnd); [eauto|].
  apply (routing_table_delivered msg). intros z.
  destruct (in_dec String.string_dec z R) as [Hz | Hz]; [left | right];
    now apply (publish_delivers net e msg R).
Qed.

Lemma publish_mailboxes_connected (net : network) (e : endpoint_id) (msg : message) :
  settled net -> loop_free net = true -> connected net = true -> is_Some (net !! e) ->
  publish net e msg = deliver_local msg <$> net.
Proof.
  intros Hsettled Hfree Hconn He.
  destruct (loop_free_reach net e Hfree He) as (R & HR & Hnd).
  apply map_eq. intros z. rewrite lookup_fmap.
  destruct (net !! z) as [ep_z|] eqn:Hz.
  - rewrite <- Hz. apply (publish_delivers net e msg R); auto.
    unfold connected in Hconn. rewrite forallb_forall in Hconn.
    specialize (Hconn e (proj2 (In_keys net e) He)). rewrite HR in Hconn.
    rewrite forallb_forall in Hconn.
    specialize (Hconn z (proj2 (In_keys net z) (ex_intro _ ep_z Hz))).
    apply existsb_exists in Hconn as (y & Hy & Heq). now apply String.eqb_eq in Heq as ->.
  - destruct (in_dec String.string_dec z R) as [HzR | HzR].
    + rewrite (proj1 (publish_delivers net e msg R Hsettled HR Hnd z) HzR). now rewrite Hz.
    + rewrite (proj2 (publish_delivers net e msg R Hsettled HR Hnd z) HzR). exact Hz.
Qed.

(** *** What the paths reach *)

Lemma sides_In (hops : nat) (net : network) (at_ : endpoint_id) :
  forall ps Rs p Rp z,
    fold_right (fun p Rs => join (reach hops net p (from_peer at_)) Rs) (Some []) ps
    = Some Rs ->
    In p ps -> reach hops net p (from_peer at_) = Some Rp -> In z Rp -> In z Rs.
Proof.
  induction ps as [|q ps IH]; intros Rs p Rp z HRs Hp HRp Hz; [destruct Hp|].
  simpl in HRs. apply join_Some in HRs as (Rq & Rs' & HRq & HRs' & ->).
  apply in_or_app. destruct Hp as [-> | Hp].
  - left. rewrite HRp in HRq. now injection HRq as <-.
  - right. now apply (IH Rs' p Rp z).
Qed.

Lemma sides_Some (hops : nat) (net : network) (at_ : endpoint_id) :
  forall ps Rs p,
    fold_right (fun p Rs => join (reach hops net p (from_peer at_)) Rs) (Some []) ps
    = Some Rs ->
    In p ps -> exists Rp, reach hops net p (from_peer at_) = Some Rp.
Proof.
  induction ps as [|q ps IH]; intros Rs p HRs Hp; [destruct Hp|].
  simpl in HRs. apply join_Some in HRs as (Rq & Rs' & HRq & HRs' & ->).
  destruct Hp as [-> | Hp]; [eauto | now apply (IH Rs')].
Qed.

(** What is reached is connected with the start by sessions. *)
Lemma reach_sound (net : network) (hops : nat) :
  forall at_ src R z, reach hops net at_ src = Some R -> In z R -> rtc (linked net) at_ z.
Proof.
  induction hops as [|hops IH]; intros at_ src R z Hreach Hz; [discriminate Hreach|].
  apply reach_step in Hreach as (ep & Rs & Hat & HRs & ->).
  destruct Hz as [<- | Hz]; [apply rtc_refl|].
  destruct (In_sides hops net at_ z _ _ HRs Hz) as (p & Rp & Hp & HRp & HzRp).
  apply rtc_l with p; [|now apply (IH p (from_peer at_) Rp)].
  exists ep. split; [exact Hat|]. now apply In_sessions in Hp as [Hp _].
Qed.

(** A session of an endpoint that is reached leads to an endpoint that is
    reached, or back to where the start was entered from. *)
Lemma reach_closed (net : network) (hops : nat) :
  forall at_ src R y z,
    reach hops net at_ src = Some R -> In y R -> linked net y z ->
    In z R \/ (src = from_peer z /\ y = at_).
Proof.
  induction hops as [|hops IH]; intros at_ src R y z Hreach Hy Hyz; [discriminate Hreach|].
  apply reach_step in Hreach as (ep & Rs & Hat & HRs & ->).
  destruct Hy as [<- | Hy].
  - destruct Hyz as (ep0 & Hat0 & Hz). rewrite Hat in Hat0. injection Hat0 as <-.
    destruct (is_source src z) eqn:Hsrc.
    + right. split; [|reflexivity]. destruct src as [|q]; [discriminate Hsrc|].
      simpl in Hsrc. now apply String.eqb_eq in Hsrc as ->.
    + left. right. assert (In z (sessions src ep)) as Hin by now apply In_sessions.
      destruct (sides_Some hops net at_ _ _ z HRs Hin) as [Rz HRz].
      apply (sides_In hops net at_ _ Rs z Rz z HRs Hin HRz).
      now apply (reach_head _ _ _ _ _ HRz).
  - destruct (In_sides hops net at_ y _ _ HRs Hy) as (p & Rp & Hp & HRp & HyRp).
    destruct (IH p (from_peer at_) Rp y z HRp HyRp Hyz) as [Hz | [[= ->] _]].
    + left. right. now apply (sides_In hops net at_ _ Rs p Rp z HRs Hp HRp).
    + left. now left.
Qed.

Lemma reach_complete (net : network) (hops : nat) (e z : endpoint_id)
    (R : list endpoint_id) :
  reach hops net e local = Some R -> rtc (linked net) e z -> In z R.
Proof.
  intros Hreach Hrtc. revert z Hrtc. apply (rtc_ind_r (fun z => In z R)).
  - now apply (reach_head _ _ _ _ _ Hreach).
  - intros y z _ Hyz Hy.
    destruct (reach_closed net hops e local R y z Hreach Hy Hyz) as [Hz | [[=] _]].
    exact Hz.
Qed.

Lemma reach_connects (net : network) (hops : nat) (e z : endpoint_id)
    (R : list endpoint_id) :
  reach hops net e local = Some R -> In z R <-> rtc (linked net) e z.
Proof.
  intros Hreach. split; [now apply (reach_sound net hops e local R) |
                         now apply (reach_complete net hops e z R)].
Qed.

Lemma connected_spec (net : network) :
  loop_free net = true ->
  connected net = true
  <-> forall e z, is_Some (net !! e) -> is_Some (net !! z) -> rtc (linked net) e z.
Proof.
  intros Hfree. unfold connected. rewrite forallb_forall. split.
  - intros Hconn e z He Hz. specialize (Hconn e (proj2 (In_keys net e) He)).
    destruct (reach (size net) net e local) as [R|] eqn:HR; [|discriminate Hconn].
    rewrite forallb_forall in Hconn. specialize (Hconn z (proj2 (In_keys net z) Hz)).
    apply existsb_exists in Hconn as (y & Hy & Heq). apply String.eqb_eq in Heq as ->.
    now apply (reach_sound net (size net) e local R).
  - intros Hconn e He. apply In_keys in He.
    destruct (loop_free_reach net e Hfree He) as (R & HR & _). rewrite HR.
    apply forallb_forall. intros z Hz. apply In_keys in Hz.
    apply existsb_exists. exists z. split; [|apply String.eqb_refl].
    apply (reach_complete net (size net) e z R); auto.
Qed.

(** *** The commands *)

Lemma lookup_isolated (ids : list endpoint_id) (e : endpoint_id) (ep : endpoint) :
  isolated ids !! e = Some ep -> ep = fresh_endpoint.
Proof.
  induction ids as [|x ids IH]; simpl; [now rewrite lookup_empty|].
  destruct (decide (x = e)) as [-> | Hne].
  - rewrite lookup_insert_eq. now intros [= <-].
  - now rewrite lookup_insert_ne.
Qed.

Lemma isolated_unlinked (ids : list endpoint_id) (x y : endpoint_id) :
  ~ linked (isolated ids) x y.
Proof.
  intros (ep & Hx & [F HF]). apply lookup_isolated in Hx as ->.
  simpl in HF. now rewrite lookup_empty in HF.
Qed.

Lemma isolated_symmetric (ids : list endpoint_id) : symmetric (isolated ids).
Proof. intros x y Hxy. now apply isolated_unlinked in Hxy. Qed.

Lemma isolated_settled (ids : list endpoint_id) : settled (isolated ids).
Proof.
  intros x y ep_x ep_y F Hx Hy HF. exfalso.
  apply (isolated_unlinked ids y x). exists ep_y. eauto.
Qed.

Lemma mailboxes_lookup (net : network) (z : endpoint_id) :
  mailboxes net !! z = local_subscribers <$> net !! z.
Proof. apply lookup_fmap. Qed.

Lemma mailboxes_is_Some (net net' : network) (z : endpoint_id) :
  mailboxes net' = mailboxes net -> is_Some (net !! z) -> is_Some (net' !! z).
Proof.
  intros Heq [ep Hz]. pose proof (mailboxes_lookup net' z) as H.
  rewrite Heq, mailboxes_lookup, Hz in H. destruct (net' !! z); [eauto | discriminate H].
Qed.

Lemma insert_as_alter {A : Type} (f : A -> A) (m : gmap endpoint_id A)
    (e : endpoint_id) (x : A) :
  m !! e = Some x -> <[e := f x]> m = alter f e m.
Proof.
  intros He. apply map_eq. intros z. destruct (decide (e = z)) as [<- | Hne].
  - now rewrite lookup_insert_eq, lookup_alter_eq, He.
  - now rewrite lookup_insert_ne, lookup_alter_ne.
Qed.

Lemma alter_missing {A : Type} (f : A -> A) (m : gmap endpoint_id A) (e : endpoint_id) :
  m !! e = None -> alter f e m = m.
Proof.
  intros He. apply map_eq. intros z. destruct (decide (e = z)) as [<- | Hne].
  - now rewrite lookup_alter_eq, He.
  - now rewrite lookup_alter_ne.
Qed.

(** [peer] changes no subscriber and no queue. *)
Lemma mailboxes_peer (net : network) (a b : endpoint_id) :
  mailboxes (peer net a b) = mailboxes net.
Proof.
  destruct (net !! a) as [epa|] eqn:Ha; [|unfold peer; now rewrite Ha].
  destruct (net !! b) as [epb|] eqn:Hb; [|unfold peer; now rewrite Ha, Hb].
  now apply (peer_mailboxes net a b epa epb).
Qed.

(** [subscribe] adds a subscriber that has received nothing. *)
Lemma mailboxes_subscribe (net : network) (e : endpoint_id) (F : filter_type) :
  mailboxes (subscribe net e F)
  = alter (fun subs => subs ++ [(F, [])]) e (mailboxes net).
Proof.
  unfold subscribe. destruct (net !! e) as [ep|] eqn:He.
  - rewrite change_mailboxes. apply (insert_as_alter (fun subs => subs ++ [(F, [])])).
    now rewrite mailboxes_lookup, He.
  - symmetry. apply alter_missing. now rewrite mailboxes_lookup, He.
Qed.

(** [add_topic] and [remove_topic] change the filter of one subscriber and
    no queue. *)
Lemma mailboxes_update_filter (net : network) (e : endpoint_id) (i : nat) (x : topic)
    (add : bool) :
  mailboxes (update_filter net e i x add)
  = alter (alter (fun sub => (if add then filter_insert x (fst sub)
                              else filter_remove x (fst sub), snd sub)) i)
          e (mailboxes net).
Proof.
  unfold update_filter. destruct (net !! e) as [ep|] eqn:He.
  - rewrite change_mailboxes.
    apply (insert_as_alter
             (alter (fun sub => (if add then filter_insert x (fst sub)
                                 else filter_remove x (fst sub), snd sub)) i)).
    now rewrite mailboxes_lookup, He.
  - symmetry. apply alter_missing. now rewrite mailboxes_lookup, He.
Qed.

Lemma mailboxes_deliver (msg : message) (net : network) :
  mailboxes (deliver_local msg <$> net) = map (enqueue msg) <$> mailboxes net.
Proof.
  unfold mailboxes. rewrite <- !map_fmap_compose. reflexivity.
Qed.

(** A command other than [publish] does to the subscribers what it says,
    whatever the sessions and the filters. *)
Lemma execute_expected (net : network) (c : command) :
  (forall e msg, c <> do_publish e msg) ->
  mailboxes (execute net c) = expected (mailboxes net) c.
Proof.
  intros Hc. destruct c as [a b | e F | e i x | e i x | e msg]; simpl.
  - apply mailboxes_peer.
  - apply mailboxes_subscribe.
  - apply (mailboxes_update_filter net e i x true).
  - apply (mailboxes_update_filter net e i x false).
  - now elim (Hc e msg).
Qed.

(** In a connected mesh a message reaches every subscriber that wants it. *)
Lemma publish_expected (net : network) (e : endpoint_id) (msg : message) :
  settled net -> loop_free net = true -> connected net = true ->
  mailboxes (publish net e msg) = expected (mailboxes net) (do_publish e msg).
Proof.
  intros Hsettled Hfree Hconn. simpl. rewrite mailboxes_lookup.
  destruct (net !! e) as [ep|] eqn:He; simpl.
  - rewrite publish_mailboxes_connected by eauto. apply mailboxes_deliver.
  - now rewrite publish_nowhere.
Qed.

(** The commands keep the sessions two-ended and, in a loop-free
    topology, leave no announcement on its way. *)
Lemma execute_keeps (net : network) (c : command) :
  symmetric net -> settled net -> loop_free net = true ->
  loop_free (execute net c) = true ->
  symmetric (execute net c) /\ settled (execute net c).
Proof.
  intros Hsym Hsettled Hfree Hfree'.
  assert (forall e i x add,
            symmetric (update_filter net e i x add)
            /\ settled (update_filter net e i x add)) as Hupdate.
  { intros e i x add. unfold update_filter.
    destruct (net !! e) as [ep|] eqn:He; [|now split]. split.
    - apply (symmetric_topology net); [|exact Hsym]. symmetry.
      now apply (change_topology net e ep).
    - now apply (change_settles net e ep). }
  destruct c as [a b | e F | e i x | e i x | e msg]; simpl in *.
  - destruct (net !! a) as [epa|] eqn:Ha; [|unfold peer; rewrite Ha; now split].
    destruct (net !! b) as [epb|] eqn:Hb; [|unfold peer; rewrite Ha, Hb; now split].
    split; [now apply (peer_symmetric net a b epa epb)
           | now apply (peer_settles net a b epa epb)].
  - unfold subscribe. destruct (net !! e) as [ep|] eqn:He; [|now split]. split.
    + apply (symmetric_topology net); [|exact Hsym]. symmetry.
      now apply (change_topology net e ep).
    + now apply (change_settles net e ep).
  - apply Hupdate.
  - apply Hupdate.
  - pose proof (publish_routing_table net e msg Hsettled Hfree) as Htable. split.
    + apply (symmetric_topology net); [|exact Hsym]. symmetry.
      now apply routing_table_topology.
    + now apply (routing_table_settled _ net).
Qed.

Lemma linked_peer (net : network) (a b x y : endpoint_id) :
  symmetric net -> linked net x y -> linked (peer net a b) x y.
Proof.
  intros Hsym Hxy.
  destruct (net !! a) as [epa|] eqn:Ha; [|unfold peer; now rewrite Ha].
  destruct (net !! b) as [epb|] eqn:Hb; [|unfold peer; now rewrite Ha, Hb].
  apply (linked_same_topology _ _ x y (eq_sym (peer_topology net a b epa epb Ha Hb Hsym))).
  apply linked_handshake; auto.
Qed.

(** No command disconnects. *)
Lemma execute_connected (net : network) (c : command) :
  symmetric net -> settled net -> loop_free net = true ->
  loop_free (execute net c) = true -> connected net = true ->
  connected (execute net c) = true.
Proof.
  intros Hsym Hsettled Hfree Hfree' Hconn.
  assert (forall e i x add, connected (update_filter net e i x add) = true) as Hupdate.
  { intros e i x add. unfold update_filter.
    destruct (net !! e) as [ep|] eqn:He; [|exact Hconn].
    now rewrite (connected_topology _ net
                   (change_topology net e ep (update_local i x add ep) Hsym He eq_refl)). }
  destruct c as [a b | e F | e i x | e i x | e msg]; simpl in *.
  - apply (connected_spec _ Hfree'). intros e z He Hz.
    apply (mailboxes_is_Some _ net e (eq_sym (mailboxes_peer net a b))) in He.
    apply (mailboxes_is_Some _ net z (eq_sym (mailboxes_peer net a b))) in Hz.
    pose proof (proj1 (connected_spec net Hfree) Hconn e z He Hz) as Hrtc.
    eapply rtc_subrel; [|exact Hrtc]. intros x y. now apply linked_peer.
  - unfold subscribe. destruct (net !! e) as [ep|] eqn:He; [|exact Hconn].
    now rewrite (connected_topology _ net
                   (change_topology net e ep (add_local F ep) Hsym He eq_refl)).
  - apply Hupdate.
  - apply Hupdate.
  - rewrite (connected_topology _ net); [exact Hconn|].
    apply routing_table_topology. now apply publish_routing_table.
Qed.

Lemma admissible_loop_free (net : network) (cmds : list command) :
  admissible net cmds = true -> loop_free net = true.
Proof. destruct cmds; simpl; rewrite ?andb_true_iff; tauto. Qed.

Lemma admissible_app (cmds cmds' : list command) :
  forall net, admissible net (cmds ++ cmds') = true ->
              admissible net cmds = true /\ admissible (run net cmds) cmds' = true.
Proof.
  induction cmds as [|c cmds IH]; intros net; simpl.
  - intros H. split; [|exact H]. rewrite andb_true_r. now apply (admissible_loop_free net cmds').
  - rewrite !andb_true_iff. intros [Hfree Hrest].
    destruct (IH (execute net c) Hrest) as [H1 H2]. auto.
Qed.

Lemma run_keeps (cmds : list command) :
  forall net, symmetric net -> settled net -> admissible net cmds = true ->
              symmetric (run net cmds) /\ settled (run net cmds)
              /\ loop_free (run net cmds) = true.
Proof.
  induction cmds as [|c cmds IH]; intros net Hsym Hsettled; simpl.
  - rewrite andb_true_r. auto.
  - rewrite andb_true_iff. intros [Hfree Hrest].
    pose proof (admissible_loop_free _ _ Hrest) as Hfree'.
    destruct (execute_keeps net c Hsym Hsettled Hfree Hfree') as [Hsym' Hsettled'].
    now apply IH.
Qed.

(** The subscribers of a connected mesh have received what the spec
    says. *)
Lemma run_expected (cmds : list command) :
  forall net, symmetric net -> settled net -> connected net = true ->
              admissible net cmds = true ->
              mailboxes (run net cmds) = fold_left expected cmds (mailboxes net).
Proof.
  induction cmds as [|c cmds IH]; intros net Hsym Hsettled Hconn; simpl; [reflexivity|].
  rewrite andb_true_iff. intros [Hfree Hrest].
  pose proof (admissible_loop_free _ _ Hrest) as Hfree'.
  destruct (execute_keeps net c Hsym Hsettled Hfree Hfree') as [Hsym' Hsettled'].
  rewrite IH; auto using execute_connected. f_equal.
  destruct c as [a b | e F | e i x | e i x | e msg];
    try (apply execute_expected; intros; discriminate).
  now apply publish_expected.
Qed.

(** *** Paths and hops *)

Lemma sides_incl (f g : endpoint_id -> option (list endpoint_id)) :
  forall ps Rs,
    (forall p Rp, In p ps -> f p = Some Rp -> g p = Some Rp) ->
    fold_right (fun p Rs => join (f p) Rs) (Some []) ps = Some Rs ->
    fold_right (fun p Rs => join (g p) Rs) (Some []) ps = Some Rs.
Proof.
  induction ps as [|p ps IH]; intros Rs Hfg HRs; simpl in *; [exact HRs|].
  apply join_Some in HRs as (Rp & Rs' & HRp & HRs' & ->).
  rewrite (Hfg p Rp (or_introl eq_refl) HRp).
  rewrite (IH Rs'); [reflexivity | | exact HRs'].
  intros q Rq Hq. apply Hfg. now right.
Qed.

Lemma sides_perm (f : endpoint_id -> option (list endpoint_id)) (ps ps' : list endpoint_id) :
  Permutation ps ps' ->
  forall Rs,
    fold_right (fun p Rs => join (f p) Rs) (Some []) ps = Some Rs ->
    exists Rs', fold_right (fun p Rs => join (f p) Rs) (Some []) ps' = Some Rs'
                /\ Permutation Rs Rs'.
Proof.
  induction 1 as [|p ps ps' _ IH | p q ps | ps ps' ps'' _ IH1 _ IH2]; intros Rs HRs;
    simpl in *.
  - eauto.
  - apply join_Some in HRs as (Rp & Rs0 & HRp & HRs0 & ->).
    destruct (IH Rs0 HRs0) as (Rs0' & -> & Hperm). rewrite HRp. simpl.
    eexists. split; [reflexivity|]. now apply Permutation_app_head.
  - apply join_Some in HRs as (Rq & Rs0 & HRq & HRs0 & ->).
    apply join_Some in HRs0 as (Rp & Rs1 & HRp & -> & ->).
    rewrite HRp, HRq. simpl. eexists. split; [reflexivity|].
    apply Permutation_app_swap_app.
  - destruct (IH1 Rs HRs) as (Rs' & HRs' & Hperm1).
    destruct (IH2 Rs' HRs') as (Rs'' & HRs'' & Hperm2).
    exists Rs''. split; [exact HRs'' | now transitivity Rs'].
Qed.

Lemma reach_fold (hops : nat) (net : network) (at_ : endpoint_id) (src : source)
    (ep : endpoint) (Rs : list endpoint_id) :
  net !! at_ = Some ep ->
  fold_right (fun p Rs => join (reach hops net p (from_peer at_)) Rs)
             (Some []) (sessions src ep) = Some Rs ->
  reach (S hops) net at_ src = Some (at_ :: Rs).
Proof. intros Hat HRs. cbn [reach]. now rewrite Hat, HRs. Qed.

(** More hops reach the same. *)
Lemma reach_mono (net : network) (hops : nat) :
  forall hops' at_ src R,
    reach hops net at_ src = Some R -> hops <= hops' -> reach hops' net at_ src = Some R.
Proof.
  induction hops as [|hops IH]; intros hops' at_ src R Hreach Hle; [discriminate Hreach|].
  destruct hops' as [|hops']; [lia|].
  apply reach_step in Hreach as (ep & Rs & Hat & HRs & ->).
  apply (reach_fold _ _ _ _ ep); [exact Hat|].
  apply (sides_incl (fun p => reach hops net p (from_peer at_))); [|exact HRs].
  intros p Rp _ HRp. apply IH; [exact HRp | lia].
Qed.

Lemma length_sides (f : endpoint_id -> option (list endpoint_id)) :
  forall ps Rs p Rp,
    fold_right (fun p Rs => join (f p) Rs) (Some []) ps = Some Rs ->
    In p ps -> f p = Some Rp -> length Rp <= length Rs.
Proof.
  induction ps as [|q ps IH]; intros Rs p Rp HRs Hp HRp; [destruct Hp|].
  simpl in HRs. apply join_Some in HRs as (Rq & Rs' & HRq & HRs' & ->).
  rewrite length_app. destruct Hp as [-> | Hp].
  - rewrite HRp in HRq. injection HRq as <-. lia.
  - pose proof (IH Rs' p Rp HRs' Hp HRp). lia.
Qed.

(** As many hops as endpoints are reached suffice. *)
Lemma reach_length (net : network) (hops : nat) :
  forall at_ src R,
    reach hops net at_ src = Some R -> reach (length R) net at_ src = Some R.
Proof.
  induction hops as [|hops IH]; intros at_ src R Hreach; [discriminate Hreach|].
  apply reach_step in Hreach as (ep & Rs & Hat & HRs & ->). simpl.
  apply (reach_fold _ _ _ _ ep); [exact Hat|].
  apply (sides_incl (fun p => reach hops net p (from_peer at_))); [|exact HRs].
  intros p Rp Hp HRp. apply (reach_mono net (length Rp)); [now apply IH|].
  apply (length_sides (fun p => reach hops net p (from_peer at_)) _ _ p Rp HRs Hp HRp).
Qed.

Lemma reach_exists (net : network) (hops : nat) :
  forall at_ src R z, reach hops net at_ src = Some R -> In z R -> is_Some (net !! z).
Proof.
  induction hops as [|hops IH]; intros at_ src R z Hreach Hz; [discriminate Hreach|].
  apply reach_step in Hreach as (ep & Rs & Hat & HRs & ->).
  destruct Hz as [<- | Hz]; [eauto|].
  destruct (In_sides hops net at_ z _ _ HRs Hz) as (p & Rp & _ & HRp & HzRp).
  now apply (IH p (from_peer at_) Rp).
Qed.

(** A path that passes no endpoint twice is no longer than the mesh is
    large. *)
Lemma reach_size (net : network) (hops : nat) (at_ : endpoint_id) (src : source)
    (R : list endpoint_id) :
  reach hops net at_ src = Some R -> List.NoDup R ->
  reach (size net) net at_ src = Some R.
Proof.
  intros Hreach Hnd. apply (reach_mono net (length R)); [now apply (reach_length net hops)|].
  rewrite <- length_map_to_list, <- (length_map fst).
  apply List.NoDup_incl_length; [exact Hnd|].
  intros z Hz. apply In_keys. now apply (reach_exists net hops at_ src R).
Qed.

(** Where the endpoints on the paths are as they were, the paths are. *)
Lemma reach_unchanged (net net' : network) (changed : endpoint_id -> Prop) :
  (forall z, ~ changed z -> net' !! z = net !! z) ->
  forall hops at_ src R,
    reach hops net at_ src = Some R -> (forall z, In z R -> ~ changed z) ->
    reach hops net' at_ src = Some R.
Proof.
  intros Hsame. induction hops as [|hops IH]; intros at_ src R Hreach Hfar;
    [discriminate Hreach|].
  apply reach_step in Hreach as (ep & Rs & Hat & HRs & ->).
  apply (reach_fold _ _ _ _ ep).
  - rewrite Hsame; [exact Hat|]. apply Hfar. now left.
  - apply (sides_incl (fun p => reach hops net p (from_peer at_))); [|exact HRs].
    intros p Rp Hp HRp. apply IH; [exact HRp|].
    intros z Hz. apply Hfar. right.
    now apply (sides_In hops net at_ _ Rs p Rp z HRs Hp HRp).
Qed.

Lemma Permutation_list_filter {A : Type} (f : A -> bool) (l l' : list A) :
  Permutation l l' -> Permutation (List.filter f l) (List.filter f l').
Proof.
  induction 1 as [|x l l' _ IH | x y l | l l' l'' _ IH1 _ IH2]; simpl.
  - constructor.
  - destruct (f x); [now constructor | exact IH].
  - destruct (f x), (f y); try reflexivity. constructor.
  - now transitivity (List.filter f l').
Qed.

Lemma sessions_new (src : source) (p : endpoint_id) (F : filter_type) (ep : endpoint) :
  peers ep !! p = None ->
  Permutation (sessions src (set_peer_filter p F ep))
              (if is_source src p then sessions src ep else p :: sessions src ep).
Proof.
  intros Hnew. unfold sessions. simpl.
  assert (Permutation (map fst (map_to_list (<[p := F]> (peers ep))))
                      (p :: map fst (map_to_list (peers ep)))) as Hkeys.
  { change (p :: map fst (map_to_list (peers ep)))
      with (map fst ((p, F) :: map_to_list (peers ep))).
    apply Permutation_map. now apply map_to_list_insert. }
  apply (Permutation_list_filter (fun q => negb (is_source src q))) in Hkeys.
  simpl in Hkeys. now destruct (is_source src p).
Qed.

Lemma rtc_linked_sym (net : network) (x y : endpoint_id) :
  symmetric net -> rtc (linked net) x y -> rtc (linked net) y x.
Proof.
  intros Hsym. induction 1 as [|x y z Hxy _ IH]; [apply rtc_refl|].
  apply rtc_r with y; [exact IH | now apply Hsym].
Qed.

(** *** A session between two endpoints that nothing connects *)

Section Join.

Variables (net net' : network) (a b : endpoint_id) (epa epb : endpoint).
Hypothesis at_a : net !! a = Some epa.
Hypothesis at_b : net !! b = Some epb.
Hypothesis at_a' : net' !! a = Some (set_peer_filter b [] epa).
Hypothesis at_b' : net' !! b = Some (set_peer_filter a [] epb).
Hypothesis elsewhere : forall z, ~ (z = a \/ z = b) -> net' !! z = net !! z.
Hypothesis new_a : peers epa !! b = None.
Hypothesis new_b : peers epb !! a = None.

Variables (hb : nat) (Rb : list endpoint_id).
Hypothesis reach_b : reach hb net b local = Some Rb.
Hypothesis distinct_b : List.NoDup Rb.
Hypothesis apart_b : ~ In a Rb.

(** What [a] reaches through the new session is what [b] reached. *)
Lemma reach_through :
  exists Rb', reach hb net' b (from_peer a) = Some Rb' /\ Permutation Rb' Rb.
Proof.
  destruct hb as [|hops]; [discriminate reach_b|].
  destruct (reach_step _ _ _ _ _ reach_b) as (ep & Rs & Hat & HRs & HRb).
  rewrite at_b in Hat. injection Hat as <-.
  assert (~ In b Rs /\ ~ In a Rs) as [HbRs HaRs].
  { rewrite HRb in distinct_b, apart_b.
    apply List.NoDup_cons_iff in distinct_b as [Hb _]. split; [exact Hb|].
    intros Hin. apply apart_b. now right. }
  assert (fold_right (fun p Rs => join (reach hops net' p (from_peer b)) Rs) (Some [])
                     (sessions local epb) = Some Rs) as HRs'.
  { apply (sides_incl (fun p => reach hops net p (from_peer b))); [|exact HRs].
    intros p Rp Hp HRp.
    apply (reach_unchanged net net' (fun z => z = a \/ z = b) elsewhere); [exact HRp|].
    intros z Hz [-> | ->].
    - apply HaRs. now apply (sides_In hops net b _ Rs p Rp a HRs Hp HRp).
    - apply HbRs. now apply (sides_In hops net b _ Rs p Rp b HRs Hp HRp). }
  assert (Permutation (sessions local epb)
                      (sessions (from_peer a) (set_peer_filter a [] epb))) as Hperm.
  { symmetry. etransitivity; [apply (sessions_new _ _ _ _ new_b)|].
    simpl. rewrite String.eqb_refl. unfold sessions.
    assert (forall l : list endpoint_id,
              ~ In a l ->
              List.filter (fun p => negb (is_source (from_peer a) p)) l
              = List.filter (fun p => negb (is_source local p)) l) as Hfilter.
    { induction l as [|x l IHl]; simpl; [reflexivity|]. intros Hno.
      destruct (String.eqb_spec x a) as [-> | Hne]; [elim Hno; now left|].
      simpl. f_equal. apply IHl. intros Hin. apply Hno. now right. }
    rewrite Hfilter; [reflexivity|].
    intros Hin. apply In_keys in Hin as [G HG]. congruence. }
  destruct (sides_perm _ _ _ Hperm Rs HRs') as (Rs' & HRs'' & HpermRs).
  exists (b :: Rs'). split.
  - now apply (reach_fold _ _ _ _ (set_peer_filter a [] epb)).
  - rewrite HRb. now constructor.
Qed.

(** What reached [a] now reaches, through [a], what [b] reached as well. *)
Lemma reach_joined (hops : nat) :
  forall at_ src R,
    reach hops net at_ src = Some R -> List.NoDup R -> In a R -> ~ In b R ->
    is_source src b = false ->
    exists R', reach (hops + hb) net' at_ src = Some R' /\ Permutation R' (R ++ Rb).
Proof.
  induction hops as [|hops IH]; intros at_ src R Hreach Hnd HaR HbR Hsrc;
    [discriminate Hreach|].
  apply reach_step in Hreach as (ep & Rs & Hat & HRs & ->).
  apply List.NoDup_cons_iff in Hnd as [HatRs Hnd].
  assert (forall p Rp,
            reach hops net p (from_peer at_) = Some Rp -> ~ In a Rp -> ~ In b Rp ->
            reach (hops + hb) net' p (from_peer at_) = Some Rp) as Hfar.
  { intros p Rp HRp HaRp HbRp. apply (reach_mono net' hops); [|lia].
    apply (reach_unchanged net net' (fun z => z = a \/ z = b) elsewhere); [exact HRp|].
    now intros z Hz [-> | ->]. }
  destruct (decide (at_ = a)) as [-> | Hne].
  - rewrite at_a in Hat. injection Hat as <-.
    destruct reach_through as (Rb' & HRb' & HpermRb).
    assert (fold_right (fun p Rs => join (reach (hops + hb) net' p (from_peer a)) Rs)
                       (Some []) (b :: sessions src epa) = Some (Rb' ++ Rs)) as HRs'.
    { simpl. rewrite (reach_mono net' hb (hops + hb) b (from_peer a) Rb' HRb') by lia.
      rewrite (sides_incl (fun p => reach hops net p (from_peer a))
                          (fun p => reach (hops + hb) net' p (from_peer a))
                          (sessions src epa) Rs); [reflexivity | | exact HRs].
      intros p Rp Hp HRp. apply Hfar; [exact HRp | |].
      - intros Hin. apply HatRs. now apply (sides_In hops net a _ Rs p Rp a HRs Hp HRp).
      - intros Hin. apply HbR. right.
        now apply (sides_In hops net a _ Rs p Rp b HRs Hp HRp). }
    assert (Permutation (b :: sessions src epa)
                        (sessions src (set_peer_filter b [] epa))) as Hperm.
    { symmetry. etransitivity; [apply (sessions_new _ _ _ _ new_a)|]. now rewrite Hsrc. }
    destruct (sides_perm _ _ _ Hperm _ HRs') as (Rs' & HRs'' & HpermRs).
    exists (a :: Rs'). split.
    + now apply (reach_fold _ _ _ _ (set_peer_filter b [] epa)).
    + simpl. constructor. rewrite <- HpermRs, HpermRb. apply Permutation_app_comm.
  - destruct HaR as [Heq | HaRs]; [now elim Hne|].
    assert (at_ <> b) as Hneb by (intros ->; apply HbR; now left).
    assert (forall ps Rs1,
              fold_right (fun p Rs => join (reach hops net p (from_peer at_)) Rs)
                         (Some []) ps = Some Rs1 ->
              ~ In b Rs1 -> List.NoDup Rs1 ->
              (In a Rs1 ->
               exists Rs',
                 fold_right (fun p Rs => join (reach (hops + hb) net' p (from_peer at_)) Rs)
                            (Some []) ps = Some Rs'
                 /\ Permutation Rs' (Rs1 ++ Rb))
              /\ (~ In a Rs1 ->
                  fold_right (fun p Rs => join (reach (hops + hb) net' p (from_peer at_)) Rs)
                             (Some []) ps = Some Rs1)) as Hfold.
    { induction ps as [|p ps IHps]; intros Rs1 HRs1 HbRs1 HndRs1; simpl in *.
      - injection HRs1 as <-. split; [intros [] | reflexivity].
      - apply join_Some in HRs1 as (Rp & Rs2 & HRp & HRs2 & ->).
        apply NoDup_app_inv in HndRs1 as (HndRp & HndRs2 & Hdis).
        assert (~ In b Rp) as HbRp by (intros Hin; apply HbRs1, in_or_app; now left).
        assert (~ In b Rs2) as HbRs2 by (intros Hin; apply HbRs1, in_or_app; now right).
        destruct (IHps Rs2 HRs2 HbRs2 HndRs2) as [Hwith Hwithout].
        destruct (in_dec String.string_dec a Rp) as [HaRp | HaRp].
        + destruct (IH p (from_peer at_) Rp HRp HndRp HaRp HbRp) as (Rp' & -> & HpermRp).
          { simpl. now apply String.eqb_neq. }
          rewrite (Hwithout (Hdis a HaRp)). simpl. split.
          * intros _. eexists. split; [reflexivity|].
            rewrite HpermRp, <- !app_assoc. apply Permutation_app_head.
            apply Permutation_app_comm.
          * intros Hno. elim Hno. apply in_or_app. now left.
        + rewrite (Hfar p Rp HRp HaRp HbRp). split.
          * intros Hin. apply in_app_or in Hin as [Hin | Hin]; [now elim HaRp|].
            destruct (Hwith Hin) as (Rs2' & -> & HpermRs2). simpl.
            eexists. split; [reflexivity|]. rewrite <- app_assoc.
            now apply Permutation_app_head.
          * intros Hno. rewrite Hwithout; [reflexivity|].
            intros Hin. apply Hno, in_or_app. now right. }
    destruct (Hfold (sessions src ep) Rs HRs) as [Hwith _]; [|exact Hnd|].
    { intros Hin. apply HbR. now right. }
    destruct (Hwith HaRs) as (Rs' & HRs' & HpermRs).
    exists (at_ :: Rs'). split.
    + apply (reach_fold _ _ _ _ ep); [|exact HRs'].
      rewrite elsewhere; [exact Hat | now intros [-> | ->]].
    + simpl. now constructor.
Qed.

End Join.

(** A session between two endpoints that nothing connects closes no
    loop. *)
Lemma handshake_loop_free (net : network) (a b : endpoint_id) (epa epb : endpoint) :
  symmetric net -> loop_free net = true ->
  net !! a = Some epa -> net !! b = Some epb ->
  ~ rtc (linked net) a b ->
  loop_free (<[b := set_peer_filter a [] epb]> (<[a := set_peer_filter b [] epa]> net))
  = true.
Proof.
  intros Hsym Hfree Ha Hb Hapart.
  set (net' := <[b := set_peer_filter a [] epb]> (<[a := set_peer_filter b [] epa]> net)).
  assert (a <> b) as Hab by (intros ->; apply Hapart, rtc_refl).
  assert (peers epa !! b = None) as Hnew_a.
  { destruct (peers epa !! b) as [F|] eqn:HF; [|reflexivity].
    exfalso. apply Hapart, rtc_once. exists epa. eauto. }
  assert (peers epb !! a = None) as Hnew_b.
  { destruct (peers epb !! a) as [F|] eqn:HF; [|reflexivity].
    exfalso. apply Hapart, rtc_once, Hsym. exists epb. eauto. }
  assert (net' !! a = Some (set_peer_filter b [] epa)) as Ha'.
  { unfold net'. rewrite lookup_insert_ne by congruence. apply lookup_insert_eq. }
  assert (net' !! b = Some (set_peer_filter a [] epb)) as Hb' by apply lookup_insert_eq.
  assert (forall z, ~ (z = a \/ z = b) -> net' !! z = net !! z) as Helse.
  { intros z Hz. unfold net'. rewrite !lookup_insert_ne; [reflexivity | |]; intros ->;
      apply Hz; auto. }
  assert (forall z, ~ (z = b \/ z = a) -> net' !! z = net !! z) as Helse'.
  { intros z Hz. apply Helse. tauto. }
  destruct (loop_free_reach net a Hfree) as (Ra & HRa & HndRa); [eauto|].
  destruct (loop_free_reach net b Hfree) as (Rb & HRb & HndRb); [eauto|].
  assert (~ In a Rb) as HaRb.
  { intros Hin. apply Hapart, rtc_linked_sym; [exact Hsym|].
    now apply (reach_sound net (size net) b local Rb). }
  assert (~ In b Ra) as HbRa.
  { intros Hin. apply Hapart. now apply (reach_sound net (size net) a local Ra). }
  unfold loop_free. apply forallb_forall. intros e He. apply In_keys in He.
  assert (is_Some (net !! e)) as He0.
  { destruct (decide (e = a)) as [-> | Hea]; [eauto|].
    destruct (decide (e = b)) as [-> | Heb]; [eauto|].
    rewrite <- Helse; [exact He | tauto]. }
  destruct (loop_free_reach net e Hfree He0) as (R & HR & HndR).
  assert (forall z, In z R -> rtc (linked net) e z) as Hsound.
  { intros z. now apply (reach_sound net (size net) e local R). }
  assert (exists hops R', reach hops net' e local = Some R' /\ List.NoDup R')
    as (hops & R' & HR' & HndR').
  { destruct (in_dec String.string_dec a R) as [HaR | HaR].
    - assert (~ In b R) as HbR.
      { intros HbR. apply Hapart. transitivity e; [|now apply Hsound].
        apply rtc_linked_sym; [exact Hsym | now apply Hsound]. }
      destruct (reach_joined net net' a b epa epb Ha Hb Ha' Hb' Helse Hnew_a Hnew_b
                             (size net) Rb HRb HndRb HaRb (size net) e local R HR HndR
                             HaR HbR eq_refl) as (R' & HR' & Hperm).
      exists (size net + size net), R'. split; [exact HR'|].
      apply (Permutation_NoDup (Permutation_sym Hperm)).
      apply List.NoDup_app; [exact HndR | exact HndRb |].
      intros z HzR HzRb. apply Hapart. transitivity e.
      + apply rtc_linked_sym; [exact Hsym | now apply Hsound].
      + transitivity z; [now apply Hsound|]. apply rtc_linked_sym; [exact Hsym|].
        now apply (reach_sound net (size net) b local Rb).
    - destruct (in_dec String.string_dec b R) as [HbR | HbR].
      + destruct (reach_joined net net' b a epb epa Hb Ha Hb' Ha' Helse' Hnew_b Hnew_a
                               (size net) Ra HRa HndRa HbRa (size net) e local R HR HndR
                               HbR HaR eq_refl) as (R' & HR' & Hperm).
        exists (size net + size net), R'. split; [exact HR'|].
        apply (Permutation_NoDup (Permutation_sym Hperm)).
        apply List.NoDup_app; [exact HndR | exact HndRa |].
        intros z HzR HzRa. apply Hapart. transitivity z.
        * now apply (reach_sound net (size net) a local Ra).
        * transitivity e; [|now apply Hsound].
          apply rtc_linked_sym; [exact Hsym | now apply Hsound].
      + exists (size net), R. split; [|exact HndR].
        apply (reach_unchanged net net' (fun z => z = a \/ z = b) Helse); [exact HR|].
        intros z Hz [-> | ->]; contradiction. }
  rewrite (reach_size net' hops e local R' HR' HndR'). now apply distinct_NoDup.
Qed.

Lemma handshake_again (net : network) (a b : endpoint_id) (epa epb : endpoint) :
  net !! a = Some epa -> net !! b = Some epb ->
  is_Some (peers epa !! b) -> is_Some (peers epb !! a) ->
  topology (<[b := set_peer_filter a [] epb]> (<[a := set_peer_filter b [] epa]> net))
  = topology net.
Proof.
  intros Ha Hb Hab Hba. apply map_eq. intros z. rewrite !topology_lookup.
  destruct (decide (z = b)) as [-> | Hzb].
  - rewrite lookup_insert_eq, Hb. simpl. f_equal. now apply set_peer_filter_topology.
  - rewrite lookup_insert_ne by congruence. destruct (decide (z = a)) as [-> | Hza].
    + rewrite lookup_insert_eq, Ha. simpl. f_equal. now apply set_peer_filter_topology.
    + now rewrite lookup_insert_ne by congruence.
Qed.

(** [peer] closes a loop only where sessions connect the two endpoints
    already. *)
Lemma peer_loop_free (net : network) (a b : endpoint_id) :
  symmetric net -> loop_free net = true -> ~ closes_loop net (do_peer a b) ->
  loop_free (peer net a b) = true.
Proof.
  intros Hsym Hfree Hno.
  destruct (net !! a) as [epa|] eqn:Ha; [|unfold peer; now rewrite Ha].
  destruct (net !! b) as [epb|] eqn:Hb; [|unfold peer; now rewrite Ha, Hb].
  rewrite (loop_free_topology _ _ (peer_topology net a b epa epb Ha Hb Hsym)).
  destruct (peers epa !! b) as [F|] eqn:Hlink.
  - rewrite (loop_free_topology _ net); [exact Hfree|].
    apply handshake_again; eauto.
    destruct (Hsym a b) as (ep & Hep & Hback); [exists epa; eauto|].
    rewrite Hb in Hep. now injection Hep as <-.
  - apply handshake_loop_free; auto. intros Hrtc. apply Hno. simpl.
    split; [eauto|]. split; [eauto|]. split; [|exact Hrtc].
    intros (ep & Hep & [G HG]). rewrite Ha in Hep. injection Hep as <-. congruence.
Qed.

(** *** Commands that close no loop *)

(** The commands keep a loop-free topology loop-free unless a [peer]
    closes a loop. *)
Lemma execute_loop_free (net : network) (c : command) :
  symmetric net -> settled net -> loop_free net = true -> ~ closes_loop net c ->
  loop_free (execute net c) = true.
Proof.
  intros Hsym Hsettled Hfree Hno.
  assert (forall e i x add, loop_free (update_filter net e i x add) = true) as Hupdate.
  { intros e i x add. unfold update_filter.
    destruct (net !! e) as [ep|] eqn:He; [|exact Hfree].
    now rewrite (loop_free_topology _ net
                   (change_topology net e ep (update_local i x add ep) Hsym He eq_refl)). }
  destruct c as [a b | e F | e i x | e i x | e msg]; simpl.
  - now apply peer_loop_free.
  - unfold subscribe. destruct (net !! e) as [ep|] eqn:He; [|exact Hfree].
    now rewrite (loop_free_topology _ net
                   (change_topology net e ep (add_local F ep) Hsym He eq_refl)).
  - apply Hupdate.
  - apply Hupdate.
  - rewrite (loop_free_topology _ net); [exact Hfree|].
    apply routing_table_topology. now apply publish_routing_table.
Qed.

Lemma isolated_loop_free (ids : list endpoint_id) : loop_free (isolated ids) = true.
Proof.
  unfold loop_free. apply forallb_forall. intros e He. apply In_keys in He as [ep He].
  destruct (size (isolated ids)) as [|n] eqn:Hsize.
  - apply map_size_empty_inv in Hsize. rewrite Hsize, lookup_empty in He. discriminate He.
  - cbn [reach]. rewrite He. apply lookup_isolated in He as ->.
    unfold sessions. simpl. rewrite map_to_list_empty. reflexivity.
Qed.

Lemma admissible_join (cmds cmds' : list command) :
  forall net, admissible net cmds = true -> admissible (run net cmds) cmds' = true ->
              admissible net (cmds ++ cmds') = true.
Proof.
  induction cmds as [|c cmds IH]; intros net; simpl; [auto|].
  rewrite !andb_true_iff. intros [Hfree Hrest] Hcmds'. split; [exact Hfree|].
  now apply IH.
Qed.

(** A sequence of commands stays admissible as long as no [peer] closes
    a loop. *)
Lemma admissible_next (ids : list endpoint_id) (cmds : list command) (c : command) :
  admissible (isolated ids) cmds = true ->
  ~ closes_loop (run (isolated ids) cmds) c ->
  admissible (isolated ids) (cmds ++ [c]) = true.
Proof.
  intros Hadm Hno.
  destruct (run_keeps cmds (isolated ids) (isolated_symmetric ids) (isolated_settled ids)
                      Hadm) as (Hsym & Hsettled & Hfree).
  apply admissible_join; [exact Hadm|]. simpl.
  rewrite Hfree, (execute_loop_free _ c Hsym Hsettled Hfree Hno). reflexivity.
Qed.

Lemma publish_trace_connected (trace : list (endpoint_id * message)) :
  forall net,
    settled net -> loop_free net = true -> connected net = true ->
    Forall (fun sm => is_Some (net !! fst sm)) trace ->
    publish_trace net trace = deliver_all (map snd trace) <$> net.
Proof.
  unfold publish_trace, deliver_all.
  induction trace as [|[e msg] trace IH]; intros net Hsettled Hfree Hconn Hsources; simpl.
  - symmetry. apply map_fmap_id.
  - apply List.Forall_cons_iff in Hsources as [He Hsources]. simpl in He.
    rewrite (publish_mailboxes_connected net e msg Hsettled Hfree Hconn He).
    assert (routing_table <$> (deliver_local msg <$> net) = routing_table <$> net) as Htable.
    { apply (routing_table_delivered msg). intros z. left. apply lookup_fmap. }
    pose proof (routing_table_topology _ _ Htable) as Htop.
    rewrite IH.
    + rewrite <- map_fmap_compose. reflexivity.
    + now apply (routing_table_settled _ net).
    + now rewrite (loop_free_topology _ net Htop).
    + now rewrite (connected_topology _ net Htop).
    + eapply List.Forall_impl; [|exact Hsources]. intros sm [ep Hep].
      rewrite lookup_fmap, Hep. simpl. eauto.
Qed.

(** *** The claims *)

(** C1: in the triangle (the endpoints created, venus and earth peered
    with mercury, venus subscribed to "zeek/events" and earth to
    "zeek/events/errors"), after mercury has published the four messages,
    mercury's subscribers have received nothing, venus's subscriber has
    received the four messages in publish order and earth's the two messages
    on "zeek/events/errors" in publish order.

    In general, for endpoints that start without subscribers and sessions
    and whatever [peer], [subscribe], [add_topic], [remove_topic] and
    [publish] are called on them in whatever order, as long as the topology
    stays loop-free ([admissible]; it does as long as no [peer] is called
    for two endpoints that sessions connect already without their having
    a session with each other):
    - a message published at [e] is delivered at exactly the endpoints that
      sessions connect with [e], and there it goes to the end of the queue
      of every subscriber whose filter covers its topic at that moment, to
      no other queue, and changes nothing else;
    - the other commands change no queue: [subscribe] adds a subscriber
      with an empty queue, [add_topic] and [remove_topic] change the filter
      of one subscriber, [peer] changes no subscriber;
    - hence, once the mesh is connected, the subscribers and their queues
      are at all times what the spec expects of them ([expected], which
      knows of no session and no routing);
    - and after a sequence of messages published at any endpoints of a
      connected mesh, every queue has grown by exactly the messages whose
      topics its filter covers, in publish order, and no peer record has
      changed. *)
Theorem prefix_routing_delivers_covered_messages :
  (triangle = run (isolated [mercury; venus; earth]) triangle_setup
   /\ received <$> publish_all triangle mercury published !! mercury = Some []
   /\ received <$> publish_all triangle mercury published !! venus
      = Some [ [ ("zeek/events/errors"%string, Value.d_string "oops");
                 ("zeek/events/errors"%string, Value.d_string "sorry!");
                 ("zeek/events/data"%string, Value.d_integer 123%Z);
                 ("zeek/events/data"%string, Value.d_integer 456%Z) ] ]
   /\ received <$> publish_all triangle mercury published !! earth
      = Some [ [ ("zeek/events/errors"%string, Value.d_string "oops");
                 ("zeek/events/errors"%string, Value.d_string "sorry!") ] ])
  /\ (forall (ids : list endpoint_id) (cmds : list command) (e : endpoint_id)
             (msg : message),
        admissible (isolated ids) cmds = true ->
        is_Some (run (isolated ids) cmds !! e) ->
        exists R,
          reach (size (run (isolated ids) cmds)) (run (isolated ids) cmds) e local = Some R
          /\ (forall z, In z R <-> rtc (linked (run (isolated ids) cmds)) e z)
          /\ (forall z, In z R ->
                publish (run (isolated ids) cmds) e msg !! z
                = deliver_local msg <$> run (isolated ids) cmds !! z)
          /\ (forall z, ~ In z R ->
                publish (run (isolated ids) cmds) e msg !! z
                = run (isolated ids) cmds !! z))
  /\ (forall (net : network) (c : command),
        (forall e msg, c <> do_publish e msg) ->
        mailboxes (execute net c) = expected (mailboxes net) c)
  /\ (forall (ids : list endpoint_id) (setup cmds : list command),
        admissible (isolated ids) (setup ++ cmds) = true ->
        connected (run (isolated ids) setup) = true ->
        mailboxes (run (isolated ids) (setup ++ cmds))
        = fold_left expected cmds (mailboxes (run (isolated ids) setup)))
  /\ (forall (ids : list endpoint_id) (setup : list command)
             (trace : list (endpoint_id * message)),
        admissible (isolated ids) setup = true ->
        connected (run (isolated ids) setup) = true ->
        Forall (fun sm => is_Some (run (isolated ids) setup !! fst sm)) trace ->
        forall e ep, run (isolated ids) setup !! e = Some ep ->
          exists ep', publish_trace (run (isolated ids) setup) trace !! e = Some ep'
            /\ peers ep' = peers ep
            /\ local_subscribers ep'
               = map (fun sub =>
                        (fst sub,
                         snd sub ++ List.filter (fun msg => covers (fst sub) (fst msg))
                                                (map snd trace)))
                     (local_subscribers ep))
  /\ (forall ids : list endpoint_id, admissible (isolated ids) [] = true)
  /\ (forall (ids : list endpoint_id) (cmds : list command) (c : command),
        admissible (isolated ids) cmds = true ->
        ~ closes_loop (run (isolated ids) cmds) c ->
        admissible (isolated ids) (cmds ++ [c]) = true).
Proof.
  split; [|split; [|split; [|split; [|split; [|split]]]]].
  - repeat split; vm_compute; reflexivity.
  - intros ids cmds e msg Hadm He.
    destruct (run_keeps cmds (isolated ids) (isolated_symmetric ids) (isolated_settled ids)
                        Hadm) as (Hsym & Hsettled & Hfree).
    destruct (loop_free_reach _ e Hfree He) as (R & HR & Hnd).
    exists R. split; [exact HR|]. split; [|split].
    + intros z. now apply (reach_connects _ (size (run (isolated ids) cmds))).
    + intros z. now apply (publish_delivers _ e msg R).
    + intros z. now apply (publish_delivers _ e msg R).
  - exact execute_expected.
  - intros ids setup cmds Hadm Hconn.
    apply admissible_app in Hadm as [Hsetup Hcmds].
    destruct (run_keeps setup (isolated ids) (isolated_symmetric ids) (isolated_settled ids)
                        Hsetup) as (Hsym & Hsettled & Hfree).
    unfold run at 1. rewrite fold_left_app. now apply run_expected.
  - intros ids setup trace Hadm Hconn Hsources e ep He.
    destruct (run_keeps setup (isolated ids) (isolated_symmetric ids) (isolated_settled ids)
                        Hadm) as (Hsym & Hsettled & Hfree).
    rewrite (publish_trace_connected trace _ Hsettled Hfree Hconn Hsources), lookup_fmap, He.
    exists (deliver_all (map snd trace) ep). split; [reflexivity|]. split.
    + apply deliver_all_peers.
    + apply deliver_all_queues.
  - intros ids. simpl. now rewrite isolated_loop_free.
  - exact admissible_next.
Qed.

Lemma prefix_routing_witness :
  mailboxes (run (isolated ["a"; "b"; "c"; "d"]%string) (chain_setup ++ chain_run))
    !! "d"%string
  = Some [ (["y"%string],
            [ ("x/1"%string, Value.d_count 1%Z); ("y"%string, Value.d_count 3%Z);
              ("y/z"%string, Value.d_count 5%Z) ]) ]
  /\ mailboxes (run (isolated ["a"; "b"; "c"; "d"]%string) (chain_setup ++ chain_run))
       !! "b"%string
     = Some [ (["x"%string], [ ("x/1"%string, Value.d_count 4%Z) ]) ].
Proof.
  rewrite (proj1 (proj2 (proj2 (proj2 prefix_routing_delivers_covered_messages)))
                 ["a"; "b"; "c"; "d"]%string chain_setup chain_run).
  - split; vm_compute; reflexivity.
  - vm_compute. reflexivity.
  - vm_compute. reflexivity.
Defined.

(** C6: [peer_subscriptions] is the canonical union of the filters received
    from the peers: no entry occurs twice, no entry is covered by another
    entry, every entry comes from the filter of a peer, and it covers exactly
    the topics that the filter of some peer covers.  With the filters
    {"zeek/events"} and {"zeek/events/errors"} it is {"zeek/events"}, and so
    it is for mercury in the triangle. *)
Theorem peer_subscriptions_canonical_union :
  (forall ep, subsumption_free (peer_subscriptions ep))
  /\ (forall ep t, In t (peer_subscriptions ep) ->
                   exists p F, peers ep !! p = Some F /\ In t F)
  /\ (forall ep u, covers (peer_subscriptions ep) u = true
                   <-> exists p F, peers ep !! p = Some F /\ covers F u = true)
  /\ (forall subs, peer_subscriptions (two_peers subs) = ["zeek/events"%string])
  /\ peer_subscriptions <$> triangle !! mercury = Some ["zeek/events"%string].
Proof.
  split; [|split; [|split; [|split]]].
  - intros ep. apply canonical_union_subsumption_free.
  - intros ep t Hin. apply In_canonical_union in Hin as (F & HF & Hin).
    apply In_peer_filters in HF as [p Hp]. eauto.
  - intros ep u. unfold peer_subscriptions. rewrite covers_canonical_union. split.
    + intros (F & HF & Hcov). apply In_peer_filters in HF as [p Hp]. eauto.
    + intros (p & F & Hp & Hcov). exists F. split; [|exact Hcov].
      apply In_peer_filters. eauto.
  - intros subs. vm_compute. reflexivity.
  - vm_compute. reflexivity.
Qed.

Lemma peer_subscriptions_witness :
  covers (peer_subscriptions (two_peers [])) "zeek/events/data"%string = true.
Proof.
  apply (proj1 (proj2 (proj2 peer_subscriptions_canonical_union))).
  exists venus, ["zeek/events"%string]. split; reflexivity.
Defined.

End RoutingFacts.

(** ** Peering *)

Module PeeringFacts.

Import Peering.

Lemma skipn_length_app {A : Type} (l l' : list A) : skipn (length l) (l ++ l') = l'.
Proof. induction l as [|x l IH]; simpl; [reflexivity | exact IH]. Qed.

Lemma events_since_same (before after : mesh) (e : endpoint_id) :
  after !! e = before !! e -> events_since before after e = [].
Proof.
  intros Heq. unfold events_since, events_of. rewrite Heq.
  destruct (before !! e); [apply skipn_all | reflexivity].
Qed.

Lemma events_since_grown (before after : mesh) (e : endpoint_id) (ep ep' : endpoint)
    (evs : list event) :
  before !! e = Some ep -> after !! e = Some ep' -> bus ep' = bus ep ++ evs ->
  events_since before after e = evs.
Proof.
  intros Hb Ha Hbus. unfold events_since, events_of. rewrite Hb, Ha, Hbus.
  apply skipn_length_app.
Qed.

(** *** Single attempts *)

Lemma accepts_listening (net : mesh) (m : endpoint_id) (port : Z) (epm : endpoint) :
  net !! m = Some epm -> accepts net (m, port) = bool_decide (listening epm = Some port).
Proof. intros Hm. unfold accepts. simpl. now rewrite Hm. Qed.

Lemma attempt_fails (net : mesh) (v m : endpoint_id) (port : Z) (r : nat)
    (epv epm : endpoint) :
  v <> m -> net !! v = Some epv -> net !! m = Some epm ->
  listening epm <> Some port -> r <> 0 ->
  attempt net v (m, port) r
  = <[v := emit (error_event peer_unavailable)
                (set_record m (reconnecting_to (m, port) r) epv)]> net.
Proof.
  intros Hne Hv Hm Hlisten Hr. unfold attempt. simpl. rewrite Hv, Hm.
  destruct (String.eqb_spec v m) as [Heq | _]; [now elim Hne|].
  rewrite (accepts_listening net m port epm Hm), bool_decide_eq_false_2 by exact Hlisten.
  destruct (Nat.eqb_spec r 0) as [Heq | _]; [now elim Hr | reflexivity].
Qed.

Lemma attempt_succeeds (net : mesh) (v m : endpoint_id) (port : Z) (r : nat)
    (epv epm : endpoint) :
  v <> m -> net !! v = Some epv -> net !! m = Some epm ->
  listening epm = Some port ->
  attempt net v (m, port) r
  = <[m := emit (status_event peer_added) (set_record v accepted epm)]>
      (<[v := emit (status_event peer_added)
                   (set_record m (peered_to (m, port) r) epv)]> net).
Proof.
  intros Hne Hv Hm Hlisten. unfold attempt. simpl. rewrite Hv, Hm.
  destruct (String.eqb_spec v m) as [Heq | _]; [now elim Hne|].
  now rewrite (accepts_listening net m port epm Hm), bool_decide_eq_true_2 by exact Hlisten.
Qed.

(** While nobody listens, every retry fails and adds one [peer_unavailable]
    to the bus. *)
Lemma retries_fail (v m : endpoint_id) (port : Z) (r k : nat) :
  v <> m -> r <> 0 ->
  forall (net : mesh) (epv epm : endpoint),
  net !! v = Some epv -> net !! m = Some epm -> listening epm <> Some port ->
  peers epv !! m = Some (reconnecting_to (m, port) r) ->
  run net (repeat (do_retry v m) k)
  = <[v := {| listening := listening epv; peers := peers epv;
              bus := bus epv ++ repeat (error_event peer_unavailable) k |}]> net.
Proof.
  intros Hne Hr. induction k as [|k IH]; intros net epv epm Hv Hm Hlisten Hrec.
  - simpl. rewrite app_nil_r. symmetry. apply insert_id. rewrite Hv. now destruct epv.
  - cbn [repeat run fold_left step]. fold (run (retry_timeout net v m) (repeat (do_retry v m) k)).
    assert (retry_timeout net v m
            = <[v := emit (error_event peer_unavailable) epv]> net) as ->.
    { unfold retry_timeout. rewrite Hv, Hrec. simpl.
      rewrite (attempt_fails net v m port r epv epm Hne Hv Hm Hlisten Hr).
      f_equal. unfold emit, set_record. simpl. f_equal. now apply insert_id. }
    rewrite (IH _ (emit (error_event peer_unavailable) epv) epm).
    + rewrite insert_insert_eq. simpl. now rewrite <- app_assoc.
    + apply lookup_insert_eq.
    + now rewrite lookup_insert_ne.
    + exact Hlisten.
    + exact Hrec.
Qed.

(** *** Unpeering *)

Lemma unpeer_peered (net : mesh) (v m : endpoint_id) (port : Z)
    (epv epm : endpoint) (record record' : peer_record) :
  v <> m -> net !! v = Some epv -> net !! m = Some epm ->
  peers epv !! m = Some record -> network record = Some (m, port) ->
  status record = peered -> peers epm !! v = Some record' ->
  unpeer net v (m, port)
  = <[m := emit (status_event peer_lost) (remove_record v epm)]>
      (<[v := emit (status_event peer_removed) (remove_record m epv)]> net).
Proof.
  intros Hne Hv Hm Hrec Hnetwork Hstatus Hrec'. unfold unpeer. simpl.
  rewrite Hv, Hrec, bool_decide_eq_true_2 by exact Hnetwork.
  rewrite Hstatus, lookup_insert_ne by exact Hne. now rewrite Hm, Hrec'.
Qed.

Lemma unpeer_unknown (net : mesh) (v : endpoint_id) (addr : network_address)
    (epv : endpoint) :
  net !! v = Some epv -> peers epv !! fst addr = None ->
  unpeer net v addr = <[v := emit (error_event peer_invalid) epv]> net.
Proof. intros Hv Hrec. unfold unpeer. now rewrite Hv, Hrec. Qed.

(** C2: when [v] unpeers from the endpoint [m] it is peered with, the bus
    of [m] gets [peer_lost], the bus of [v] gets [peer_removed], and no
    other endpoint changes; a second unpeer of the same address adds only
    the error [peer_invalid] to the bus of [v] and changes no other
    endpoint.  Unpeering from an address [v] holds no record for adds the
    error [peer_invalid] to the bus of [v], changes no other endpoint, and
    leaves [v] without a record for it.  In the triangle of the integration
    test: venus unpeers from mercury, then again, then from ("sun", 123). *)
Theorem unpeer_events :
  (forall (net : mesh) (v m : endpoint_id) (port : Z) (epv epm : endpoint)
          (record record' : peer_record),
      v <> m -> net !! v = Some epv -> net !! m = Some epm ->
      peers epv !! m = Some record -> network record = Some (m, port) ->
      status record = peered -> peers epm !! v = Some record' ->
      (events_since net (unpeer net v (m, port)) m = [status_event peer_lost]
       /\ events_since net (unpeer net v (m, port)) v = [status_event peer_removed]
       /\ forall e, e <> v -> e <> m -> unpeer net v (m, port) !! e = net !! e)
      /\ (events_since (unpeer net v (m, port))
                       (unpeer (unpeer net v (m, port)) v (m, port)) v
          = [error_event peer_invalid]
          /\ forall e, e <> v ->
               unpeer (unpeer net v (m, port)) v (m, port) !! e
               = unpeer net v (m, port) !! e))
  /\ (forall (net : mesh) (v : endpoint_id) (addr : network_address) (epv : endpoint),
        net !! v = Some epv -> peers epv !! fst addr = None ->
        events_since net (unpeer net v addr) v = [error_event peer_invalid]
        /\ (forall e, e <> v -> unpeer net v addr !! e = net !! e)
        /\ peers <$> unpeer net v addr !! v = Some (peers epv)
        /\ (fun ep => peers ep !! fst addr) <$> unpeer net v addr !! v = Some None)
  /\ (let once := unpeer connected venus (mercury, 4040%Z) in
      let twice := unpeer once venus (mercury, 4040%Z) in
      let sun := unpeer twice venus ("sun"%string, 123%Z) in
      (events_since connected once mercury = [status_event peer_lost]
       /\ events_since connected once venus = [status_event peer_removed]
       /\ events_since connected once earth = [])
      /\ (events_since once twice mercury = []
          /\ events_since once twice venus = [error_event peer_invalid]
          /\ events_since once twice earth = [])
      /\ (events_since twice sun mercury = []
          /\ events_since twice sun venus = [error_event peer_invalid]
          /\ events_since twice sun earth = []
          /\ (fun ep => peers ep !! "sun"%string) <$> sun !! venus = Some None)).
Proof.
  split; [|split].
  - intros net v m port epv epm record record' Hne Hv Hm Hrec Hnetwork Hstatus Hrec'.
    rewrite (unpeer_peered net v m port epv epm record record'
               Hne Hv Hm Hrec Hnetwork Hstatus Hrec').
    split; [split; [|split]|].
    + eapply events_since_grown; [exact Hm | apply lookup_insert_eq | reflexivity].
    + eapply events_since_grown;
        [exact Hv
        | rewrite lookup_insert_ne by congruence; apply lookup_insert_eq
        | reflexivity].
    + intros e Hev Hem. now rewrite !lookup_insert_ne by congruence.
    + rewrite (unpeer_unknown _ v (m, port)
                 (emit (status_event peer_removed) (remove_record m epv))).
      * split.
        -- eapply events_since_grown;
             [rewrite lookup_insert_ne by congruence; apply lookup_insert_eq
             | apply lookup_insert_eq
             | reflexivity].
        -- intros e Hev. now rewrite lookup_insert_ne by congruence.
      * rewrite lookup_insert_ne by congruence. apply lookup_insert_eq.
      * simpl. apply lookup_delete_eq.
  - intros net v addr epv Hv Hrec. rewrite (unpeer_unknown net v addr epv Hv Hrec).
    split; [|split; [|split]].
    + eapply events_since_grown; [exact Hv | apply lookup_insert_eq | reflexivity].
    + intros e Hev. now rewrite lookup_insert_ne by congruence.
    + now rewrite lookup_insert_eq.
    + rewrite lookup_insert_eq. simpl. now rewrite Hrec.
  - cbv zeta. repeat split; vm_compute; reflexivity.
Qed.

Lemma unpeer_events_witness :
  events_since connected (unpeer connected venus (mercury, 4040%Z)) mercury
  = [status_event peer_lost].
Proof.
  destruct (connected !! venus) as [epv|] eqn:Hv; [|vm_compute in Hv; discriminate].
  destruct (connected !! mercury) as [epm|] eqn:Hm; [|vm_compute in Hm; discriminate].
  vm_compute in Hv, Hm. injection Hv as <-. injection Hm as <-.
  refine (proj1 (proj1 (proj1 unpeer_events connected venus mercury 4040%Z
                              _ _ (peered_to (mercury, 4040%Z) 0) accepted
                              _ _ _ _ _ _ _)));
    try reflexivity; try discriminate.
Defined.

(** *** Connection retry *)

(** C3: [v] initiates peering to [m] with a retry interval [r > 0] while
    [m] does not listen; the interval passes [k] more times; then [m] starts
    to listen, and the interval passes once more.  The bus of [v] has got
    [k + 1] errors [peer_unavailable], one for every failed attempt, followed
    by the status [peer_added]; the bus of [m] has got [peer_added]; both
    hold a [peered] record of the other; no other endpoint has changed. *)
Theorem retry_until_listening
    (net : mesh) (v m : endpoint_id) (port : Z) (r k : nat) (epv epm : endpoint) :
  0 < r -> v <> m -> net !! v = Some epv -> net !! m = Some epm ->
  peers epv !! m = None -> listening epm <> Some port ->
  let net' := run net (do_peer v (m, port) r
                       :: repeat (do_retry v m) k
                       ++ [do_listen m port; do_retry v m]) in
  events_since net net' v
  = repeat (error_event peer_unavailable) (S k) ++ [status_event peer_added]
  /\ events_since net net' m = [status_event peer_added]
  /\ (fun ep => status <$> peers ep !! m) <$> net' !! v = Some (Some peered)
  /\ (fun ep => status <$> peers ep !! v) <$> net' !! m = Some (Some peered)
  /\ forall e, e <> v -> e <> m -> net' !! e = net !! e.
Proof.
  intros Hr Hne Hv Hm Hnone Hlisten net'.
  assert (r <> 0) as Hr' by lia.
  set (waiting := emit (error_event peer_unavailable)
                       (set_record m (reconnecting_to (m, port) r) epv)).
  set (tired := {| listening := listening waiting; peers := peers waiting;
                   bus := bus waiting ++ repeat (error_event peer_unavailable) k |}).
  set (open := {| listening := Some port; peers := peers epm; bus := bus epm |}).
  assert (net' = <[m := emit (status_event peer_added) (set_record v accepted open)]>
                   (<[v := emit (status_event peer_added)
                                (set_record m (peered_to (m, port) r) tired)]> net))
    as ->.
  { subst net'. unfold run. cbn [fold_left step].
    assert (peer net v (m, port) r = <[v := waiting]> net) as ->.
    { unfold peer. simpl. rewrite Hv, Hnone.
      apply (attempt_fails net v m port r epv epm Hne Hv Hm Hlisten Hr'). }
    rewrite fold_left_app. fold (run (<[v := waiting]> net) (repeat (do_retry v m) k)).
    rewrite (retries_fail v m port r k Hne Hr' _ waiting epm).
    - rewrite insert_insert_eq. fold tired. cbn [fold_left step].
      assert (listen (<[v := tired]> net) m port
              = <[m := open]> (<[v := tired]> net)) as ->.
      { unfold listen. now rewrite lookup_insert_ne, Hm by exact Hne. }
      unfold retry_timeout. rewrite lookup_insert_ne by congruence.
      rewrite lookup_insert_eq.
      assert (peers tired !! m = Some (reconnecting_to (m, port) r)) as ->
        by apply lookup_insert_eq.
      cbn [reconnecting_to].
      rewrite (attempt_succeeds _ v m port r tired open).
      + apply map_eq. intros e.
        destruct (decide (e = m)) as [-> | Hem]; [now rewrite !lookup_insert_eq|].
        rewrite !(lookup_insert_ne _ m e) by congruence.
        destruct (decide (e = v)) as [-> | Hev]; [now rewrite !lookup_insert_eq|].
        now rewrite !lookup_insert_ne by congruence.
      + exact Hne.
      + rewrite lookup_insert_ne by congruence. apply lookup_insert_eq.
      + apply lookup_insert_eq.
      + reflexivity.
    - apply lookup_insert_eq.
    - now rewrite lookup_insert_ne.
    - exact Hlisten.
    - apply lookup_insert_eq. }
  split; [|split; [|split; [|split]]].
  - eapply events_since_grown;
      [exact Hv
      | rewrite lookup_insert_ne by congruence; apply lookup_insert_eq
      | simpl; now rewrite <- !app_assoc].
  - eapply events_since_grown; [exact Hm | apply lookup_insert_eq | reflexivity].
  - rewrite lookup_insert_ne by congruence. rewrite lookup_insert_eq. simpl.
    now rewrite lookup_insert_eq.
  - rewrite lookup_insert_eq. simpl. now rewrite lookup_insert_eq.
  - intros e Hev Hem. now rewrite !lookup_insert_ne by congruence.
Qed.

(** Venus peers with mercury with a retry interval of one second; mercury
    starts to listen after two more attempts. *)
Lemma retry_until_listening_witness :
  events_since three_endpoints
    (run three_endpoints
         [ do_peer venus (mercury, 4040%Z) 1; do_retry venus mercury;
           do_retry venus mercury; do_listen mercury 4040%Z; do_retry venus mercury ])
    venus
  = [ error_event peer_unavailable; error_event peer_unavailable;
      error_event peer_unavailable; status_event peer_added ].
Proof.
  refine (proj1 (retry_until_listening three_endpoints venus mercury 4040%Z 1 2
                   fresh_endpoint fresh_endpoint _ _ _ _ _ _));
    try reflexivity; try discriminate; lia.
Defined.

End PeeringFacts.

(** ** The event log of the integration test *)

Module EventLogFacts.

Import Peering EventLog.

Lemma code_eq_spec (x y : code) : code_eq x y = true <-> x = y.
Proof.
  destruct x as [a | a], y as [b | b]; simpl; try (split; [discriminate | congruence]);
    rewrite Nat.eqb_eq; (split; [|congruence]); destruct a, b; simpl; congruence.
Qed.

Lemma In_unique_after {A : Type} (eq : A -> A -> bool) (xs : list A) :
  forall kept x, In x (Std.unique_after eq kept xs) -> In x xs.
Proof.
  induction xs as [|a xs IH]; intros kept x; simpl; [easy|].
  destruct (eq kept a); simpl; [right; eauto|]. intros [-> | H]; eauto.
Qed.

Lemma unique_after_keeps {A : Type} (eq : A -> A -> bool) (xs : list A) :
  (forall x y, eq x y = true -> x = y) ->
  forall kept x, In x xs -> x = kept \/ In x (Std.unique_after eq kept xs).
Proof.
  intros Heq. induction xs as [|a xs IH]; intros kept x; simpl; [easy|].
  destruct (eq kept a) eqn:Hka.
  - apply Heq in Hka as <-. intros [-> | H]; [now left | now apply IH].
  - simpl. intros [-> | H]; [right; now left|].
    destruct (IH a x H) as [-> | Hin]; right; [now left | now right].
Qed.

Lemma unique_after_distinct {A : Type} (eq : A -> A -> bool) (xs : list A) :
  forall kept,
    Std.adjacent_find eq (kept :: Std.unique_after eq kept xs)
    = S (length (Std.unique_after eq kept xs)).
Proof.
  induction xs as [|a xs IH]; intros kept; [reflexivity|].
  cbn [Std.unique_after]. destruct (eq kept a) eqn:Hka; [apply IH|].
  cbn [Std.adjacent_find]. rewrite Hka. f_equal. apply IH.
Qed.

Lemma unique_distinct {A : Type} (eq : A -> A -> bool) (xs : list A) :
  Std.adjacent_find eq (Std.unique eq xs) = length (Std.unique eq xs).
Proof. destruct xs as [|x xs]; [reflexivity | apply unique_after_distinct]. Qed.

Lemma unique_after_same {A : Type} (eq : A -> A -> bool) (x : A) (n : nat) (rest : list A) :
  eq x x = true ->
  Std.unique_after eq x (repeat x n ++ rest) = Std.unique_after eq x rest.
Proof. intros Hxx. induction n as [|n IH]; simpl; [reflexivity|]. now rewrite Hxx. Qed.

Lemma event_log_app (xs ys : list event) :
  event_log (xs ++ ys) false = event_log xs false ++ event_log ys false.
Proof. unfold event_log. now rewrite List.filter_app, map_app. Qed.

Lemma In_event_log (xs : list event) (x : event) :
  In (code_of x) (event_log xs false) <-> In x xs /\ predicate x = true.
Proof.
  unfold event_log. rewrite in_map_iff. split.
  - intros (y & Hcode & Hy). apply List.filter_In in Hy as [Hin Hp].
    assert (y = x) as -> by (destruct x, y; simpl in Hcode; congruence). now split.
  - intros [Hin Hp]. exists x. split; [reflexivity|]. now apply List.filter_In.
Qed.

(** [event_log] without [make_unique] is a filter that keeps the order: the
    log of two sequences in a row is the two logs in a row; every error is in
    the log, and a status is in it iff it is [peer_added], [peer_removed] or
    [peer_lost].  With [make_unique] no two neighbours of the log are equal,
    and the log has the same codes.  Any number of [peer_unavailable] errors
    in a row followed by [peer_added] gives the log of the retry test. *)
Theorem event_log_keeps_peer_events :
  (forall xs ys, event_log (xs ++ ys) false = event_log xs false ++ event_log ys false)
  /\ (forall xs c, In (code_ec c) (event_log xs false) <-> In (error_event c) xs)
  /\ (forall xs c,
        In (code_sc c) (event_log xs false)
        <-> In (status_event c) xs
            /\ (c = peer_added \/ c = peer_removed \/ c = peer_lost))
  /\ (forall xs,
        Std.adjacent_find code_eq (event_log xs true) = length (event_log xs true)
        /\ forall c, In c (event_log xs true) <-> In c (event_log xs false))
  /\ (forall n, event_log (repeat (error_event peer_unavailable) (S n)
                           ++ [status_event peer_added]) true
                = [code_ec peer_unavailable; code_sc peer_added]).
Proof.
  split; [exact event_log_app|]. split; [|split; [|split]].
  - intros xs c. rewrite (In_event_log xs (error_event c)). simpl. tauto.
  - intros xs c. rewrite (In_event_log xs (status_event c)). simpl.
    destruct c; intuition discriminate.
  - intros xs. split; [apply unique_distinct|].
    intros c. unfold event_log.
    destruct (map code_of (List.filter predicate xs)) as [|y ys]; [reflexivity|].
    simpl. split.
    + intros [<- | H]; [now left | right; now apply In_unique_after in H].
    + intros [<- | H]; [now left|].
      destruct (unique_after_keeps code_eq ys (fun a b => proj1 (code_eq_spec a b)) y c H);
        [now left | now right].
  - intros n. unfold event_log.
    assert (List.filter predicate
              (repeat (error_event peer_unavailable) (S n) ++ [status_event peer_added])
            = repeat (error_event peer_unavailable) (S n) ++ [status_event peer_added])
      as ->.
    { rewrite List.filter_app. simpl. f_equal. f_equal.
      induction n as [|n IH]; simpl; [reflexivity | now rewrite IH]. }
    rewrite map_app, map_repeat. simpl.
    now rewrite (unique_after_same code_eq (code_ec peer_unavailable) n).
Qed.

End EventLogFacts.

(** ** The clocks of the integration test *)

Module TestClockFacts.

Import TestClock.

Lemma min_element_spec (xs : list Z) (m : Z) :
  Std.min_element xs = Some m -> In m xs /\ Forall (fun x => (m <= x)%Z) xs.
Proof.
  revert m; induction xs as [|x xs IH]; intros m; simpl; [discriminate|].
  destruct (Std.min_element xs) as [m'|] eqn:Hmin.
  - destruct (IH m' eq_refl) as [Hin Hall]. intros [= <-].
    destruct (Z.ltb_spec m' x).
    + split; [now right|]. constructor; [lia | exact Hall].
    + split; [now left|]. constructor; [lia|].
      eapply List.Forall_impl; [|exact Hall]. simpl. intros; lia.
  - destruct xs; [|simpl in Hmin; destruct (Std.min_element xs); discriminate].
    intros [= <-]. split; [now left|]. constructor; [lia | constructor].
Qed.

Lemma min_element_none (xs : list Z) : Std.min_element xs = None <-> xs = [].
Proof.
  destruct xs as [|x xs]; simpl; [easy|].
  destruct (Std.min_element xs); split; discriminate.
Qed.

Lemma pending_empty (peers : list test_clock) :
  pending peers = [] <-> Forall (fun tac => schedule tac = []) peers.
Proof.
  unfold pending. induction peers as [|tac peers IH]; simpl.
  - split; [constructor | reflexivity].
  - destruct (schedule tac) as [|first rest] eqn:Hs; simpl.
    + rewrite IH. split; [now constructor | now inversion 1].
    + split; [discriminate | inversion 1; congruence].
Qed.

Lemma In_pending (peers : list test_clock) (dt : Z) :
  In dt (pending peers) <->
  exists tac first rest,
    In tac peers /\ schedule tac = first :: rest /\ dt = (first - now tac)%Z.
Proof.
  unfold pending. rewrite in_flat_map. split.
  - intros (tac & Hin & Hdt). destruct (schedule tac) as [|first rest] eqn:Hs; [easy|].
    destruct Hdt as [<- | []]. eauto 6.
  - intros (tac & first & rest & Hin & Hs & ->). exists tac. rewrite Hs. simpl. auto.
Qed.

(** [try_trigger_timeout] reports false, and changes nothing, iff no peer
    has a timeout scheduled.  Otherwise every clock advances by the same
    amount, the clock of some peer reaches its first timeout, and no clock
    passes the first timeout of its peer: the next timeout fires, and none
    is skipped. *)
Theorem try_trigger_timeout_fires_the_next (peers : list test_clock) :
  (fst (try_trigger_timeout peers) = false
   <-> Forall (fun tac => schedule tac = []) peers)
  /\ (fst (try_trigger_timeout peers) = false -> snd (try_trigger_timeout peers) = peers)
  /\ (fst (try_trigger_timeout peers) = true ->
      exists dt,
        snd (try_trigger_timeout peers) = map (advance_time dt) peers
        /\ (exists tac first rest,
              In tac peers /\ schedule tac = first :: rest
              /\ (now tac + dt = first)%Z)
        /\ (forall tac first rest,
              In tac peers -> schedule tac = first :: rest ->
              (now tac + dt <= first)%Z)).
Proof.
  unfold try_trigger_timeout.
  destruct (Std.min_element (pending peers)) as [dt|] eqn:Hmin; simpl.
  - split; [|split; [discriminate|]].
    + split; [discriminate|]. intros Hnone. apply pending_empty in Hnone.
      rewrite Hnone in Hmin. discriminate.
    + intros _. exists dt. split; [reflexivity|].
      apply min_element_spec in Hmin as [Hin Hall]. split.
      * apply In_pending in Hin as (tac & first & rest & Htac & Hs & ->).
        exists tac, first, rest. repeat split; try assumption. lia.
      * intros tac first rest Htac Hs. rewrite List.Forall_forall in Hall.
        assert (dt <= first - now tac)%Z; [|lia].
        apply Hall. apply In_pending. eauto 6.
  - split; [|split; [reflexivity | discriminate]].
    split; [|reflexivity]. intros _. apply pending_empty.
    now apply min_element_none.
Qed.

(** A peer at time 0 with timeouts at 5 and 9 and a peer at time 3 with a
    timeout at 4: both clocks advance by 1. *)
Lemma try_trigger_timeout_witness :
  exists dt,
    snd (try_trigger_timeout [ {| now := 0; schedule := [5; 9]%Z |};
                               {| now := 3; schedule := [4]%Z |} ])
    = map (advance_time dt) [ {| now := 0; schedule := [5; 9]%Z |};
                              {| now := 3; schedule := [4]%Z |} ].
Proof.
  destruct (proj2 (proj2 (try_trigger_timeout_fires_the_next
                            [ {| now := 0; schedule := [5; 9]%Z |};
                              {| now := 3; schedule := [4]%Z |} ])) eq_refl)
    as (dt & Hclocks & _).
  now exists dt.
Defined.

End TestClockFacts.

(** ** The subscriber queue *)

Module SubscriberQueueFacts.

Import SubscriberQueue.

(** *** The operations under the lock *)

Lemma on_producer_wakeup_idempotent (q : subscriber_queue) :
  on_producer_wakeup (on_producer_wakeup q) = on_producer_wakeup q.
Proof. unfold on_producer_wakeup. destruct q as [b [] fx]; reflexivity. Qed.

Lemma on_producer_wakeup_ready (q : subscriber_queue) :
  ready_ q = true -> on_producer_wakeup q = q.
Proof. unfold on_producer_wakeup. now intros ->. Qed.

Lemma on_producer_wakeup_fires (q : subscriber_queue) :
  ready_ q = false ->
  ready_ (on_producer_wakeup q) = true /\ fx_ (on_producer_wakeup q) = S (fx_ q).
Proof. unfold on_producer_wakeup. intros ->. split; reflexivity. Qed.

(** The locked block of [pull] takes the signal back only when the buffer
    is empty at that moment. *)
Lemma pull_locked_keeps_signal (q : subscriber_queue) (b : bounded_buffer) :
  0 < available b -> pull_locked q b = q.
Proof.
  intros Havail. unfold pull_locked.
  destruct (Nat.eqb_spec (available b) 0) as [Heq | _]; [lia|].
  now rewrite andb_false_r.
Qed.

(** *** The invariant *)

Ltac flatten_system s :=
  destruct s as [[its cl] [b rd fx] dst pp cp];
  unfold flare_matches_ready, no_lost_wake, available in *; simpl in *.

Lemma step_keeps_flare (s s' : system) (a : action) :
  step s a = Some s' -> flare_matches_ready s -> flare_matches_ready s'.
Proof.
  intros Hstep Hflare. flatten_system s. destruct a; simpl in Hstep.
  - destruct pp, cl, xs; try discriminate. injection Hstep as <-. exact Hflare.
  - destruct pp, cl; try discriminate. injection Hstep as <-. exact Hflare.
  - destruct pp; try discriminate. injection Hstep as <-. simpl.
    unfold on_producer_wakeup. simpl. destruct rd; simpl; [exact Hflare|].
    unfold fire. now rewrite Hflare.
  - destruct cp, b, num; try discriminate;
      (destruct (cl && (length (skipn _ its) =? 0)); injection Hstep as <-; simpl;
       [unfold extinguish; simpl; destruct rd; simpl; [reflexivity | exact Hflare]
       | exact Hflare]).
  - destruct cp; try discriminate. injection Hstep as <-. exact Hflare.
  - destruct cp; try discriminate. injection Hstep as <-. simpl.
    unfold pull_locked, available. simpl.
    destruct (rd && (length its =? 0)); simpl; [reflexivity | exact Hflare].
Qed.

Lemma step_keeps_wake (s s' : system) (a : action) :
  step s a = Some s' -> no_lost_wake s -> no_lost_wake s'.
Proof.
  intros Hstep Hwake. flatten_system s. destruct a; simpl in Hstep.
  - destruct pp, cl, xs; try discriminate. injection Hstep as <-. simpl. intros _.
    destruct its as [|x its]; simpl; [now right|].
    destruct Hwake as [Hready | Hwaking]; [simpl; lia | now left | discriminate].
  - destruct pp, cl; try discriminate. injection Hstep as <-. simpl. intros Hpos.
    destruct its as [|x its]; simpl in *; [lia|].
    destruct (Hwake Hpos) as [Hready | Hwaking]; [now left | discriminate].
  - destruct pp; try discriminate. injection Hstep as <-. simpl. intros _. left.
    unfold on_producer_wakeup. simpl. now destruct rd.
  - destruct cp, b, num; try discriminate;
      (destruct (cl && (length (skipn _ its) =? 0)) eqn:Hdone; injection Hstep as <-; simpl;
       [ apply andb_true_iff in Hdone as [_ Hempty]; apply Nat.eqb_eq in Hempty;
         intros Hpos; lia
       | intros Hpos; apply Hwake;
         destruct its; [destruct num; simpl in Hpos; lia | simpl; lia] ]).
  - destruct cp; try discriminate. injection Hstep as <-. exact Hwake.
  - destruct cp; try discriminate. injection Hstep as <-. simpl. intros Hpos.
    rewrite pull_locked_keeps_signal by exact Hpos. now apply Hwake.
Qed.

Lemma reachable_invariant (s : system) :
  reachable s -> flare_matches_ready s /\ no_lost_wake s.
Proof.
  induction 1 as [|s s' a _ [Hflare Hwake] Hstep].
  - split; [reflexivity|]. unfold no_lost_wake, available. simpl. lia.
  - split; [now apply (step_keeps_flare s s' a) | now apply (step_keeps_wake s s' a)].
Qed.

Lemma reachable_run (actions : list action) (s s' : system) :
  reachable s -> run s actions = Some s' -> reachable s'.
Proof.
  unfold run. revert s; induction actions as [|a actions IH]; intros s Hs; simpl.
  - now intros [= <-].
  - destruct (step s a) as [s1|] eqn:Hstep; [|discriminate].
    apply IH. now apply (reachable_step s s1 a).
Qed.

(** C7: in every state the two threads can reach, the flare is armed iff
    the ready flag is set, and it holds at most one signal.
    [on_producer_wakeup] fires the flare only when the flag is not set yet,
    so a second wakeup changes nothing.  A step that disarms the flare is a
    step of the consumer's [pull], and the buffer is empty at that step: the
    locked block looks at the buffer again under the lock.  Hence no wake is
    lost: whenever the buffer holds items, the queue is ready or the
    producer is about to wake the consumer up. *)
Theorem flare_armed_iff_ready :
  (forall s, reachable s ->
             armed (fx_ (queue s)) = ready_ (queue s) /\ fx_ (queue s) <= 1)
  /\ (forall q, (ready_ q = true -> on_producer_wakeup q = q)
                /\ (ready_ q = false ->
                    ready_ (on_producer_wakeup q) = true
                    /\ fx_ (on_producer_wakeup q) = S (fx_ q))
                /\ on_producer_wakeup (on_producer_wakeup q) = on_producer_wakeup q)
  /\ (forall s a s', step s a = Some s' ->
                     armed (fx_ (queue s)) = true -> armed (fx_ (queue s')) = false ->
                     (a = consumer_lock \/ exists num, a = consumer_pull num)
                     /\ available (shared s') = 0)
  /\ (forall s, reachable s ->
                0 < available (shared s) ->
                ready_ (queue s) = true \/ producer s = producer_waking).
Proof.
  split; [|split; [|split]].
  - intros s Hs. apply reachable_invariant in Hs as [Hflare _].
    unfold flare_matches_ready in Hflare. rewrite Hflare.
    destruct (ready_ (queue s)); split; simpl; auto.
  - intros q. split; [|split].
    + apply on_producer_wakeup_ready.
    + apply on_producer_wakeup_fires.
    + apply on_producer_wakeup_idempotent.
  - intros s a s' Hstep Harmed Hdisarmed.
    destruct s as [[its cl] [b rd fx] dst pp cp]. unfold available in *. simpl in *.
    destruct a; simpl in Hstep.
    + destruct pp, cl, xs; try discriminate. injection Hstep as <-. simpl in *. congruence.
    + destruct pp, cl; try discriminate. injection Hstep as <-. simpl in *. congruence.
    + destruct pp; try discriminate. injection Hstep as <-. simpl in *.
      unfold on_producer_wakeup in Hdisarmed. simpl in Hdisarmed.
      destruct rd; simpl in Hdisarmed; [congruence | discriminate].
    + split; [right; now exists num|].
      destruct cp, b, num; try discriminate;
        (destruct (cl && (length (skipn _ its) =? 0)) eqn:Hdone; injection Hstep as <-;
         simpl in *;
         [ apply andb_true_iff in Hdone as [_ Hempty]; now apply Nat.eqb_eq in Hempty
         | congruence ]).
    + destruct cp; try discriminate. injection Hstep as <-. simpl in *. congruence.
    + split; [now left|].
      destruct cp; try discriminate. injection Hstep as <-. simpl in *.
      unfold pull_locked, available in Hdisarmed. simpl in Hdisarmed.
      destruct rd; simpl in Hdisarmed; [|congruence].
      destruct (Nat.eqb_spec (length its) 0) as [Heq | _]; [exact Heq | simpl in Hdisarmed; congruence].
  - intros s Hs. now apply reachable_invariant in Hs as [_ Hwake].
Qed.

(** After the race the buffer holds the second message, and the flare is
    still armed. *)
Lemma flare_armed_witness :
  run initial (race ("a"%string, Value.d_none) ("b"%string, Value.d_none))
  = Some after_race
  /\ armed (fx_ (queue after_race)) = ready_ (queue after_race)
  /\ (ready_ (queue after_race) = true \/ producer after_race = producer_waking).
Proof.
  assert (run initial (race ("a"%string, Value.d_none) ("b"%string, Value.d_none))
          = Some after_race) as Hrun by (vm_compute; reflexivity).
  assert (reachable after_race) as Hreach
    by (apply (reachable_run _ initial after_race reachable_initial Hrun)).
  split; [exact Hrun|]. split.
  - apply (proj1 flare_armed_iff_ready after_race Hreach).
  - apply (proj2 (proj2 (proj2 flare_armed_iff_ready)) after_race Hreach).
    unfold available. simpl. lia.
Defined.

(** A [pull] that the producer does not interrupt, on an open buffer: the
    first [num] items move to [dst_buf]; the flare is extinguished when that
    drains the buffer and left alone otherwise. *)
Theorem pull_extinguishes_when_drained (s : system) (num : nat) :
  consumer s = consumer_idle -> buf_ (queue s) = true ->
  closed (shared s) = false -> 0 < num ->
  exists s',
    pull s num = Some s'
    /\ dst_buf s' = dst_buf s ++ firstn num (items (shared s))
    /\ items (shared s') = skipn num (items (shared s))
    /\ consumer s' = consumer_idle
    /\ producer s' = producer s
    /\ queue s' = if available (shared s) <=? num then extinguish (queue s)
                  else queue s.
Proof.
  destruct s as [[its cl] [b rd fx] dst pp cp]. unfold available. simpl.
  intros -> -> -> Hnum. destruct num as [|num]; [lia|].
  unfold pull. cbn [step consumer queue buf_ shared closed items dst_buf producer].
  rewrite andb_false_l. cbn [consumer step shared items]. unfold available.
  cbn [items]. rewrite length_skipn.
  destruct (Nat.leb_spec (length its) (S num)) as [Hall | Hsome].
  - replace (length its - S num) with 0 by lia. cbn.
    eexists. split; [reflexivity|]. cbn. repeat split.
    unfold pull_locked, extinguish, available. cbn.
    rewrite length_skipn. replace (length its - S num) with 0 by lia. cbn.
    now rewrite andb_true_r.
  - destruct (length its - S num) as [|left] eqn:Hleft; [lia|]. cbn.
    eexists. split; [reflexivity|]. cbn. repeat split.
Qed.

Lemma pull_extinguishes_witness :
  exists s', pull after_race 1 = Some s'
             /\ items (shared s') = []
             /\ queue s' = {| buf_ := true; ready_ := false; fx_ := 0 |}.
Proof.
  destruct (pull_extinguishes_when_drained after_race 1)
    as (s' & Hpull & _ & Hitems & _ & _ & Hqueue); try reflexivity; [lia|].
  exists s'. repeat split; assumption.
Defined.

(** Without the second look at the buffer the same race loses the wake: the
    buffer holds the second message, the flare is extinguished, the queue is
    not ready and the producer has nothing left to do. *)
Lemma unchecked_extinguish_loses_wake :
  run_with step_unchecked initial
           (race ("a"%string, Value.d_none) ("b"%string, Value.d_none))
  = Some after_race_unchecked
  /\ available (shared after_race_unchecked) = 1
  /\ armed (fx_ (queue after_race_unchecked)) = false
  /\ ready_ (queue after_race_unchecked) = false
  /\ producer after_race_unchecked = producer_idle.
Proof. repeat split; vm_compute; reflexivity. Qed.

End SubscriberQueueFacts.

(** ** The calls of [subscriber] *)

Module SubscriberFacts.

Import SubscriberQueue Subscriber.

(** *** Nothing is lost, doubled or reordered *)

Lemma step_keeps_order (s s' : system) (a : action) :
  step s a = Some s' ->
  dst_buf s' ++ items (shared s')
  = (dst_buf s ++ items (shared s)) ++ pushed [a].
Proof.
  destruct s as [[its cl] [b rd fx] dst pp cp]. destruct a; simpl.
  - destruct pp, cl, xs; try discriminate. intros [= <-]. simpl.
    now rewrite !app_nil_r, app_assoc.
  - destruct pp, cl; try discriminate. intros [= <-]. simpl. now rewrite app_nil_r.
  - destruct pp; try discriminate. intros [= <-]. simpl. now rewrite app_nil_r.
  - destruct cp, b, num; try discriminate;
      (destruct (cl && (length (skipn _ its) =? 0)); intros [= <-]; simpl;
       now rewrite app_nil_r, <- app_assoc, firstn_skipn).
  - destruct cp; try discriminate. intros [= <-]. simpl. now rewrite app_nil_r.
  - destruct cp; try discriminate. intros [= <-]. simpl. now rewrite app_nil_r.
Qed.

Lemma run_keeps_order (actions : list action) (s s' : system) :
  run s actions = Some s' ->
  dst_buf s' ++ items (shared s') = (dst_buf s ++ items (shared s)) ++ pushed actions.
Proof.
  unfold run. revert s; induction actions as [|a actions IH]; intros s; simpl.
  - intros [= <-]. now rewrite app_nil_r.
  - destruct (step s a) as [s1|] eqn:Hstep; [|discriminate]. intros Hrun.
    rewrite (IH s1 Hrun), (step_keeps_order s s1 a Hstep).
    unfold pushed. simpl. now rewrite app_nil_r, <- !app_assoc.
Qed.

(** However the producer and the consumer interleave, what [pull] has put
    into the vector followed by what is still in the buffer is what the
    producer has pushed, in the order of the pushes: no message is lost,
    doubled or reordered. *)
Theorem pull_delivers_in_order (actions : list action) (s : system) :
  run initial actions = Some s ->
  dst_buf s ++ items (shared s) = pushed actions.
Proof. intros Hrun. now rewrite (run_keeps_order actions initial s Hrun). Qed.

Lemma pull_delivers_witness :
  dst_buf after_race ++ items (shared after_race)
  = [("a"%string, Value.d_none); ("b"%string, Value.d_none)].
Proof.
  apply (pull_delivers_in_order
           (race ("a"%string, Value.d_none) ("b"%string, Value.d_none))).
  vm_compute. reflexivity.
Defined.

Lemma step_keeps_drained (s s' : system) (a : action) :
  step s a = Some s' -> drained_when_reset s -> drained_when_reset s'.
Proof.
  unfold drained_when_reset.
  destruct s as [[its cl] [b rd fx] dst pp cp]. destruct a; simpl.
  - destruct pp, cl, xs; try discriminate. intros [= <-]. simpl.
    intros H Hb. destruct (H Hb). discriminate.
  - destruct pp, cl; try discriminate. intros [= <-]. simpl.
    intros H Hb. destruct (H Hb). discriminate.
  - destruct pp; try discriminate. intros [= <-]. simpl.
    unfold on_producer_wakeup. simpl. destruct rd; simpl; auto.
  - destruct cp, b, num; try discriminate;
      (destruct (cl && (length (skipn _ its) =? 0)) eqn:Hdone; intros [= <-]; simpl;
       [ apply andb_true_iff in Hdone as [_ Hempty]; apply Nat.eqb_eq in Hempty;
         intros _ _; split; [reflexivity | now apply length_zero_iff_nil]
       | intros _ Hb; discriminate Hb ]).
  - destruct cp; try discriminate. intros [= <-]. simpl. auto.
  - destruct cp; try discriminate. intros [= <-]. simpl.
    unfold pull_locked. simpl. destruct (rd && _); simpl; auto.
Qed.

Lemma run_keeps_drained (actions : list action) (s s' : system) :
  run s actions = Some s' -> drained_when_reset s -> drained_when_reset s'.
Proof.
  unfold run. revert s; induction actions as [|a actions IH]; intros s; simpl.
  - now intros [= <-].
  - destruct (step s a) as [s1|] eqn:Hstep; [|discriminate]. intros Hrun Hs.
    apply (IH s1 Hrun). now apply (step_keeps_drained s s1 a).
Qed.

(** [pull] resets [buf_] only after the last item: however the two threads
    interleave, once [buf_] is reset the buffer is closed and empty, and the
    vector has received everything the producer has ever pushed. *)
Theorem buf_reset_after_last_item (actions : list action) (s : system) :
  run initial actions = Some s -> buf_ (queue s) = false ->
  closed (shared s) = true /\ items (shared s) = [] /\ dst_buf s = pushed actions.
Proof.
  intros Hrun Hreset.
  destruct (run_keeps_drained actions initial s Hrun) as [Hclosed Hempty];
    [discriminate | exact Hreset |].
  repeat split; try assumption.
  pose proof (run_keeps_order actions initial s Hrun) as Horder.
  rewrite Hempty, app_nil_r in Horder. exact Horder.
Qed.

(** The producer pushes one item and closes the buffer; a single [pull]
    takes the item and gives the buffer up. *)
Lemma buf_reset_witness :
  exists s,
    run initial [producer_push [("a"%string, Value.d_none)]; producer_wakeup;
                 producer_close; consumer_pull 4] = Some s
    /\ dst_buf s = [("a"%string, Value.d_none)].
Proof.
  eexists. split; [vm_compute; reflexivity|].
  apply (buf_reset_after_last_item
           [producer_push [("a"%string, Value.d_none)]; producer_wakeup;
            producer_close; consumer_pull 4]); reflexivity.
Defined.

(** *** The calls of the consumer *)

(** A [pull] that the producer does not interrupt moves the first [num]
    items; a [pull] that drains the buffer extinguishes the flare, and resets
    [buf_] when the producer has closed the buffer. *)
Lemma pull_uninterrupted (s : system) (num : nat) :
  consumer s = consumer_idle -> buf_ (queue s) = true -> 0 < num ->
  pull s num
  = Some {| shared := {| items := skipn num (items (shared s));
                         closed := closed (shared s) |};
            queue := after_pull s num;
            dst_buf := dst_buf s ++ firstn num (items (shared s));
            producer := producer s;
            consumer := consumer_idle |}.
Proof.
  destruct s as [[its cl] [b rd fx] dst pp cp]. unfold after_pull, SubscriberQueue.available.
  simpl. intros -> -> Hnum. destruct num as [|num]; [lia|].
  unfold pull. cbn [step consumer queue buf_ shared closed items dst_buf producer].
  rewrite length_skipn.
  destruct (Nat.leb_spec (length its) (S num)) as [Hall | Hsome].
  - replace (length its - S num) with 0 by lia. cbn [Nat.eqb]. rewrite andb_true_r.
    destruct cl; cbn.
    + reflexivity.
    + unfold SubscriberQueue.available. cbn. rewrite length_skipn.
      replace (length its - S num) with 0 by lia. cbn.
      unfold pull_locked, extinguish, SubscriberQueue.available. cbn.
      rewrite length_skipn. replace (length its - S num) with 0 by lia. cbn.
      now rewrite andb_true_r.
  - destruct (length its - S num) as [|left] eqn:Hleft; [lia|]. cbn [Nat.eqb].
    rewrite andb_false_r. cbn. unfold SubscriberQueue.available. cbn.
    rewrite length_skipn, Hleft. cbn. reflexivity.
Qed.

Lemma after_pull_quiet (s : system) (num : nat) :
  flare_matches_ready s -> SubscriberQueue.available (shared s) <= num ->
  ready_ (after_pull s num) = false /\ fx_ (after_pull s num) = 0.
Proof.
  unfold flare_matches_ready, after_pull, extinguish. intros Hflare Hall.
  destruct (Nat.leb_spec (SubscriberQueue.available (shared s)) num); [|lia].
  destruct (ready_ (queue s)) eqn:Hready, (closed (shared s)); simpl; auto.
Qed.

Lemma pull_fresh (s : system) (num : nat) :
  consumer s = consumer_idle -> buf_ (queue s) = true -> 0 < num ->
  pull (with_dst_buf s []) num = Some (pulled s num).
Proof.
  intros Hidle Hbuf Hnum.
  now rewrite (pull_uninterrupted (with_dst_buf s []) num Hidle Hbuf Hnum).
Qed.


(** [subscriber::poll] on a ready-consistent queue takes everything the
    buffer holds (which is never more than its capacity) and leaves the flare
    extinguished; [buf_] is reset when the producer has closed the buffer.
    Once [buf_] is reset, [capacity] and [available] are zero and [poll]
    returns nothing and changes nothing. *)
Theorem poll_drains_the_buffer (buffer_capacity : nat) (s : system) :
  consumer s = consumer_idle ->
  (flare_matches_ready s -> buf_ (queue s) = true -> 0 < buffer_capacity ->
   SubscriberQueue.available (shared s) <= buffer_capacity ->
   exists s',
     poll buffer_capacity s = Some s'
     /\ dst_buf s' = items (shared s)
     /\ items (shared s') = []
     /\ ready_ (queue s') = false
     /\ armed (fx_ (queue s')) = false
     /\ buf_ (queue s') = negb (closed (shared s))
     /\ producer s' = producer s)
  /\ (buf_ (queue s) = false ->
      capacity buffer_capacity s = 0
      /\ available s = 0
      /\ poll buffer_capacity s = Some (with_dst_buf s [])).
Proof.
  intros Hidle. split.
  - intros Hflare Hbuf Hcap Hall. exists (pulled s buffer_capacity).
    unfold poll, capacity. rewrite Hbuf.
    destruct (Nat.ltb_spec 0 buffer_capacity) as [_ | ?]; [|lia].
    rewrite (pull_fresh s buffer_capacity Hidle Hbuf Hcap).
    destruct (after_pull_quiet s buffer_capacity Hflare Hall) as [Hready Hfx].
    unfold pulled. cbn [dst_buf shared items queue producer].
    rewrite Hready, Hfx. unfold SubscriberQueue.available in Hall.
    rewrite firstn_all2, skipn_all2 by exact Hall. repeat split.
    unfold after_pull, SubscriberQueue.available, extinguish.
    destruct (Nat.leb_spec (length (items (shared s))) buffer_capacity); [|lia].
    destruct (closed (shared s)); simpl; [reflexivity|].
    destruct (ready_ (queue s)); simpl; exact Hbuf.
  - intros Hbuf. unfold poll, capacity, available. rewrite Hbuf. auto.
Qed.

Lemma poll_drains_witness :
  exists s', poll 64 after_race = Some s'
             /\ dst_buf s' = [("b"%string, Value.d_none)]
             /\ armed (fx_ (queue s')) = false.
Proof.
  destruct (proj1 (poll_drains_the_buffer 64 after_race eq_refl))
    as (s' & Hpoll & Hdst & _ & _ & Harmed & _);
    [reflexivity | reflexivity | lia | unfold SubscriberQueue.available; simpl; lia |].
  exists s'. repeat split; assumption.
Defined.








End SubscriberFacts.

(** ** The Python binding of Zeek events *)

Module ZeekBindingFacts.

Import Value ZeekBinding.

(** C10: [Event.valid] never raises and returns [False] when the wrapped
    data is not of type [Event]; [name], [timestamp] and [args] raise
    [std::invalid_argument] when the wrapped data is not of type [Event] or
    the event is not valid; on a valid event of type [Event] they return its
    name, its optional timestamp (converted) and its arguments. *)
Theorem event_accessors
    {message_type : Type} `{EqDecision message_type} (Event : message_type)
    (type : data -> message_type) (valid : data -> bool) (name : data -> string)
    (ts : data -> option timestamp) (args : data -> list data)
    (convert : timestamp -> real) (ev : data) :
  (exists b, py_valid Event type valid ev = returned b)
  /\ (type ev <> Event -> py_valid Event type valid ev = returned false)
  /\ (type ev <> Event \/ valid ev = false ->
      (exists what, py_name Event type valid name ev = invalid_argument what)
      /\ (exists what, py_timestamp Event type valid ts convert ev = invalid_argument what)
      /\ (exists what, py_args Event type valid args ev = invalid_argument what))
  /\ (type ev = Event -> valid ev = true ->
      py_valid Event type valid ev = returned true
      /\ py_name Event type valid name ev = returned (name ev)
      /\ py_timestamp Event type valid ts convert ev = returned (convert <$> ts ev)
      /\ py_args Event type valid args ev = returned (args ev)).
Proof.
  unfold py_valid, py_name, py_timestamp, py_args. cbv zeta.
  destruct (decide (type ev = Event)) as [Heq | Hne].
  - rewrite !bool_decide_eq_false_2 by (intros Hne; now apply Hne).
    split; [eauto|]. split; [intros Hne; now elim Hne|]. split.
    + intros [Hne | Hinvalid]; [now elim Hne|]. rewrite Hinvalid. simpl.
      repeat split; eauto.
    + intros _ Hvalid. rewrite Hvalid. simpl. repeat split. now destruct (ts ev).
  - rewrite !bool_decide_eq_true_2 by exact Hne.
    split; [eauto|]. split; [reflexivity|]. split; [repeat split; eauto|].
    intros Heq. now elim Hne.
Qed.

Lemma event_accessors_witness :
  py_name Envelope.Event Envelope.type Envelope.valid Envelope.name Envelope.ping
  = returned "ping"%string
  /\ py_valid Envelope.Event Envelope.type Envelope.valid Envelope.log_write
     = returned false
  /\ exists what,
       py_args Envelope.Event Envelope.type Envelope.valid Envelope.args
               Envelope.log_write = invalid_argument what.
Proof.
  split; [|split].
  - apply (proj2 (proj2 (proj2 (event_accessors Envelope.Event Envelope.type
             Envelope.valid Envelope.name Envelope.ts Envelope.args Envelope.convert
             Envelope.ping)))); reflexivity.
  - apply (proj1 (proj2 (event_accessors Envelope.Event Envelope.type
             Envelope.valid Envelope.name Envelope.ts Envelope.args Envelope.convert
             Envelope.log_write))). discriminate.
  - apply (proj1 (proj2 (proj2 (event_accessors Envelope.Event Envelope.type
             Envelope.valid Envelope.name Envelope.ts Envelope.args Envelope.convert
             Envelope.log_write)))). left. discriminate.
Defined.

End ZeekBindingFacts.

(** ** The backend that runs all backends *)

Module BackendTestFacts.

Import BackendTest.

Lemma adjacent_find_none {A : Type} (pred : A -> A -> bool) (x : A) (xs : list A) :
  (forall a b, pred a b = false <-> a = b) ->
  Std.adjacent_find pred (x :: xs) = length (x :: xs) ->
  forall y, In y xs -> y = x.
Proof.
  intros Hne. revert x; induction xs as [|a xs IH]; intros x; [easy|].
  cbn [Std.adjacent_find length]. destruct (pred x a) eqn:Hxa; [discriminate|].
  apply Hne in Hxa as <-. intros [= Hrest] y [-> | Hy]; [reflexivity|].
  now apply (IH x).
Qed.

Lemma adjacent_find_some {A : Type} (pred : A -> A -> bool) (xs : list A) :
  Std.adjacent_find pred xs <> length xs ->
  exists a b, In a xs /\ In b xs /\ pred a b = true.
Proof.
  induction xs as [|x [|y xs] IH]; simpl; try congruence.
  destruct (pred x y) eqn:Hxy.
  - intros _. exists x, y. auto.
  - intros Hne. destruct IH as (a & b & Ha & Hb & Hab); [simpl in *; congruence|].
    exists a, b. auto.
Qed.

(** [meta_backend::perform] runs the operation on every backend, whatever
    the results.  When the inequality of the results is the negation of
    equality, it returns the result of the first backend only if all the
    others gave the same, and [sc::unspecified] as soon as two backends
    differ. *)
Theorem perform_reports_disagreement
    {R B : Type} (not_equal_to : R -> R -> bool) (unspecified : R)
    (f : B -> B * R) (first : B) (others : list B) :
  (forall x y, not_equal_to x y = false <-> x = y) ->
  exists r,
    perform not_equal_to unspecified f (first :: others)
    = Some (map (fun b => fst (f b)) (first :: others), r)
    /\ ((r = snd (f first) /\ forall b, In b others -> snd (f b) = r)
        \/ (r = unspecified
            /\ exists b b', In b (first :: others) /\ In b' (first :: others)
                            /\ snd (f b) <> snd (f b'))).
Proof.
  intros Hne. unfold perform, all_equal. rewrite !List.map_map.
  destruct (Nat.eqb_spec
              (Std.adjacent_find not_equal_to (map (fun b => snd (f b)) (first :: others)))
              (length (map (fun b => snd (f b)) (first :: others)))) as [Hall | Hsome].
  - exists (snd (f first)). split; [reflexivity|]. left. split; [reflexivity|].
    intros b Hb. apply (adjacent_find_none not_equal_to _ _ Hne Hall).
    now apply (in_map (fun b => snd (f b))).
  - exists unspecified. split; [reflexivity|]. right. split; [reflexivity|].
    apply adjacent_find_some in Hsome as (x & y & Hx & Hy & Hxy).
    apply in_map_iff in Hx as (b & <- & Hb). apply in_map_iff in Hy as (b' & <- & Hb').
    exists b, b'. repeat split; try assumption.
    intros Heq. apply Hne in Heq. congruence.
Qed.

Lemma perform_reports_witness :
  exists r,
    perform (fun x y : nat => negb (x =? y)) 99 (fun b : nat => (S b, b * 0)) [1; 2; 3]
    = Some ([2; 3; 4], r)
    /\ r = 0.
Proof.
  destruct (perform_reports_disagreement
              (fun x y : nat => negb (x =? y)) 99 (fun b : nat => (S b, b * 0)) 1 [2; 3])
    as (r & Hperform & [[Hr _] | [_ (b & b' & _ & _ & Hdiffer)]]).
  - intros x y. rewrite negb_false_iff. apply Nat.eqb_eq.
  - exists r. split; [exact Hperform | exact Hr].
  - exfalso. apply Hdiffer. simpl. lia.
Defined.

End BackendTestFacts.
